(** * trade-sim: the matching engine and the position account of [src/App.tsx]

    The development embeds the [OrderBook] class ([add], [bestBid], [bestAsk],
    [executeMarket], [placeAndMatch], [seedAround], [snapshot]) and, of the
    component, the account update [fillPosition], order entry ([submitOrder],
    [flatten]), the simulation [step] with its candles, and the first and the
    reset state, as Rocq functions, and states the properties of the
    specification over them, followed by further properties of the module.

    Numbers.  A TypeScript [number] is modelled by an exact rational ([Q]):
    sums, products, quotients, [Math.min], [Math.max], [Math.abs] and
    [Math.round] are the exact ones, comparisons are the order of [Q], and two
    numbers are the same [Map] key when they are equal as rationals ([==]).
    Rounding error of IEEE doubles, [NaN] and the infinities are therefore
    outside this model: its statements are those of exact arithmetic on
    finite numbers.  The thresholds 1e-7 and 1e-8 of the source are kept as
    they are written.  Module [Double] holds the functions of the book and of
    the account a second time, over the binary64 numbers of the language; it
    is evaluated where rounding or [NaN] changes what the program returns,
    and what does not rest on rounded sums (the order of the best prices
    after [placeAndMatch], the result on an empty side) is proved over it.

    State.  The two [Map<number, Order[]>] of the book are association lists
    in insertion order (the iteration order of a JavaScript [Map]); the class
    methods take the book and return the new book.  The queue arrays and the
    order objects held by the book are created by the book itself ([add]
    copies the order it is given), so no two levels share an array and a value
    model loses nothing.

    Outside values.  [Math.random()], [genId()] and [Date.now()] are inputs of
    the functions that call them, one parameter for each call.  The React
    state is passed in and returned; the values a closure holds from its
    render ([mark] and [trades] in [step]) are parameters of their own. *)

From Stdlib Require Import QArith Qround Qminmax Qabs Lqa Lia.
From Stdlib Require Import List String Bool SetoidList SetoidPermutation.
From Stdlib Require Import Sorted Permutation.
From Stdlib Require PrimFloat FloatOps FloatAxioms SpecFloat Zpower.
Import (notations) PrimFloat.
Import ListNotations.

#[local] Set Warnings "-inexact-float".
Local Open Scope Q_scope.

(** ** Numbers *)

(** The tests [a < b] and [a <= b], as booleans. *)
Definition Qltb (a b : Q) : bool := negb (Qle_bool b a).
Definition Qleb (a b : Q) : bool := Qle_bool a b.

(** The literals [1e-7] and [1e-8]. *)
Definition eps7 : Q := 1 # 10000000.
Definition eps8 : Q := 1 # 100000000.

(** [Math.round x]: the integer nearest to [x], halves rounded up. *)
Definition Math_round (x : Q) : Q := inject_Z (Qfloor (x + (1 # 2))).

(** [const TICK = 0.01] and [roundTick]. *)
Definition TICK : Q := 1 # 100.
Definition roundTick (p : Q) : Q := Math_round (p / TICK) * TICK.

(** ** Data model *)

Inductive Side : Type := buy | sell.
Inductive Kind : Type := limit | market.

Record Order : Type := mkOrder {
  id : string;
  userId : string;
  side : Side;
  price : Q;
  size : Q;
  time : Q;
  kind : Kind
}.

Record Trade : Type := mkTrade {
  trade_time : Q;
  trade_price : Q;
  trade_size : Q;
  takerSide : Side
}.

(** [{ ...order, price: px }] and [{ ...order, size: s }]. *)
Definition with_price (o : Order) (px : Q) : Order :=
  mkOrder (id o) (userId o) (side o) px (size o) (time o) (kind o).
Definition with_size (o : Order) (s : Q) : Order :=
  mkOrder (id o) (userId o) (side o) (price o) s (time o) (kind o).

(** ** [Map<number, Order[]>] *)

Module PriceMap.

Definition t : Type := list (Q * list Order).

Definition empty : t := [].

Fixpoint get (px : Q) (m : t) : option (list Order) :=
  match m with
  | [] => None
  | (k, q) :: m' => if Qeq_bool px k then Some q else get px m'
  end.

(** [set] keeps the place of a key that is already there and puts a new
    key last. *)
Fixpoint set (px : Q) (q : list Order) (m : t) : t :=
  match m with
  | [] => [(px, q)]
  | (k, q0) :: m' =>
      if Qeq_bool px k then (k, q) :: m' else (k, q0) :: set px q m'
  end.

Fixpoint delete (px : Q) (m : t) : t :=
  match m with
  | [] => []
  | (k, q) :: m' =>
      if Qeq_bool px k then delete px m' else (k, q) :: delete px m'
  end.

Definition keys (m : t) : list Q := map fst m.

(** A [Map] holds a key once. *)
Definition wf (m : t) : Prop := NoDupA Qeq (keys m).

(** Sum of the sizes of the orders of a queue, and of a whole side. *)
Definition queue_size (q : list Order) : Q :=
  fold_right (fun o acc => size o + acc) 0 q.
Definition total_size (m : t) : Q :=
  fold_right (fun kq acc => queue_size (snd kq) + acc) 0 m.

End PriceMap.

(** ** The order book *)

Record OrderBook : Type := mkBook {
  bids : PriceMap.t;
  asks : PriceMap.t
}.

Definition empty_book : OrderBook := mkBook PriceMap.empty PriceMap.empty.

(** [q || []] for the result of [Map.get]. *)
Definition or_empty (o : option (list Order)) : list Order :=
  match o with Some q => q | None => [] end.

(** [add(order)] *)
Definition add (order : Order) (b : OrderBook) : OrderBook :=
  let book := match side order with buy => bids b | sell => asks b end in
  let px := roundTick (price order) in
  let q := or_empty (PriceMap.get px book) in
  let q' := q ++ [with_price order px] in
  let book' := PriceMap.set px q' book in
  match side order with
  | buy => mkBook book' (asks b)
  | sell => mkBook (bids b) book'
  end.

(** [Math.max(...ks)] and [Math.min(...ks)] on a list that is not empty. *)
Definition Math_max (k : Q) (ks : list Q) : Q := fold_left Qmax ks k.
Definition Math_min (k : Q) (ks : list Q) : Q := fold_left Qmin ks k.

Definition bestBid (b : OrderBook) : option Q :=
  match PriceMap.keys (bids b) with
  | [] => None
  | k :: ks => Some (Math_max k ks)
  end.

Definition bestAsk (b : OrderBook) : option Q :=
  match PriceMap.keys (asks b) with
  | [] => None
  | k :: ks => Some (Math_min k ks)
  end.

(** The comparator handed to [sort] in [executeMarket]. *)
Definition priceOrder (s : Side) (a b : Q) : Q :=
  match s with buy => a - b | sell => b - a end.

(** [Array.prototype.sort(cmp)]: a stable sort, [a] before [b] when
    [cmp a b <= 0]. *)
Fixpoint sort_insert (cmp : Q -> Q -> Q) (x : Q) (l : list Q) : list Q :=
  match l with
  | [] => [x]
  | y :: l' =>
      if Qleb (cmp x y) 0 then x :: y :: l' else y :: sort_insert cmp x l'
  end.

Definition sort (cmp : Q -> Q -> Q) (l : list Q) : list Q :=
  fold_right (sort_insert cmp) [] l.

(** The variables of [executeMarket] that its loops update. *)
Record MatchState : Type := mkMatch {
  m_book : PriceMap.t;
  m_remain : Q;
  m_notional : Q;
  m_trades : list Trade
}.

Record QueueState : Type := mkQueue {
  q_queue : list Order;
  q_remain : Q;
  q_notional : Q;
  q_trades : list Trade
}.

(** The inner loop [while (queue.length && remain > 0)] at level [px].  The
    first argument bounds the number of iterations; [queue_fuel] below is
    never reached (lemma [match_queue_exit]). *)
Fixpoint match_queue (fuel : nat) (s : Side) (now px : Q) (st : QueueState)
  : QueueState :=
  match fuel with
  | O => st
  | S fuel' =>
      match q_queue st with
      | [] => st
      | head :: rest =>
          if Qltb 0 (q_remain st) then
            let tradeSize := Qmin (q_remain st) (size head) in
            let head' := with_size head (size head - tradeSize) in
            let remain' := q_remain st - tradeSize in
            let notional' := q_notional st + tradeSize * px in
            let trades' := q_trades st ++ [mkTrade now px tradeSize s] in
            if Qleb (size head') eps7
            then match_queue fuel' s now px
                   (mkQueue rest remain' notional' trades')
            else match_queue fuel' s now px
                   (mkQueue (head' :: rest) remain' notional' trades')
          else st
      end
  end.

Definition queue_fuel (queue : list Order) : nat := S (length queue).

(** The body of [for (const px of levels)] after its [break] test.  [px] is a
    key of the map, so [book.get(px)!] is a queue ([or_empty] only closes the
    type).  The queue array is the one held by the map, so what the inner
    loop did to it is in the map without a [set]; the model writes it back
    at the same key. *)
Definition match_level (s : Side) (now px : Q) (st : MatchState)
  : MatchState :=
  let queue := or_empty (PriceMap.get px (m_book st)) in
  let r := match_queue (queue_fuel queue) s now px
             (mkQueue queue (m_remain st) (m_notional st) (m_trades st)) in
  let book' :=
    match q_queue r with
    | [] => PriceMap.delete px (m_book st)
    | _ :: _ => PriceMap.set px (q_queue r) (m_book st)
    end in
  mkMatch book' (q_remain r) (q_notional r) (q_trades r).

(** The outer loop. *)
Fixpoint match_levels (s : Side) (now : Q) (levels : list Q) (st : MatchState)
  : MatchState :=
  match levels with
  | [] => st
  | px :: levels' =>
      if Qleb (m_remain st) 0 then st
      else match_levels s now levels' (match_level s now px st)
  end.

Record ExecResult : Type := mkExec {
  trades : list Trade;
  avgPrice : Q;
  filled : Q
}.

(** The side of the book an aggressor of side [s] trades against. *)
Definition opposite (s : Side) (b : OrderBook) : PriceMap.t :=
  match s with buy => asks b | sell => bids b end.
Definition own (s : Side) (b : OrderBook) : PriceMap.t :=
  match s with buy => bids b | sell => asks b end.

(** [executeMarket(side, size, now)] *)
Definition executeMarket (s : Side) (sz now : Q) (b : OrderBook)
  : ExecResult * OrderBook :=
  let book := opposite s b in
  let levels := sort (priceOrder s) (PriceMap.keys book) in
  let st := match_levels s now levels (mkMatch book sz 0 []) in
  let filled := sz - m_remain st in
  let avgPrice := if Qltb 0 filled then m_notional st / filled else 0 in
  (mkExec (m_trades st) avgPrice filled,
   match s with
   | buy => mkBook (bids b) (m_book st)
   | sell => mkBook (m_book st) (asks b)
   end).

Record PlaceResult : Type := mkPlace {
  p_trades : list Trade;
  remaining : option Order
}.

(** [placeAndMatch(order, now)] *)
Definition placeAndMatch (order : Order) (now : Q) (b : OrderBook)
  : PlaceResult * OrderBook :=
  match kind order with
  | market =>
      let '(res, b1) := executeMarket (side order) (size order) now b in
      (mkPlace ([] ++ trades res) None, b1)
  | limit =>
      let bestOpp :=
        match side order with buy => bestAsk b | sell => bestBid b end in
      let crosses :=
        match bestOpp with
        | None => false
        | Some opp =>
            match side order with
            | buy => Qleb opp (price order)
            | sell => Qleb (price order) opp
            end
        end in
      if crosses then
        let '(res, b1) := executeMarket (side order) (size order) now b in
        let remainingSize := size order - filled res in
        if Qltb eps8 remainingSize then
          let leftover := with_size order remainingSize in
          (mkPlace ([] ++ trades res) (Some leftover), add leftover b1)
        else (mkPlace ([] ++ trades res) None, b1)
      else (mkPlace [] (Some order), add order b)
  end.

(** ** The account *)

(** The four state variables [cash], [position], [avgPrice] and [realized] of
    the component; [avgPrice] is [acctAvgPrice] here, [avgPrice] being the
    field of the result of [executeMarket]. *)
Record Account : Type := mkAccount {
  cash : Q;
  position : Q;
  acctAvgPrice : Q;
  realized : Q
}.

(** The body of [for (const f of fills)] in [fillPosition]; the four fields
    are [newCash], [newPos], [newAvg] and [newReal]. *)
Definition applyFill (s : Side) (a : Account) (f : Trade) : Account :=
  let newCash := cash a in
  let newPos := position a in
  let newAvg := acctAvgPrice a in
  let newReal := realized a in
  match s with
  | buy =>
      if Qleb 0 newPos then
        let totalCost := newAvg * newPos + trade_price f * trade_size f in
        let newPos1 := newPos + trade_size f in
        let newAvg1 := if Qltb 0 newPos1 then totalCost / newPos1 else 0 in
        mkAccount (newCash - trade_price f * trade_size f) newPos1 newAvg1
          newReal
      else
        let closeSize := Qmin (trade_size f) (- newPos) in
        let newCash1 := newCash - trade_price f * closeSize in
        let newReal1 := newReal + (newAvg - trade_price f) * closeSize in
        let newPos1 := newPos + closeSize in
        let leftover := trade_size f - closeSize in
        if Qltb 0 leftover then
          let totalCost := trade_price f * leftover in
          let newPos2 := newPos1 + leftover in
          mkAccount (newCash1 - trade_price f * leftover) newPos2
            (totalCost / newPos2) newReal1
        else mkAccount newCash1 newPos1 newAvg newReal1
  | sell =>
      if Qleb newPos 0 then
        if Qltb newPos 0 then
          let totalProceeds :=
            - newAvg * newPos + trade_price f * trade_size f in
          let newPos1 := newPos - trade_size f in
          let newAvg1 :=
            if Qltb newPos1 0 then - totalProceeds / newPos1 else 0 in
          mkAccount (newCash + trade_price f * trade_size f) newPos1 newAvg1
            newReal
        else
          mkAccount (newCash + trade_price f * trade_size f)
            (newPos - trade_size f) (- newAvg) newReal
      else
        let closeSize := Qmin (trade_size f) newPos in
        let newCash1 := newCash + trade_price f * closeSize in
        let newReal1 := newReal + (trade_price f - newAvg) * closeSize in
        let newPos1 := newPos - closeSize in
        let leftover := trade_size f - closeSize in
        if Qltb 0 leftover then
          mkAccount (newCash1 + trade_price f * leftover) (newPos1 - leftover)
            (trade_price f) newReal1
        else mkAccount newCash1 newPos1 newAvg newReal1
  end.

(** [fillPosition(side, fills)]: the account the four setters leave. *)
Definition fillPosition (s : Side) (fills : list Trade) (a : Account)
  : Account :=
  match fills with
  | [] => a
  | _ :: _ =>
      let a' := fold_left (applyFill s) fills a in
      if Qltb (Qabs (position a')) eps8
      then mkAccount (cash a') 0 0 (realized a')
      else a'
  end.

(** ** Notions used in the statements *)

(** The cash a fill moves: out for a buy, in for a sell. *)
Definition cash_flow (s : Side) (f : Trade) : Q :=
  match s with
  | buy => - (trade_price f * trade_size f)
  | sell => trade_price f * trade_size f
  end.

Definition sum_flows (s : Side) (fills : list Trade) : Q :=
  fold_right (fun f acc => cash_flow s f + acc) 0 fills.

(** The batch is on the side of the exposure the account already has. *)
Definition extends_exposure (s : Side) (a : Account) : Prop :=
  match s with
  | buy => 0 <= position a
  | sell => position a <= 0
  end.

(** The part of a batch of total size [total] that closes an exposure of
    size [x] (nothing when [x <= 0]), and the realized PnL it brings when
    every fill of the batch is at price [P]. *)
Definition closed_size (total x : Q) : Q :=
  if Qleb x 0 then 0 else if Qleb total x then total else x.

Definition closing_gain (s : Side) (a : Account) (P total : Q) : Q :=
  match s with
  | buy => (acctAvgPrice a - P) * closed_size total (- position a)
  | sell => (P - acctAvgPrice a) * closed_size total (position a)
  end.

(** [a] is at least as good as [b] for an aggressor of side [s]: the order
    of [priceOrder]. *)
Definition better_eq (s : Side) (a b : Q) : Prop :=
  match s with
  | buy => a <= b
  | sell => b <= a
  end.

(** Size and notional of a list of trades. *)
Definition filled_size (ts : list Trade) : Q :=
  fold_right (fun t acc => trade_size t + acc) 0 ts.
Definition notional_of (ts : list Trade) : Q :=
  fold_right (fun t acc => trade_size t * trade_price t + acc) 0 ts.

(** [consumed_front q q']: [q'] is [q] after orders were taken from its front
    only: some first orders are gone and at most the order that is now first
    has a smaller size; every order behind it is as it was. *)
Inductive consumed_front : list Order -> list Order -> Prop :=
| cf_same (q : list Order) : consumed_front q q
| cf_partial (h : Order) (sz : Q) (q : list Order) :
    sz < size h -> consumed_front (h :: q) (with_size h sz :: q)
| cf_drop (h : Order) (q q' : list Order) :
    consumed_front q q' -> consumed_front (h :: q) q'.

(** [a] is strictly better than [b] for an aggressor of side [s]. *)
Definition better (s : Side) (a b : Q) : Prop :=
  match s with
  | buy => a < b
  | sell => b < a
  end.

(** The best price of the side opposite to [s]: [bestOpp] of
    [placeAndMatch]. *)
Definition bestOpp (s : Side) (b : OrderBook) : option Q :=
  match s with buy => bestAsk b | sell => bestBid b end.

(** A limit order crosses: its price is at least the best ask for a buy, at
    most the best bid for a sell. *)
Definition crosses (o : Order) (b : OrderBook) : Prop :=
  exists opp,
    bestOpp (side o) b = Some opp /\ better_eq (side o) opp (price o).

(** Calls on a book, and the book they leave when made in turn on the empty
    book. *)
Inductive Call : Type :=
| CallAdd (o : Order)
| CallPlaceAndMatch (o : Order) (now : Q).

Definition call (b : OrderBook) (c : Call) : OrderBook :=
  match c with
  | CallAdd o => add o b
  | CallPlaceAndMatch o now => snd (placeAndMatch o now b)
  end.

Definition run (cs : list Call) : OrderBook := fold_left call cs empty_book.

(** A [placeAndMatch] call whose limit price is on the tick grid, as the
    prices [submitOrder] passes are. *)
Definition placed_on_tick (c : Call) : Prop :=
  match c with
  | CallAdd _ => False
  | CallPlaceAndMatch o _ => kind o = limit -> roundTick (price o) == price o
  end.


(** Every bid level is in the order [R] ([<] or [<=]) with every ask
    level. *)
Definition bids_asks (R : Q -> Q -> Prop) (b : OrderBook) : Prop :=
  forall x y,
    InA Qeq x (PriceMap.keys (bids b)) ->
    InA Qeq y (PriceMap.keys (asks b)) -> R x y.

(** [R] between a level of the side of [s] and a level of the other side. *)
Definition side_rel (R : Q -> Q -> Prop) (s : Side) (x y : Q) : Prop :=
  match s with
  | buy => R x y
  | sell => R y x
  end.


(** ** The rest of the module: liquidity, snapshot, order entry, candles *)

(** [rnd(min, max)], for the value [u] that [Math.random()] returns (a
    number of [[0, 1)]). *)
Definition rnd (u min max : Q) : Q := u * (max - min) + min.

(** [clamp(x, a, b)] *)
Definition clamp (x a b : Q) : Q := Qmax a (Qmin b x).

(** What one maker order takes from outside: [genId()], the [Math.random()]
    of its [rnd(1, 20)], and [Date.now()]. *)
Record Draw : Type := mkDraw {
  d_id : string;
  d_u : Q;
  d_time : Q
}.

(** The object literal that [seedAround] pushes. *)
Definition maker (s : Side) (px : Q) (d : Draw) : Order :=
  mkOrder (d_id d) "sim" s px (rnd (d_u d) 1 20) (d_time d) limit.

(** One side of one iteration of [seedAround]: [if (!m.has(px)) m.set(px, [])],
    then [q = m.get(px)!] and [if (q.length < 3) q.push(o)]. *)
Definition seed_level (px : Q) (o : Order) (m : PriceMap.t) : PriceMap.t :=
  let m1 :=
    match PriceMap.get px m with
    | Some _ => m
    | None => PriceMap.set px [] m
    end in
  let q := or_empty (PriceMap.get px m1) in
  if Nat.ltb (length q) 3 then PriceMap.set px (q ++ [o]) m1 else m1.

(** The body of the loop of [seedAround] at [i]; [draws i] is what the bid
    order and the ask order of this iteration take from outside. *)
Definition seed_step (mid : Q) (draws : Z -> Draw * Draw) (i : Z)
    (b : OrderBook) : OrderBook :=
  let bidPx := roundTick (mid - inject_Z i * TICK) in
  let askPx := roundTick (mid + inject_Z i * TICK) in
  mkBook (seed_level bidPx (maker buy bidPx (fst (draws i))) (bids b))
         (seed_level askPx (maker sell askPx (snd (draws i))) (asks b)).

(** [for (let i = 1; i <= depth; i++)], from [i]; the first argument bounds
    the number of iterations. *)
Fixpoint seed_loop (fuel : nat) (mid depth : Q) (draws : Z -> Draw * Draw)
    (i : Z) (b : OrderBook) : OrderBook :=
  match fuel with
  | O => b
  | S fuel' =>
      if Qleb (inject_Z i) depth
      then seed_loop fuel' mid depth draws (i + 1) (seed_step mid draws i b)
      else b
  end.

(** [seedAround(mid, depth, maxQty)]; the loop runs for [i = 1 .. floor depth]
    (lemma [seedAround_steps]).  [maxQty] is not used by the source. *)
Definition seedAround (mid depth maxQty : Q) (draws : Z -> Draw * Draw)
    (b : OrderBook) : OrderBook :=
  seed_loop (Z.to_nat (Qfloor depth)) mid depth draws 1 b.

(** [{ price, size }] of a level of [snapshot]. *)
Record LevelView : Type := mkLevel {
  lv_price : Q;
  lv_size : Q
}.

Record Snapshot : Type := mkSnapshot {
  snap_bids : list LevelView;
  snap_asks : list LevelView
}.

(** [Array.prototype.sort(cmp)] on the entries of a map. *)
Fixpoint entry_insert (cmp : Q * list Order -> Q * list Order -> Q)
    (e : Q * list Order) (l : list (Q * list Order)) : list (Q * list Order) :=
  match l with
  | [] => [e]
  | y :: l' =>
      if Qleb (cmp e y) 0 then e :: y :: l' else y :: entry_insert cmp e l'
  end.

Definition sort_entries (cmp : Q * list Order -> Q * list Order -> Q)
    (l : list (Q * list Order)) : list (Q * list Order) :=
  fold_right (entry_insert cmp) [] l.

(** The integer part that [slice] takes of its argument. *)
Definition Qtrunc (x : Q) : Z := if Qleb 0 x then Qfloor x else Qceiling x.

(** [xs.slice(0, n)]: a negative [n] counts from the end. *)
Definition slice_to {A : Type} (n : Q) (l : list A) : list A :=
  let e := Qtrunc n in
  if (e <? 0)%Z then firstn (Z.to_nat (Z.of_nat (length l) + e)) l
  else firstn (Z.to_nat e) l.

(** [xs.slice(-n)] for a literal [n > 0]: the last [n] elements. *)
Definition slice_last {A : Type} (n : nat) (l : list A) : list A :=
  skipn (length l - n) l.

(** [agg]: [q.reduce((s, o) => s + o.size, 0)]. *)
Definition agg (q : list Order) : Q := fold_left (fun s o => s + size o) q 0.

(** [snapshot(depth)] *)
Definition snapshot (depth : Q) (b : OrderBook) : Snapshot :=
  let sortedBids :=
    slice_to depth (sort_entries (fun x y => fst y - fst x) (bids b)) in
  let sortedAsks :=
    slice_to depth (sort_entries (fun x y => fst x - fst y) (asks b)) in
  mkSnapshot
    (map (fun e => mkLevel (fst e) (agg (snd e))) sortedBids)
    (map (fun e => mkLevel (fst e) (agg (snd e))) sortedAsks).

(** The state the component keeps for order entry: the book, the four account
    variables and the trade tape. *)
Record Sim : Type := mkSim {
  sim_book : OrderBook;
  sim_account : Account;
  sim_trades : list Trade
}.

(** [if (res.trades.length) setTrades((t) => [...t.slice(-100), ...res.trades])] *)
Definition push_trades (tape new : list Trade) : list Trade :=
  match new with
  | [] => tape
  | _ :: _ => slice_last 100 tape ++ new
  end.

(** [submitOrder(side, kind, size, price)].  [now] is [nowRef.current], [mark]
    the mark price and [id0] the result of [genId()].  The account variables
    that [fillPosition] reads are those of the render in which the order is
    entered, taken here as the current ones. *)
Definition submitOrder (now mark : Q) (id0 : string) (s : Side) (k : Kind)
    (sz : Q) (px : option Q) (st : Sim) : Sim :=
  match k with
  | market =>
      let '(res, b1) := executeMarket s sz now (sim_book st) in
      mkSim b1 (fillPosition s (trades res) (sim_account st))
        (push_trades (sim_trades st) (trades res))
  | limit =>
      let p := roundTick (match px with Some p0 => p0 | None => mark end) in
      let order := mkOrder id0 "you" s p sz now limit in
      let '(res, b1) := placeAndMatch order now (sim_book st) in
      mkSim b1 (fillPosition s (p_trades res) (sim_account st))
        (push_trades (sim_trades st) (p_trades res))
  end.

(** [flatten()] *)
Definition flatten (now mark : Q) (id0 : string) (st : Sim) : Sim :=
  let pos := position (sim_account st) in
  if Qeq_bool pos 0 then st
  else submitOrder now mark id0 (if Qltb 0 pos then sell else buy) market
         (Qabs pos) None st.

(** ** Candles and the simulation step *)

(** The type [Candle]. *)
Module Candle.
Record Candle : Type := mkCandle {
  t : Q;
  o : Q;
  h : Q;
  l : Q;
  c : Q;
  v : Q
}.
End Candle.

(** [xs[xs.length - 1]], [undefined] on the empty array. *)
Definition last_opt {A : Type} (xs : list A) : option A :=
  nth_error xs (length xs - 1).




(** [const mark = candles[candles.length - 1]?.c ?? 1.0] *)
Definition mark_of (cs : list Candle.Candle) : Q :=
  match last_opt cs with
  | Some last => Candle.c last
  | None => 1
  end.

(** The function that [step] hands to [setCandles]; [u1], [u2], [u3] are the
    values of [Math.random()] in the order of the calls (the second branch
    takes one).  The second branch writes to the object [last] and returns
    the array with a copy of it in the last place; the model returns that
    array. *)
Definition updateCandles (now px u1 u2 u3 : Q) (cs : list Candle.Candle)
  : list Candle.Candle :=
  let fresh (o : Q) :=
    let c := px in
    let h := Math_max o [c] + rnd u1 0 (1 # 100) in
    let l := Math_min o [c] - rnd u2 0 (1 # 100) in
    let v := rnd u3 5 25 in
    slice_last 199 cs ++ [Candle.mkCandle now o h l c v] in
  match last_opt cs with
  | None => fresh px
  | Some last =>
      if Qleb (1000 - 1) (now - Candle.t last) then fresh (Candle.c last)
      else
        let h := Math_max (Candle.h last) [px] in
        let l := Math_min (Candle.l last) [px] in
        let v := Candle.v last + rnd u1 0 3 in
        slice_to (-1) cs
        ++ [Candle.mkCandle (Candle.t last) (Candle.o last) h l px v]
  end.

(** The price [px] that [step] gives the candle: the price of the last trade
    of [tape], else the rounded middle of the best prices when both are there
    and neither is 0, else the mark price.  [mark] and [tape] are those of
    the render whose [step] is running. *)
Definition refPrice (mark : Q) (tape : list Trade) (b : OrderBook) : Q :=
  match last_opt tape with
  | Some tr => trade_price tr
  | None =>
      match bestBid b, bestAsk b with
      | Some bb, Some ba =>
          if negb (Qeq_bool bb 0) && negb (Qeq_bool ba 0)
          then roundTick ((bb + ba) / 2)
          else mark
      | _, _ => mark
      end
  end.

(** The state of the component: what order entry uses, and the candles. *)
Record World : Type := mkWorld {
  w_sim : Sim;
  w_candles : list Candle.Candle
}.

(** The values of [Math.random()] and [genId()] that one [step] takes. *)
Record StepDraw : Type := mkStepDraw {
  s_flow : Q;
  s_side : Q;
  s_size : Q;
  s_makers : Z -> Draw * Draw;
  s_u1 : Q;
  s_u2 : Q;
  s_u3 : Q
}.

(** [step()]; [now] is [Date.now()], [mark] and [tape] are the mark price and
    the trades of the render whose [step] is running. *)
Definition step (now mark : Q) (tape : list Trade) (r : StepDraw) (w : World)
  : World :=
  let st := w_sim w in
  let '(b1, tape1) :=
    if Qltb (s_flow r) (7 # 10) then
      let side := if Qltb (s_side r) (1 # 2) then buy else sell in
      let size := rnd (s_size r) (1 # 2) 12 in
      let '(res, b1) := executeMarket side size now (sim_book st) in
      (b1, push_trades (sim_trades st) (trades res))
    else (sim_book st, sim_trades st) in
  let mid := mark in
  let b2 := seedAround mid 30 20 (s_makers r) b1 in
  let px := refPrice mark tape b2 in
  mkWorld (mkSim b2 (sim_account st) tape1)
    (updateCandles now px (s_u1 r) (s_u2 r) (s_u3 r) (w_candles w)).



(** ** Notions used in the statements about the rest of the module *)

(** A queue that a level may hold: not empty, every order of positive
    size. *)
Definition queue_ok (q : list Order) : Prop :=
  q <> [] /\ Forall (fun o => 0 < size o) q.

(** A side that holds each price once, with a queue as above at each. *)
Definition side_ok (m : PriceMap.t) : Prop :=
  PriceMap.wf m /\ Forall (fun kq => queue_ok (snd kq)) m.

Definition book_ok (b : OrderBook) : Prop :=
  side_ok (bids b) /\ side_ok (asks b).

(** Operations on a book, made in turn on the empty book. *)
Inductive Op : Type :=
| OpAdd (o : Order)
| OpPlaceAndMatch (o : Order) (now : Q)
| OpExecuteMarket (s : Side) (sz now : Q)
| OpSeedAround (mid depth maxQty : Q) (draws : Z -> Draw * Draw).

Definition apply_op (b : OrderBook) (op : Op) : OrderBook :=
  match op with
  | OpAdd o => add o b
  | OpPlaceAndMatch o now => snd (placeAndMatch o now b)
  | OpExecuteMarket s sz now => snd (executeMarket s sz now b)
  | OpSeedAround mid depth maxQty draws => seedAround mid depth maxQty draws b
  end.

Definition run_ops (ops : list Op) : OrderBook :=
  fold_left apply_op ops empty_book.

(** The orders that an operation brings have a positive size, and its draws
    of [Math.random()] are not negative. *)
Definition op_sized (op : Op) : Prop :=
  match op with
  | OpAdd o => 0 < size o
  | OpPlaceAndMatch o _ => 0 < size o
  | OpExecuteMarket _ _ _ => True
  | OpSeedAround _ _ _ draws =>
      forall i, 0 <= d_u (fst (draws i)) /\ 0 <= d_u (snd (draws i))
  end.

(** A queue after [if (q.length < 3) q.push(o)]. *)
Definition topped_up (q : list Order) (o : Order) : list Order :=
  if Nat.ltb (length q) 3 then q ++ [o] else q.

(** The loop of [seedAround] as one side of the book sees it: [lv i] is the
    level and the order of iteration [i] on that side. *)
Fixpoint seed_side (fuel : nat) (depth : Q) (lv : Z -> Q * Order) (i : Z)
    (m : PriceMap.t) : PriceMap.t :=
  match fuel with
  | O => m
  | S fuel' =>
      if Qleb (inject_Z i) depth
      then seed_side fuel' depth lv (i + 1)
             (seed_level (fst (lv i)) (snd (lv i)) m)
      else m
  end.

(** The bid level and the ask level of iteration [i], with their orders. *)
Definition bid_seed (mid : Q) (draws : Z -> Draw * Draw) (i : Z) : Q * Order :=
  (roundTick (mid - inject_Z i * TICK),
   maker buy (roundTick (mid - inject_Z i * TICK)) (fst (draws i))).

Definition ask_seed (mid : Q) (draws : Z -> Draw * Draw) (i : Z) : Q * Order :=
  (roundTick (mid + inject_Z i * TICK),
   maker sell (roundTick (mid + inject_Z i * TICK)) (snd (draws i))).


(** The size a fill adds to the position, and the sum over a batch. *)
Definition signed_size (s : Side) (f : Trade) : Q :=
  match s with
  | buy => trade_size f
  | sell => - trade_size f
  end.

Definition net_size (s : Side) (fills : list Trade) : Q :=
  fold_right (fun f acc => signed_size s f + acc) 0 fills.


(** A bar whose low and high enclose its open and its close. *)
Definition bar_ok (b : Candle.Candle) : Prop :=
  Candle.l b <= Candle.o b /\ Candle.l b <= Candle.c b /\
  Candle.o b <= Candle.h b /\ Candle.c b <= Candle.h b.

(** Each bar opens at the close of the bar before it. *)
Fixpoint chained (p : Q) (cs : list Candle.Candle) : Prop :=
  match cs with
  | [] => True
  | b :: cs' => Candle.o b == p /\ chained (Candle.c b) cs'
  end.



(** The close of the last bar of [cs], [p] when there is none. *)
Definition last_close (p : Q) (cs : list Candle.Candle) : Q :=
  fold_left (fun _ b => Candle.c b) cs p.

(** The batch only closes exposure: it is on the other side of the position
    and no larger than it. *)
Definition closes_only (s : Side) (a : Account) (fills : list Trade) : Prop :=
  match s with
  | buy => position a <= 0 /\ filled_size fills <= - position a
  | sell => 0 <= position a /\ filled_size fills <= position a
  end.

(** What a batch realizes when every fill of it closes exposure held at the
    average price [avg]. *)
Definition closing_flow (s : Side) (avg : Q) (fills : list Trade) : Q :=
  fold_right
    (fun f acc =>
       match s with
       | buy => (avg - trade_price f) * trade_size f
       | sell => (trade_price f - avg) * trade_size f
       end + acc) 0 fills.

(** ** The same functions on binary64 numbers *)

(** The functions of the book and of the account once more, with [number]
    as the IEEE 754 binary64 type of the language ([PrimFloat.float]: with
    rounding, [NaN], infinities and signed zeros), definition by definition
    as above.  Most theorems are stated over the exact model; this one is
    evaluated, where a statement depends on rounding or on [NaN], to show
    what the program computes there, and the order of the best prices and
    the result on an empty side are proved over it. *)
Module Double.
Import PrimFloat.
Local Open Scope float_scope.

Definition eps7 : float := 1e-7.
Definition eps8 : float := 1e-8.

(** [Math.floor x]: below 2^52 in magnitude, [x] plus and minus 2^52 is [x]
    rounded to an integer, which is the floor or one more; from 2^52 on
    every number is an integer. *)
Definition two52 : float := 4503599627370496.
Definition Math_floor (x : float) : float :=
  if abs x <? two52 then
    let r := if x <? 0 then (x - two52) + two52 else (x + two52) - two52 in
    if x <? r then r - 1 else r
  else x.

(** [Math.round x]: the integer nearest to [x], halves rounded up; [-0] for
    an [x] from -0.5 to [-0]. *)
Definition Math_round (x : float) : float :=
  let f := Math_floor x in
  let r := if 0.5 <=? x - f then f + 1 else f in
  if (r =? 0) && ((x <? 0) || get_sign x) then neg_zero else r.

(** [Math.min(a, b)] and [Math.max(a, b)]: [NaN] when an argument is, and
    [-0] below [+0]. *)
Definition Math_min (a b : float) : float :=
  if is_nan a || is_nan b then nan
  else if a <? b then a
  else if b <? a then b
  else if get_sign a then a else b.

Definition Math_max (a b : float) : float :=
  if is_nan a || is_nan b then nan
  else if a <? b then b
  else if b <? a then a
  else if get_sign a then b else a.

Definition TICK : float := 0.01.
Definition roundTick (p : float) : float := Math_round (p / TICK) * TICK.

Record Order : Type := mkOrder {
  id : string;
  userId : string;
  side : Side;
  price : float;
  size : float;
  time : float;
  kind : Kind
}.

Record Trade : Type := mkTrade {
  trade_time : float;
  trade_price : float;
  trade_size : float;
  takerSide : Side
}.

Definition with_price (o : Order) (px : float) : Order :=
  mkOrder (id o) (userId o) (side o) px (size o) (time o) (kind o).
Definition with_size (o : Order) (s : float) : Order :=
  mkOrder (id o) (userId o) (side o) (price o) s (time o) (kind o).

(** The keys of a [Map] are compared by SameValueZero: as [===], but [NaN]
    is the same key as [NaN]. *)
Definition same_key (x y : float) : bool :=
  (x =? y) || (is_nan x && is_nan y).

Definition PriceMap : Type := list (float * list Order).

Fixpoint get (px : float) (m : PriceMap) : option (list Order) :=
  match m with
  | [] => None
  | (k, q) :: m' => if same_key px k then Some q else get px m'
  end.

(** A new key [-0] is stored as [+0]. *)
Definition key_of (px : float) : float := if px =? 0 then 0 else px.

Fixpoint set (px : float) (q : list Order) (m : PriceMap) : PriceMap :=
  match m with
  | [] => [(key_of px, q)]
  | (k, q0) :: m' =>
      if same_key px k then (k, q) :: m' else (k, q0) :: set px q m'
  end.

Fixpoint delete (px : float) (m : PriceMap) : PriceMap :=
  match m with
  | [] => []
  | (k, q) :: m' =>
      if same_key px k then delete px m' else (k, q) :: delete px m'
  end.

Definition keys (m : PriceMap) : list float := map fst m.

(** The resting size of a side, summed level by level and order by order. *)
Definition total_size (m : PriceMap) : float :=
  fold_left (fun acc kq => fold_left (fun acc' o => acc' + size o) (snd kq) acc)
    m 0.

Record OrderBook : Type := mkBook {
  bids : PriceMap;
  asks : PriceMap
}.

Definition empty_book : OrderBook := mkBook [] [].

Definition or_empty (o : option (list Order)) : list Order :=
  match o with Some q => q | None => [] end.

Definition add (order : Order) (b : OrderBook) : OrderBook :=
  let book := match side order with buy => bids b | sell => asks b end in
  let px := roundTick (price order) in
  let q := or_empty (get px book) in
  let q' := q ++ [with_price order px] in
  let book' := set px q' book in
  match side order with
  | buy => mkBook book' (asks b)
  | sell => mkBook (bids b) book'
  end.

Definition bestBid (b : OrderBook) : option float :=
  match keys (bids b) with
  | [] => None
  | k :: ks => Some (fold_left Math_max ks k)
  end.

Definition bestAsk (b : OrderBook) : option float :=
  match keys (asks b) with
  | [] => None
  | k :: ks => Some (fold_left Math_min ks k)
  end.

Definition priceOrder (s : Side) (a b : float) : float :=
  match s with buy => a - b | sell => b - a end.

Fixpoint sort_insert (cmp : float -> float -> float) (x : float)
    (l : list float) : list float :=
  match l with
  | [] => [x]
  | y :: l' =>
      if cmp x y <=? 0 then x :: y :: l' else y :: sort_insert cmp x l'
  end.

Definition sort (cmp : float -> float -> float) (l : list float)
  : list float :=
  fold_right (sort_insert cmp) [] l.

Record MatchState : Type := mkMatch {
  m_book : PriceMap;
  m_remain : float;
  m_notional : float;
  m_trades : list Trade
}.

Record QueueState : Type := mkQueue {
  q_queue : list Order;
  q_remain : float;
  q_notional : float;
  q_trades : list Trade
}.

(** The inner loop.  A pass either takes the head out of the queue or leaves
    [remain] at 0 or at [NaN], so the passes are at most one more than the
    orders of the queue. *)
Fixpoint match_queue (fuel : nat) (s : Side) (now px : float)
    (st : QueueState) : QueueState :=
  match fuel with
  | O => st
  | S fuel' =>
      match q_queue st with
      | [] => st
      | head :: rest =>
          if 0 <? q_remain st then
            let tradeSize := Math_min (q_remain st) (size head) in
            let head' := with_size head (size head - tradeSize) in
            let remain' := q_remain st - tradeSize in
            let notional' := q_notional st + tradeSize * px in
            let trades' := q_trades st ++ [mkTrade now px tradeSize s] in
            if size head' <=? eps7
            then match_queue fuel' s now px
                   (mkQueue rest remain' notional' trades')
            else match_queue fuel' s now px
                   (mkQueue (head' :: rest) remain' notional' trades')
          else st
      end
  end.

Definition match_level (s : Side) (now px : float) (st : MatchState)
  : MatchState :=
  let queue := or_empty (get px (m_book st)) in
  let r := match_queue (S (length queue)) s now px
             (mkQueue queue (m_remain st) (m_notional st) (m_trades st)) in
  let book' :=
    match q_queue r with
    | [] => delete px (m_book st)
    | _ :: _ => set px (q_queue r) (m_book st)
    end in
  mkMatch book' (q_remain r) (q_notional r) (q_trades r).

Fixpoint match_levels (s : Side) (now : float) (levels : list float)
    (st : MatchState) : MatchState :=
  match levels with
  | [] => st
  | px :: levels' =>
      if m_remain st <=? 0 then st
      else match_levels s now levels' (match_level s now px st)
  end.

Record ExecResult : Type := mkExec {
  trades : list Trade;
  avgPrice : float;
  filled : float
}.

Definition executeMarket (s : Side) (sz now : float) (b : OrderBook)
  : ExecResult * OrderBook :=
  let book := match s with buy => asks b | sell => bids b end in
  let levels := sort (priceOrder s) (keys book) in
  let st := match_levels s now levels (mkMatch book sz 0 []) in
  let filled := sz - m_remain st in
  let avgPrice := if 0 <? filled then m_notional st / filled else 0 in
  (mkExec (m_trades st) avgPrice filled,
   match s with
   | buy => mkBook (bids b) (m_book st)
   | sell => mkBook (m_book st) (asks b)
   end).

Record PlaceResult : Type := mkPlace {
  p_trades : list Trade;
  remaining : option Order
}.

Definition placeAndMatch (order : Order) (now : float) (b : OrderBook)
  : PlaceResult * OrderBook :=
  match kind order with
  | market =>
      let '(res, b1) := executeMarket (side order) (size order) now b in
      (mkPlace ([] ++ trades res) None, b1)
  | limit =>
      let bestOpp :=
        match side order with buy => bestAsk b | sell => bestBid b end in
      let crosses :=
        match bestOpp with
        | None => false
        | Some opp =>
            match side order with
            | buy => opp <=? price order
            | sell => price order <=? opp
            end
        end in
      if crosses then
        let '(res, b1) := executeMarket (side order) (size order) now b in
        let remainingSize := size order - filled res in
        if eps8 <? remainingSize then
          let leftover := with_size order remainingSize in
          (mkPlace ([] ++ trades res) (Some leftover), add leftover b1)
        else (mkPlace ([] ++ trades res) None, b1)
      else (mkPlace [] (Some order), add order b)
  end.

Record Account : Type := mkAccount {
  cash : float;
  position : float;
  acctAvgPrice : float;
  realized : float
}.

Definition applyFill (s : Side) (a : Account) (f : Trade) : Account :=
  let newCash := cash a in
  let newPos := position a in
  let newAvg := acctAvgPrice a in
  let newReal := realized a in
  match s with
  | buy =>
      if 0 <=? newPos then
        let totalCost := newAvg * newPos + trade_price f * trade_size f in
        let newPos1 := newPos + trade_size f in
        let newAvg1 := if 0 <? newPos1 then totalCost / newPos1 else 0 in
        mkAccount (newCash - trade_price f * trade_size f) newPos1 newAvg1
          newReal
      else
        let closeSize := Math_min (trade_size f) (- newPos) in
        let newCash1 := newCash - trade_price f * closeSize in
        let newReal1 := newReal + (newAvg - trade_price f) * closeSize in
        let newPos1 := newPos + closeSize in
        let leftover := trade_size f - closeSize in
        if 0 <? leftover then
          let totalCost := trade_price f * leftover in
          let newPos2 := newPos1 + leftover in
          mkAccount (newCash1 - trade_price f * leftover) newPos2
            (totalCost / newPos2) newReal1
        else mkAccount newCash1 newPos1 newAvg newReal1
  | sell =>
      if newPos <=? 0 then
        if newPos <? 0 then
          let totalProceeds :=
            - newAvg * newPos + trade_price f * trade_size f in
          let newPos1 := newPos - trade_size f in
          let newAvg1 :=
            if newPos1 <? 0 then - totalProceeds / newPos1 else 0 in
          mkAccount (newCash + trade_price f * trade_size f) newPos1 newAvg1
            newReal
        else
          mkAccount (newCash + trade_price f * trade_size f)
            (newPos - trade_size f) (- newAvg) newReal
      else
        let closeSize := Math_min (trade_size f) newPos in
        let newCash1 := newCash + trade_price f * closeSize in
        let newReal1 := newReal + (trade_price f - newAvg) * closeSize in
        let newPos1 := newPos - closeSize in
        let leftover := trade_size f - closeSize in
        if 0 <? leftover then
          mkAccount (newCash1 + trade_price f * leftover) (newPos1 - leftover)
            (trade_price f) newReal1
        else mkAccount newCash1 newPos1 newAvg newReal1
  end.

Definition fillPosition (s : Side) (fills : list Trade) (a : Account)
  : Account :=
  match fills with
  | [] => a
  | _ :: _ =>
      let a' := fold_left (applyFill s) fills a in
      if abs (position a') <? eps8
      then mkAccount (cash a') 0 0 (realized a')
      else a'
  end.

(** Whether [roundTick] returns [n * TICK] at [n * TICK], for the [count]
    integers from [n0] on. *)
Definition keys_fixed_from (n0 : float) (count : Z) : bool :=
  snd (Z.iter count
         (fun st : float * bool =>
            let n := fst st in
            (n + 1, snd st && (roundTick (n * TICK) =? n * TICK)))
         (n0, true)).

(** A sequence of [placeAndMatch] calls on a new book, each with its order
    and its time. *)
Definition run (cs : list (Order * float)) : OrderBook :=
  fold_left (fun b c => snd (placeAndMatch (fst c) (snd c) b)) cs empty_book.




End Double.

(** ** The order of the binary64 numbers *)

Module FloatOrder.
Import SpecFloat.
Local Open Scope Z_scope.

(** The place of a number that is not [NaN] in the order: the class (from
    [-Infinity] to [Infinity]), then exponent and mantissa, with the sign. *)
Definition r1 (x : spec_float) : Z :=
  match x with
  | S754_nan => 0
  | S754_zero _ => 0
  | S754_infinity true => -2
  | S754_infinity false => 2
  | S754_finite true _ _ => -1
  | S754_finite false _ _ => 1
  end.

Definition r2 (x : spec_float) : Z :=
  match x with
  | S754_finite true _ e => - e
  | S754_finite false _ e => e
  | _ => 0
  end.

Definition r3 (x : spec_float) : Z :=
  match x with
  | S754_finite true m _ => Zneg m
  | S754_finite false m _ => Zpos m
  | _ => 0
  end.

(** The order and the equality of two places. *)
Definition lt3 (x y : spec_float) : Prop :=
  r1 x < r1 y \/
  (r1 x = r1 y /\ (r2 x < r2 y \/ (r2 x = r2 y /\ r3 x < r3 y))).

Definition eq3 (x y : spec_float) : Prop :=
  r1 x = r1 y /\ r2 x = r2 y /\ r3 x = r3 y.

(** A number as its sign, mantissa and exponent. *)
Definition SF (x : PrimFloat.float) : spec_float := FloatOps.Prim2SF x.

(** Not [NaN]. *)
Definition num (x : PrimFloat.float) : Prop := SF x <> S754_nan.

(** [NaN] or a zero. *)
Definition nan_or_zero (x : spec_float) : Prop :=
  match x with
  | S754_nan | S754_zero _ => True
  | _ => False
  end.

End FloatOrder.

(** * Properties *)

(** ** Comparisons *)

Lemma Qleb_reflect (a b : Q) : reflect (a <= b) (Qleb a b).
Proof.
  unfold Qleb. destruct (Qle_bool a b) eqn:E; constructor.
  - now apply Qle_bool_iff.
  - intro H. apply Qle_bool_iff in H. congruence.
Qed.

Lemma Qltb_reflect (a b : Q) : reflect (a < b) (Qltb a b).
Proof.
  unfold Qltb. destruct (Qle_bool b a) eqn:E; constructor; simpl.
  - apply Qle_bool_iff in E. lra.
  - apply Qnot_le_lt. intro H. apply Qle_bool_iff in H. congruence.
Qed.

(** Case analysis on every [<=] test of the goal, leaving the facts in the
    context. *)
Ltac split_tests :=
  repeat match goal with
  | |- context [Qleb ?x ?y] => destruct (Qleb_reflect x y)
  end.

Lemma Qmin_cases (a b : Q) :
  (a <= b /\ Qmin a b == a) \/ (b <= a /\ Qmin a b == b).
Proof.
  destruct (Q.min_spec a b) as [[H E] | [H E]]; [left | right]; split;
    trivial; lra.
Qed.

Lemma Qabs_cases (a : Q) :
  (0 <= a /\ Qabs a == a) \/ (a <= 0 /\ Qabs a == - a).
Proof.
  destruct (Qlt_le_dec a 0) as [H | H]; [right | left]; split; try lra.
  - apply Qabs_neg. lra.
  - now apply Qabs_pos.
Qed.

(** ** The account *)

Lemma applyFill_cash (s : Side) (a : Account) (f : Trade) :
  cash (applyFill s a f) == cash a + cash_flow s f.
Proof.
  unfold applyFill, cash_flow. destruct s.
  - destruct (Qleb_reflect 0 (position a)); simpl; [ring |].
    set (c := Qmin (trade_size f) (- position a)).
    destruct (Qltb_reflect 0 (trade_size f - c)); simpl; [ring |].
    assert (Hc : c == trade_size f).
    { pose proof (Q.le_min_l (trade_size f) (- position a)).
      fold c in H. lra. }
    rewrite Hc. ring.
  - destruct (Qleb_reflect (position a) 0); simpl.
    + destruct (Qltb_reflect (position a) 0); simpl; ring.
    + set (c := Qmin (trade_size f) (position a)).
      destruct (Qltb_reflect 0 (trade_size f - c)); simpl; [ring |].
      assert (Hc : c == trade_size f).
      { pose proof (Q.le_min_l (trade_size f) (position a)).
        fold c in H. lra. }
      rewrite Hc. ring.
Qed.

Lemma fold_applyFill_cash (s : Side) (fills : list Trade) (a : Account) :
  cash (fold_left (applyFill s) fills a) == cash a + sum_flows s fills.
Proof.
  revert a. induction fills as [| f fills IH]; intro a; simpl.
  - ring.
  - rewrite IH, applyFill_cash. ring.
Qed.

Lemma fillPosition_cash (s : Side) (fills : list Trade) (a : Account) :
  cash (fillPosition s fills a) == cash a + sum_flows s fills.
Proof.
  unfold fillPosition. destruct fills as [| f fills].
  - simpl. ring.
  - pose proof (fold_applyFill_cash s (f :: fills) a) as H.
    destruct (Qltb _ eps8); exact H.
Qed.

Lemma sum_flows_perm (s : Side) (l l' : list Trade) :
  Permutation l l' -> sum_flows s l == sum_flows s l'.
Proof.
  induction 1; simpl.
  - reflexivity.
  - now rewrite IHPermutation.
  - ring.
  - now rewrite IHPermutation1.
Qed.

(** A fill on the side of the exposure leaves [realized] as it is and the
    exposure on its side. *)
Lemma applyFill_extends (s : Side) (a : Account) (f : Trade) :
  extends_exposure s a -> 0 <= trade_size f ->
  realized (applyFill s a f) = realized a /\
  extends_exposure s (applyFill s a f).
Proof.
  unfold extends_exposure, applyFill. destruct s; intros Hp Hs.
  - destruct (Qleb_reflect 0 (position a)); [| contradiction].
    simpl. split; [reflexivity | lra].
  - destruct (Qleb_reflect (position a) 0); [| contradiction].
    destruct (Qltb_reflect (position a) 0); simpl;
      (split; [reflexivity | lra]).
Qed.

Lemma fold_applyFill_extends (s : Side) (fills : list Trade) (a : Account) :
  extends_exposure s a -> Forall (fun f => 0 <= trade_size f) fills ->
  realized (fold_left (applyFill s) fills a) = realized a.
Proof.
  revert a. induction fills as [| f fills IH]; intros a Hp Hs; simpl.
  - reflexivity.
  - inversion Hs; subst.
    destruct (applyFill_extends s a f Hp) as [Hr Hp']; trivial.
    rewrite IH; trivial.
Qed.

Lemma fillPosition_extends (s : Side) (fills : list Trade) (a : Account) :
  extends_exposure s a -> Forall (fun f => 0 <= trade_size f) fills ->
  realized (fillPosition s fills a) = realized a.
Proof.
  intros Hp Hs. unfold fillPosition. destruct fills as [| f fills].
  - reflexivity.
  - pose proof (fold_applyFill_extends s (f :: fills) a Hp Hs) as H.
    destruct (Qltb _ eps8); exact H.
Qed.

(** Fills at one price [P]: the realized PnL moves by what the batch closes
    of the exposure, whatever the order of the fills. *)
Lemma filled_size_nonneg (fills : list Trade) :
  Forall (fun f => 0 <= trade_size f) fills -> 0 <= filled_size fills.
Proof.
  induction 1 as [| f fills Hf _ IH]; simpl; [lra |].
  fold (filled_size fills). lra.
Qed.

Lemma filled_size_perm (l l' : list Trade) :
  Permutation l l' -> filled_size l == filled_size l'.
Proof.
  induction 1; simpl.
  - reflexivity.
  - fold (filled_size l) (filled_size l'). now rewrite IHPermutation.
  - ring.
  - now rewrite IHPermutation1.
Qed.

Lemma closed_size_comp (t t' x : Q) :
  t == t' -> closed_size t x == closed_size t' x.
Proof.
  intro H. unfold closed_size.
  destruct (Qleb_reflect x 0); [reflexivity |].
  destruct (Qleb_reflect t x), (Qleb_reflect t' x); lra.
Qed.

Lemma gain_sum (r t t' X Y Z : Q) :
  X + Y == Z -> (t' == t \/ Y == 0) -> r + t * X + t' * Y == r + t * Z.
Proof.
  intros H [E | E]; rewrite <- H, E; ring.
Qed.

Lemma applyFill_same_price (s : Side) (a : Account) (f : Trade) (P rest : Q) :
  trade_price f == P -> 0 <= trade_size f -> 0 <= rest ->
  realized (applyFill s a f) + closing_gain s (applyFill s a f) P rest
  == realized a + closing_gain s a P (trade_size f + rest).
Proof.
  intros HP Hs Hr. unfold closing_gain, applyFill, closed_size. destruct s.
  - destruct (Qleb_reflect 0 (position a)) as [Hp | Hp];
      cbn [realized position acctAvgPrice].
    + destruct (Qleb_reflect (- (position a + trade_size f)) 0); [| lra].
      destruct (Qleb_reflect (- position a) 0); [| lra]. ring.
    + destruct (Qleb_reflect (- position a) 0); [lra |].
      destruct (Qmin_cases (trade_size f) (- position a))
        as [[Hc E] | [Hc E]];
        (destruct (Qltb_reflect 0
                     (trade_size f - Qmin (trade_size f) (- position a)))
           as [Hl | Hl]; rewrite E in Hl; try lra);
        cbn [realized position acctAvgPrice];
        split_tests;
        rewrite ?E in *; rewrite HP; apply gain_sum;
        first [lra | now left | right; lra].
  - destruct (Qleb_reflect (position a) 0) as [Hp | Hp].
    + destruct (Qltb_reflect (position a) 0) as [Hn | Hn];
        cbn [realized position acctAvgPrice];
        (destruct (Qleb_reflect (position a - trade_size f) 0); [| lra]);
        (destruct (Qleb_reflect (position a) 0); [| lra]); ring.
    + destruct (Qleb_reflect (position a) 0); [lra |].
      destruct (Qmin_cases (trade_size f) (position a))
        as [[Hc E] | [Hc E]];
        (destruct (Qltb_reflect 0
                     (trade_size f - Qmin (trade_size f) (position a)))
           as [Hl | Hl]; rewrite E in Hl; try lra);
        cbn [realized position acctAvgPrice];
        split_tests;
        rewrite ?E in *; rewrite HP; apply gain_sum;
        first [lra | now left | right; lra].
Qed.

Lemma fold_applyFill_same_price (s : Side) (fills : list Trade) (a : Account)
    (P : Q) :
  Forall (fun f => trade_price f == P /\ 0 <= trade_size f) fills ->
  realized (fold_left (applyFill s) fills a)
  == realized a + closing_gain s a P (filled_size fills).
Proof.
  revert a. induction fills as [| f fills IH]; intros a H.
  - simpl. unfold closing_gain, closed_size.
    destruct s; split_tests; try ring; lra.
  - inversion H as [| f' fills' [HP Hs] Hrest]; subst.
    cbn [fold_left filled_size fold_right]. fold (filled_size fills).
    rewrite (IH _ Hrest). apply applyFill_same_price; trivial.
    apply filled_size_nonneg.
    eapply Forall_impl; [| exact Hrest]. now intros t [_ Ht].
Qed.

Lemma fillPosition_same_price (s : Side) (fills : list Trade) (a : Account)
    (P : Q) :
  Forall (fun f => trade_price f == P /\ 0 <= trade_size f) fills ->
  realized (fillPosition s fills a)
  == realized a + closing_gain s a P (filled_size fills).
Proof.
  intro H. pose proof (fold_applyFill_same_price s fills a P H) as E.
  unfold fillPosition. destruct fills as [| f fills]; [exact E |].
  destruct (Qltb _ eps8); exact E.
Qed.

(** C7.  Flip: long 5 at 10, one sell fill of 8 at 12. *)
Theorem fillPosition_flip (c r t : Q) (ts : Side) :
  let a' := fillPosition sell [mkTrade t 12 8 ts] (mkAccount c 5 10 r) in
  position a' == -3 /\ acctAvgPrice a' == 12 /\ realized a' == r + 10.
Proof.
  cbv zeta. unfold fillPosition, applyFill. simpl.
  repeat split; try reflexivity; ring.
Qed.

(** C1, as the code has it.  From a flat account, one fill of price [p > 0]
    and size [s >= 1e-8] opens a position of size [s].  A buy fill gives
    [position = s] and an average entry price of [p] (it is [(p * s) / s],
    taken exactly here).  A sell fill gives
    [position = - s], but its average entry price is the negated former one,
    that is 0, and not [p]: the branch for a sell at position 0 sets
    [newAvg = -newAvg], where the branch for a buy and the branch for a sell
    on a short position work the fill price in.  A fill of size below 1e-8
    leaves the account flat, with an average of 0. *)
Theorem fillPosition_opens_from_flat (a : Account) (f : Trade) :
  position a == 0 -> acctAvgPrice a == 0 ->
  0 < trade_price f -> 0 < trade_size f ->
  (eps8 <= trade_size f ->
   (position (fillPosition buy [f] a) == trade_size f /\
    acctAvgPrice (fillPosition buy [f] a) == trade_price f) /\
   (position (fillPosition sell [f] a) == - trade_size f /\
    acctAvgPrice (fillPosition sell [f] a) == 0 /\
    ~ acctAvgPrice (fillPosition sell [f] a) == trade_price f)) /\
  (trade_size f < eps8 ->
   forall s,
     position (fillPosition s [f] a) == 0 /\
     acctAvgPrice (fillPosition s [f] a) == 0).
Proof.
  intros Hpos Havg Hp Hsz.
  assert (H8 : 0 < eps8) by reflexivity.
  split.
  - intro Hs. unfold fillPosition, applyFill. cbn [fold_left]. split.
    + destruct (Qleb_reflect 0 (position a)); [| lra]. cbn [position].
      destruct (Qltb_reflect 0 (position a + trade_size f)); [| lra].
      destruct (Qltb_reflect (Qabs (position a + trade_size f)) eps8)
        as [Habs | Habs].
      * destruct (Qabs_cases (position a + trade_size f)) as [[? E] | [? E]];
          rewrite E in Habs; lra.
      * cbn [position acctAvgPrice]. split; [lra |].
        rewrite Hpos, Havg. field. lra.
    + destruct (Qleb_reflect (position a) 0); [| lra].
      destruct (Qltb_reflect (position a) 0); [lra |]. cbn [position].
      destruct (Qltb_reflect (Qabs (position a - trade_size f)) eps8)
        as [Habs | Habs].
      * destruct (Qabs_cases (position a - trade_size f)) as [[? E] | [? E]];
          rewrite E in Habs; lra.
      * cbn [position acctAvgPrice]. split; [lra |]. split; lra.
  - intros Hs s. unfold fillPosition, applyFill. cbn [fold_left].
    destruct s.
    + destruct (Qleb_reflect 0 (position a)); [| lra]. cbn [position].
      destruct (Qltb_reflect (Qabs (position a + trade_size f)) eps8)
        as [Habs | Habs]; [split; reflexivity |].
      exfalso. apply Habs.
      destruct (Qabs_cases (position a + trade_size f)) as [[? E] | [? E]];
        rewrite E; lra.
    + destruct (Qleb_reflect (position a) 0); [| lra].
      destruct (Qltb_reflect (position a) 0); [lra |]. cbn [position].
      destruct (Qltb_reflect (Qabs (position a - trade_size f)) eps8)
        as [Habs | Habs]; [split; reflexivity |].
      exfalso. apply Habs.
      destruct (Qabs_cases (position a - trade_size f)) as [[? E] | [? E]];
        rewrite E; lra.
Qed.

Lemma fillPosition_opens_from_flat_witness :
  (position (fillPosition buy [mkTrade 0 12 8 buy] (mkAccount 100 0 0 0))
     == 8 /\
   acctAvgPrice (fillPosition buy [mkTrade 0 12 8 buy] (mkAccount 100 0 0 0))
     == 12) /\
  (position (fillPosition sell [mkTrade 0 12 8 buy] (mkAccount 100 0 0 0))
     == - (8) /\
   acctAvgPrice (fillPosition sell [mkTrade 0 12 8 buy] (mkAccount 100 0 0 0))
     == 0 /\
   ~ acctAvgPrice
       (fillPosition sell [mkTrade 0 12 8 buy] (mkAccount 100 0 0 0))
     == 12).
Proof.
  apply (fillPosition_opens_from_flat (mkAccount 100 0 0 0)
           (mkTrade 0 12 8 buy)); simpl; unfold eps8; try reflexivity; lra.
Defined.

(** C1 at its failing input.  A sell fill of 8 at 12 on a flat account
    leaves a position of -8 with an average entry price of 0, not 12 (in
    binary64 the average is [-0]); and a buy fill of size 1e-9 leaves the
    account flat.  In binary64 the average after a buy is [(p * s) / s],
    which is [p] up to rounding: 0.10000000000000002 for 3 at 0.1. *)
Lemma fillPosition_flat_counterexample :
  (let a' := fillPosition sell [mkTrade 0 12 8 sell] (mkAccount 100 0 0 0) in
   position a' == - (8) /\ acctAvgPrice a' == 0 /\ ~ acctAvgPrice a' == 12)
  /\
  (let a' := Double.fillPosition sell [Double.mkTrade 0 12 8 sell]
               (Double.mkAccount 100 0 0 0) in
   (Double.position a' =? -8)%float = true /\
   (Double.acctAvgPrice a' =? 0)%float = true /\
   PrimFloat.get_sign (Double.acctAvgPrice a') = true /\
   (Double.acctAvgPrice a' =? 12)%float = false)
  /\
  (let a' := fillPosition buy [mkTrade 0 12 (1 # 1000000000) buy]
               (mkAccount 100 0 0 0) in
   ~ position a' == 1 # 1000000000 /\ ~ acctAvgPrice a' == 12)
  /\
  (let a' := Double.fillPosition buy [Double.mkTrade 0 0.1 3 buy]
               (Double.mkAccount 100 0 0 0) in
   (Double.position a' =? 3)%float = true /\
   (Double.acctAvgPrice a' =? 0.10000000000000002)%float = true /\
   (Double.acctAvgPrice a' =? 0.1)%float = false).
Proof.
  split; [| split; [| split]].
  - vm_compute. repeat split; discriminate.
  - vm_compute. repeat split.
  - vm_compute. repeat split; discriminate.
  - vm_compute. repeat split.
Qed.

(** Fills that only close exposure: each realizes its size at the average
    price of the account, whatever their prices and their order. *)
Lemma closing_flow_comp (s : Side) (avg avg' : Q) (fills : list Trade) :
  avg == avg' -> closing_flow s avg fills == closing_flow s avg' fills.
Proof.
  intro H. induction fills as [| f fills IH]; simpl; [reflexivity |].
  fold (closing_flow s avg fills) (closing_flow s avg' fills).
  rewrite IH. destruct s; rewrite H; reflexivity.
Qed.

Lemma closing_flow_zero (s : Side) (avg : Q) (fills : list Trade) :
  Forall (fun f => 0 <= trade_size f) fills -> filled_size fills <= 0 ->
  closing_flow s avg fills == 0.
Proof.
  induction 1 as [| f fills Hf Hfs IH]; simpl; [reflexivity |].
  fold (closing_flow s avg fills) (filled_size fills). intro Hle.
  pose proof (filled_size_nonneg fills Hfs) as H0.
  assert (E : trade_size f == 0) by lra.
  rewrite IH by lra. destruct s; rewrite E; ring.
Qed.

Lemma closing_flow_perm (s : Side) (avg : Q) (l l' : list Trade) :
  Permutation l l' -> closing_flow s avg l == closing_flow s avg l'.
Proof.
  induction 1; simpl.
  - reflexivity.
  - fold (closing_flow s avg l) (closing_flow s avg l'). now rewrite IHPermutation.
  - ring.
  - now rewrite IHPermutation1.
Qed.

Lemma applyFill_closes (s : Side) (a : Account) (f : Trade) (rest : Q) :
  0 <= trade_size f -> 0 <= rest ->
  match s with
  | buy => position a <= 0 /\ trade_size f + rest <= - position a
  | sell => 0 <= position a /\ trade_size f + rest <= position a
  end ->
  realized (applyFill s a f)
  == realized a
     + match s with
       | buy => (acctAvgPrice a - trade_price f) * trade_size f
       | sell => (trade_price f - acctAvgPrice a) * trade_size f
       end /\
  match s with
  | buy => position (applyFill s a f) <= 0 /\
           rest <= - position (applyFill s a f)
  | sell => 0 <= position (applyFill s a f) /\
            rest <= position (applyFill s a f)
  end /\
  (acctAvgPrice (applyFill s a f) == acctAvgPrice a \/ rest <= 0).
Proof.
  intros Hs Hr Hc. unfold applyFill. cbv zeta. destruct s; destruct Hc as [Hp Ht].
  - destruct (Qleb_reflect 0 (position a)) as [H0 | H0];
      cbn [realized position acctAvgPrice].
    + assert (E : trade_size f == 0) by lra.
      split; [rewrite E; ring |]. split; [split; lra |]. right. lra.
    + assert (Em : Qmin (trade_size f) (- position a) == trade_size f).
      { destruct (Qmin_cases (trade_size f) (- position a)) as [[? E] | [? E]];
          rewrite E; lra. }
      set (m := Qmin (trade_size f) (- position a)) in *. clearbody m.
      destruct (Qltb_reflect 0 (trade_size f - m)) as [N | _]; [lra |].
      cbn [realized position acctAvgPrice].
      split; [rewrite Em; ring |]. split; [split; lra |]. now left.
  - destruct (Qleb_reflect (position a) 0) as [H0 | H0].
    + assert (E : trade_size f == 0) by lra.
      destruct (Qltb_reflect (position a) 0) as [N | _]; [lra |].
      cbn [realized position acctAvgPrice].
      split; [rewrite E; ring |]. split; [split; lra |]. right. lra.
    + assert (Em : Qmin (trade_size f) (position a) == trade_size f).
      { destruct (Qmin_cases (trade_size f) (position a)) as [[? E] | [? E]];
          rewrite E; lra. }
      set (m := Qmin (trade_size f) (position a)) in *. clearbody m.
      destruct (Qltb_reflect 0 (trade_size f - m)) as [N | _]; [lra |].
      cbn [realized position acctAvgPrice].
      split; [rewrite Em; ring |]. split; [split; lra |]. now left.
Qed.

Lemma fold_applyFill_closes (s : Side) (fills : list Trade) (a : Account) :
  Forall (fun f => 0 <= trade_size f) fills -> closes_only s a fills ->
  realized (fold_left (applyFill s) fills a)
  == realized a + closing_flow s (acctAvgPrice a) fills.
Proof.
  intro Hs. revert a. induction Hs as [| f fills Hf Hfs IH]; intros a Hc.
  - simpl. ring.
  - cbn [fold_left closing_flow fold_right].
    fold (closing_flow s (acctAvgPrice a) fills).
    pose proof (filled_size_nonneg fills Hfs) as H0.
    assert (Hc' : match s with
                  | buy => position a <= 0 /\
                           trade_size f + filled_size fills <= - position a
                  | sell => 0 <= position a /\
                            trade_size f + filled_size fills <= position a
                  end).
    { unfold closes_only in Hc. cbn [filled_size fold_right] in Hc.
      fold (filled_size fills) in Hc. exact Hc. }
    destruct (applyFill_closes s a f (filled_size fills) Hf H0 Hc')
      as [Er [Hn Ha]].
    rewrite IH; [| exact Hn]. rewrite Er.
    assert (Ef : closing_flow s (acctAvgPrice (applyFill s a f)) fills
                 == closing_flow s (acctAvgPrice a) fills).
    { destruct Ha as [Ha | Ha].
      - now apply closing_flow_comp.
      - rewrite !closing_flow_zero; trivial; reflexivity. }
    rewrite Ef. ring.
Qed.

Lemma fillPosition_realized (s : Side) (fills : list Trade) (a : Account) :
  realized (fillPosition s fills a)
  = realized (fold_left (applyFill s) fills a).
Proof.
  unfold fillPosition. destruct fills as [| f fills]; [reflexivity |].
  now destruct (Qltb _ eps8).
Qed.

Lemma fillPosition_closes (s : Side) (fills : list Trade) (a : Account) :
  Forall (fun f => 0 <= trade_size f) fills -> closes_only s a fills ->
  realized (fillPosition s fills a)
  == realized a + closing_flow s (acctAvgPrice a) fills.
Proof.
  intros Hs Hc. rewrite fillPosition_realized.
  now apply fold_applyFill_closes.
Qed.

(** C3, as the code has it.  The final cash does not depend on the order of
    the fills of a batch.  The final realized PnL does not depend on it when
    the batch does not take the position through zero: when it is on the side
    of the exposure the account already has (buy fills on a position [>= 0],
    sell fills on a position [<= 0]), and when it only closes exposure (it
    is on the other side and no larger than the position), at whatever
    prices; nor when all the fills of the batch are at one price (sizes
    [>= 0] throughout).  The sums are those of exact arithmetic. *)
Theorem fillPosition_fill_order (s : Side) (fills fills' : list Trade)
    (a : Account) :
  Permutation fills fills' ->
  cash (fillPosition s fills a) == cash (fillPosition s fills' a) /\
  (extends_exposure s a -> Forall (fun f => 0 <= trade_size f) fills ->
   realized (fillPosition s fills a) == realized (fillPosition s fills' a)) /\
  (forall P,
     Forall (fun f => trade_price f == P /\ 0 <= trade_size f) fills ->
     realized (fillPosition s fills a) == realized (fillPosition s fills' a)) /\
  (closes_only s a fills -> Forall (fun f => 0 <= trade_size f) fills ->
   realized (fillPosition s fills a) == realized (fillPosition s fills' a)).
Proof.
  intro HP. split; [| split; [| split]].
  - rewrite !fillPosition_cash. now rewrite (sum_flows_perm s _ _ HP).
  - intros Hp Hs.
    rewrite (fillPosition_extends s fills a Hp Hs).
    rewrite (fillPosition_extends s fills' a Hp); [reflexivity |].
    rewrite Forall_forall in *. intros f Hf. apply Hs.
    apply Permutation_sym in HP. now apply (Permutation_in f HP).
  - intros P Hf.
    assert (Hf' : Forall (fun f => trade_price f == P /\ 0 <= trade_size f)
                    fills').
    { rewrite Forall_forall in *. intros f Hin. apply Hf.
      now apply (Permutation_in f (Permutation_sym HP)). }
    rewrite (fillPosition_same_price s fills a P Hf).
    rewrite (fillPosition_same_price s fills' a P Hf').
    unfold closing_gain.
    destruct s;
      now rewrite (closed_size_comp _ _ _ (filled_size_perm _ _ HP)).
  - intros Hc Hs.
    assert (Hs' : Forall (fun f => 0 <= trade_size f) fills').
    { rewrite Forall_forall in *. intros f Hin. apply Hs.
      now apply (Permutation_in f (Permutation_sym HP)). }
    assert (Hc' : closes_only s a fills').
    { unfold closes_only in *.
      destruct s; rewrite <- (filled_size_perm _ _ HP); exact Hc. }
    rewrite (fillPosition_closes s fills a Hs Hc).
    rewrite (fillPosition_closes s fills' a Hs' Hc').
    now rewrite (closing_flow_perm s _ _ _ HP).
Qed.

Lemma fillPosition_fill_order_witness :
  (let a := mkAccount 100 (-5) 10 0 in
   let f1 := mkTrade 0 8 5 buy in
   let f2 := mkTrade 0 8 3 buy in
   cash (fillPosition buy [f1; f2] a) == cash (fillPosition buy [f2; f1] a) /\
   realized (fillPosition buy [f1; f2] a)
   == realized (fillPosition buy [f2; f1] a)) /\
  (let a := mkAccount 100 (-5) 10 0 in
   let f1 := mkTrade 0 8 2 buy in
   let f2 := mkTrade 0 9 1 buy in
   realized (fillPosition buy [f1; f2] a)
   == realized (fillPosition buy [f2; f1] a)).
Proof.
  cbv zeta. split.
  - destruct (fillPosition_fill_order buy
                [mkTrade 0 8 5 buy; mkTrade 0 8 3 buy]
                [mkTrade 0 8 3 buy; mkTrade 0 8 5 buy]
                (mkAccount 100 (-5) 10 0)) as [Hc [_ [Hr _]]].
    + apply perm_swap.
    + split; [exact Hc |]. apply (Hr 8).
      repeat constructor; simpl; lra.
  - destruct (fillPosition_fill_order buy
                [mkTrade 0 8 2 buy; mkTrade 0 9 1 buy]
                [mkTrade 0 9 1 buy; mkTrade 0 8 2 buy]
                (mkAccount 100 (-5) 10 0)) as [_ [_ [_ Hr]]].
    + apply perm_swap.
    + apply Hr.
      * vm_compute. split; discriminate.
      * repeat constructor; simpl; lra.
Defined.

(** C3 fails as stated.  Short 5 at 10, the buy fills 5 at 8 and 3 at 9:
    in this order the realized PnL ends at 10, in the other order at 7.  And
    in binary64 the cash depends on the order too, in the last place: from
    a cash of 0, the sell fills of size 1 at 0.1, 0.2 and 0.3 leave
    0.6000000000000001, and in the opposite order 0.6. *)
Lemma fillPosition_fill_order_counterexample :
  (let a := mkAccount 100 (-5) 10 0 in
   let f1 := mkTrade 0 8 5 buy in
   let f2 := mkTrade 0 9 3 buy in
   Permutation [f1; f2] [f2; f1] /\
   realized (fillPosition buy [f1; f2] a) == 10 /\
   realized (fillPosition buy [f2; f1] a) == 7 /\
   ~ realized (fillPosition buy [f1; f2] a)
     == realized (fillPosition buy [f2; f1] a)) /\
  (let a := Double.mkAccount 0 0 0 0 in
   let f1 := Double.mkTrade 0 0.1 1 sell in
   let f2 := Double.mkTrade 0 0.2 1 sell in
   let f3 := Double.mkTrade 0 0.3 1 sell in
   Permutation [f1; f2; f3] [f3; f2; f1] /\
   (Double.cash (Double.fillPosition sell [f1; f2; f3] a)
    =? 0.6000000000000001)%float = true /\
   (Double.cash (Double.fillPosition sell [f3; f2; f1] a) =? 0.6)%float
   = true /\
   (Double.cash (Double.fillPosition sell [f1; f2; f3] a)
    =? Double.cash (Double.fillPosition sell [f3; f2; f1] a))%float = false).
Proof.
  split; cbv zeta.
  - split; [apply perm_swap |].
    vm_compute. repeat split; discriminate.
  - split.
    + apply perm_trans with [Double.mkTrade 0 0.2 1 sell;
                             Double.mkTrade 0 0.1 1 sell;
                             Double.mkTrade 0 0.3 1 sell]%float;
        [apply perm_swap |].
      apply perm_trans with [Double.mkTrade 0 0.2 1 sell;
                             Double.mkTrade 0 0.3 1 sell;
                             Double.mkTrade 0 0.1 1 sell]%float;
        [apply perm_skip; apply perm_swap | apply perm_swap].
    + vm_compute. repeat split.
Qed.

(** ** [PriceMap] *)

Module PriceMapFacts.
Import PriceMap.

Lemma Qeq_bool_true (a b : Q) : a == b -> Qeq_bool a b = true.
Proof. apply Qeq_bool_iff. Qed.

Lemma Qeq_bool_false (a b : Q) : ~ a == b -> Qeq_bool a b = false.
Proof.
  intro H. destruct (Qeq_bool a b) eqn:E; trivial.
  apply Qeq_bool_iff in E. contradiction.
Qed.

Lemma Qeq_bool_reflect (a b : Q) : reflect (a == b) (Qeq_bool a b).
Proof.
  destruct (Qeq_bool a b) eqn:E; constructor.
  - now apply Qeq_bool_iff.
  - intro H. apply Qeq_bool_iff in H. congruence.
Qed.

Lemma get_compat (px py : Q) (m : t) : px == py -> get px m = get py m.
Proof.
  intro H. induction m as [| [k q] m IH]; simpl; trivial.
  destruct (Qeq_bool_reflect px k), (Qeq_bool_reflect py k); trivial.
  - exfalso. apply n. now rewrite <- H.
  - exfalso. apply n. now rewrite H.
Qed.

Lemma get_set_same (px : Q) (q : list Order) (m : t) :
  get px (set px q m) = Some q.
Proof.
  induction m as [| [k q0] m IH]; simpl.
  - now rewrite Qeq_bool_true.
  - destruct (Qeq_bool_reflect px k) as [E | E]; simpl.
    + now rewrite Qeq_bool_true.
    + now rewrite Qeq_bool_false.
Qed.

Lemma get_set_other (px py : Q) (q : list Order) (m : t) :
  ~ py == px -> get py (set px q m) = get py m.
Proof.
  intro H. induction m as [| [k q0] m IH]; simpl.
  - now rewrite Qeq_bool_false.
  - destruct (Qeq_bool_reflect px k) as [E | E]; simpl.
    + destruct (Qeq_bool_reflect py k) as [E' | E']; trivial.
      exfalso. apply H. now rewrite E, E'.
    + now rewrite IH.
Qed.

Lemma get_delete_same (px : Q) (m : t) : get px (delete px m) = None.
Proof.
  induction m as [| [k q0] m IH]; simpl; trivial.
  destruct (Qeq_bool_reflect px k) as [E | E]; simpl; trivial.
  now rewrite Qeq_bool_false.
Qed.

Lemma get_delete_other (px py : Q) (m : t) :
  ~ py == px -> get py (delete px m) = get py m.
Proof.
  intro H. induction m as [| [k q0] m IH]; simpl; trivial.
  destruct (Qeq_bool_reflect px k) as [E | E]; simpl.
  - rewrite IH. destruct (Qeq_bool_reflect py k) as [E' | E']; trivial.
    exfalso. apply H. now rewrite E, E'.
  - now rewrite IH.
Qed.

Lemma get_Some_key (px : Q) (q : list Order) (m : t) :
  get px m = Some q -> InA Qeq px (keys m).
Proof.
  induction m as [| [k q0] m IH]; simpl; [discriminate |].
  destruct (Qeq_bool_reflect px k) as [E | E]; intro H.
  - now left.
  - right. now apply IH.
Qed.

Lemma get_None_key (px : Q) (m : t) :
  get px m = None -> ~ InA Qeq px (keys m).
Proof.
  induction m as [| [k q0] m IH]; simpl; intros H Hin.
  - inversion Hin.
  - destruct (Qeq_bool_reflect px k) as [E | E]; [discriminate |].
    inversion Hin; subst; [contradiction | now apply IH].
Qed.

Lemma key_get (px : Q) (m : t) :
  InA Qeq px (keys m) -> exists q, get px m = Some q.
Proof.
  intro H. destruct (get px m) as [q |] eqn:E; [now exists q |].
  now apply get_None_key in E.
Qed.

(** [set] on a key of the map keeps the list of keys. *)
Lemma keys_set_present (px : Q) (q q0 : list Order) (m : t) :
  get px m = Some q0 -> keys (set px q m) = keys m.
Proof.
  unfold keys. induction m as [| [k q1] m IH]; simpl; [discriminate |].
  destruct (Qeq_bool_reflect px k) as [E | E]; intro H; simpl; trivial.
  f_equal. now apply IH.
Qed.

Lemma keys_set_absent (px : Q) (q : list Order) (m : t) :
  get px m = None -> keys (set px q m) = keys m ++ [px].
Proof.
  unfold keys. induction m as [| [k q1] m IH]; simpl; trivial.
  destruct (Qeq_bool_reflect px k) as [E | E]; intro H; [discriminate |].
  simpl. f_equal. now apply IH.
Qed.

Lemma keys_delete_InA (px k : Q) (m : t) :
  InA Qeq k (keys (delete px m)) <-> ~ k == px /\ InA Qeq k (keys m).
Proof.
  induction m as [| [k0 q] m IH]; simpl.
  - split; [intro H; inversion H | intros [_ H]; inversion H].
  - destruct (Qeq_bool_reflect px k0) as [E | E]; simpl.
    + rewrite IH. split.
      * intros [H1 H2]. split; trivial. now right.
      * intros [H1 H2]. split; trivial.
        inversion H2; subst; trivial.
        exfalso. apply H1. now rewrite E.
    + split.
      * intro H. inversion H; subst.
        -- split; [| now left]. intro H'. apply E. now rewrite <- H', H1.
        -- apply IH in H1. destruct H1. split; trivial. now right.
      * intros [H1 H2]. inversion H2; subst; [now left |].
        right. apply IH. now split.
Qed.

Lemma wf_nil : wf empty.
Proof. constructor. Qed.

Lemma wf_delete (px : Q) (m : t) : wf m -> wf (delete px m).
Proof.
  unfold wf. induction m as [| [k q] m IH]; simpl; trivial.
  intro H. inversion H; subst.
  destruct (Qeq_bool_reflect px k) as [E | E]; simpl; [now apply IH |].
  constructor; [| now apply IH].
  intro Hin. apply keys_delete_InA in Hin. tauto.
Qed.

Lemma wf_set (px : Q) (q : list Order) (m : t) : wf m -> wf (set px q m).
Proof.
  unfold wf. intro H. destruct (get px m) as [q0 |] eqn:E.
  - now rewrite (keys_set_present px q q0 m E).
  - rewrite (keys_set_absent px q m E).
    apply get_None_key in E. revert H E. generalize (keys m).
    induction l as [| k l IH]; simpl; intros H E.
    + constructor; [intro H'; inversion H' | constructor].
    + inversion H; subst. constructor.
      * intro Hin. apply InA_app in Hin. destruct Hin as [Hin | Hin];
          [contradiction |].
        inversion Hin; subst; [| inversion H1].
        apply E. left. now symmetry.
      * apply IH; trivial. intro Hin. apply E. now right.
Qed.

(** The total size held by a map after a queue is replaced or a level
    removed. *)
Lemma total_not_key (px : Q) (m : t) :
  ~ InA Qeq px (keys m) -> delete px m = m.
Proof.
  induction m as [| [k q] m IH]; simpl; trivial.
  intro H. destruct (Qeq_bool_reflect px k) as [E | E].
  - exfalso. apply H. now left.
  - rewrite IH; trivial. intro Hin. apply H. now right.
Qed.

Lemma total_delete (px : Q) (m : t) :
  wf m ->
  total_size (delete px m) == total_size m - queue_size (or_empty (get px m)).
Proof.
  unfold wf. induction m as [| [k q] m IH]; simpl; intro H.
  - ring.
  - inversion H; subst.
    destruct (Qeq_bool_reflect px k) as [E | E]; simpl.
    + rewrite total_not_key.
      * ring.
      * intro Hin. apply H2. now rewrite <- E.
    + rewrite IH; trivial. ring.
Qed.

Lemma total_set (px : Q) (q q0 : list Order) (m : t) :
  get px m = Some q0 ->
  total_size (set px q m) == total_size m - queue_size q0 + queue_size q.
Proof.
  induction m as [| [k q1] m IH]; simpl; [discriminate |].
  destruct (Qeq_bool_reflect px k) as [E | E]; intro H; simpl.
  - injection H as ->. ring.
  - rewrite IH; trivial. ring.
Qed.

End PriceMapFacts.

(** ** [sort] *)

Lemma priceOrder_better (s : Side) (a b : Q) :
  Qleb (priceOrder s a b) 0 = true <-> better_eq s a b.
Proof.
  unfold priceOrder, better_eq.
  destruct s;
    [destruct (Qleb_reflect (a - b) 0) | destruct (Qleb_reflect (b - a) 0)];
    split; intro; try discriminate; try reflexivity; lra.
Qed.

Lemma better_eq_refl (s : Side) (a b : Q) : a == b -> better_eq s a b.
Proof. unfold better_eq. destruct s; lra. Qed.

Lemma better_eq_trans (s : Side) (a b c : Q) :
  better_eq s a b -> better_eq s b c -> better_eq s a c.
Proof. unfold better_eq. destruct s; lra. Qed.

Lemma better_eq_total (s : Side) (a b : Q) :
  ~ better_eq s a b -> better_eq s b a.
Proof. unfold better_eq. destruct s; lra. Qed.

Lemma better_eq_antisym (s : Side) (a b : Q) :
  better_eq s a b -> better_eq s b a -> a == b.
Proof. unfold better_eq. destruct s; lra. Qed.

Lemma sort_insert_perm (cmp : Q -> Q -> Q) (x : Q) (l : list Q) :
  Permutation (sort_insert cmp x l) (x :: l).
Proof.
  induction l as [| y l IH]; simpl; [reflexivity |].
  destruct (Qleb (cmp x y) 0); [reflexivity |].
  rewrite IH. apply perm_swap.
Qed.

Lemma sort_perm (cmp : Q -> Q -> Q) (l : list Q) : Permutation (sort cmp l) l.
Proof.
  induction l as [| x l IH]; simpl; [reflexivity |].
  rewrite sort_insert_perm. now constructor.
Qed.

Lemma sort_insert_sorted (s : Side) (x : Q) (l : list Q) :
  StronglySorted (better_eq s) l ->
  StronglySorted (better_eq s) (sort_insert (priceOrder s) x l).
Proof.
  induction 1 as [| y l Hl IH Hy]; simpl.
  - repeat constructor.
  - destruct (Qleb (priceOrder s x y) 0) eqn:E.
    + apply priceOrder_better in E. constructor.
      * now constructor.
      * constructor; trivial.
        eapply Forall_impl; [| exact Hy].
        intros z Hz. now apply (better_eq_trans s x y z).
    + assert (Hyx : better_eq s y x).
      { apply better_eq_total. intro H. apply priceOrder_better in H.
        congruence. }
      constructor; trivial.
      rewrite Forall_forall. intros z Hz.
      apply (Permutation_in z (sort_insert_perm _ x l)) in Hz.
      destruct Hz as [-> | Hz]; trivial.
      rewrite Forall_forall in Hy. now apply Hy.
Qed.

Lemma sort_sorted (s : Side) (l : list Q) :
  StronglySorted (better_eq s) (sort (priceOrder s) l).
Proof.
  induction l as [| x l IH]; simpl; [constructor |].
  now apply sort_insert_sorted.
Qed.

Lemma sort_InA (cmp : Q -> Q -> Q) (x : Q) (l : list Q) :
  InA Qeq x (sort cmp l) <-> InA Qeq x l.
Proof.
  rewrite !InA_alt. split; intros [y [E H]]; exists y; split; trivial.
  - now apply (Permutation_in y (sort_perm cmp l)).
  - now apply (Permutation_in y (Permutation_sym (sort_perm cmp l))).
Qed.

Lemma sort_NoDupA (cmp : Q -> Q -> Q) (l : list Q) :
  NoDupA Qeq l -> NoDupA Qeq (sort cmp l).
Proof.
  apply PermutationA_preserves_NoDupA; [apply Q_Setoid |].
  apply Permutation_PermutationA; [apply Q_Setoid |].
  apply Permutation_sym, sort_perm.
Qed.

(** ** The inner loop *)

Lemma match_queue_S (fuel : nat) (s : Side) (now0 px : Q) (st : QueueState) :
  match_queue (S fuel) s now0 px st =
  match q_queue st with
  | [] => st
  | head :: rest =>
      if Qltb 0 (q_remain st) then
        let tradeSize := Qmin (q_remain st) (size head) in
        let head' := with_size head (size head - tradeSize) in
        let remain' := q_remain st - tradeSize in
        let notional' := q_notional st + tradeSize * px in
        let trades' := q_trades st ++ [mkTrade now0 px tradeSize s] in
        if Qleb (size head') eps7
        then match_queue fuel s now0 px (mkQueue rest remain' notional' trades')
        else match_queue fuel s now0 px
               (mkQueue (head' :: rest) remain' notional' trades')
      else st
  end.
Proof. reflexivity. Qed.

Lemma match_queue_no_remain (fuel : nat) (s : Side) (now0 px : Q)
    (st : QueueState) :
  q_remain st <= 0 -> match_queue fuel s now0 px st = st.
Proof.
  intro H. destruct fuel; [reflexivity |]. rewrite match_queue_S.
  destruct (q_queue st); [reflexivity |].
  destruct (Qltb_reflect 0 (q_remain st)); [lra | reflexivity].
Qed.

Lemma match_queue_nil (fuel : nat) (s : Side) (now0 px : Q)
    (st : QueueState) :
  q_queue st = [] -> match_queue fuel s now0 px st = st.
Proof.
  intro H. destruct fuel; [reflexivity |]. rewrite match_queue_S.
  now rewrite H.
Qed.

(** An order that stays at the head after a trade took the whole remaining
    size of the aggressor. *)
Lemma head_stays (remain sz : Q) :
  0 < remain -> ~ sz - Qmin remain sz <= eps7 ->
  remain - Qmin remain sz == 0 /\ sz - Qmin remain sz < sz.
Proof.
  unfold eps7. intros Hr Hn.
  destruct (Qmin_cases remain sz) as [[H E] | [H E]]; rewrite E in *; lra.
Qed.

(** The loop leaves by its own test: the bound on the iterations is never
    what stops it. *)
Lemma match_queue_exit (fuel : nat) (s : Side) (now0 px : Q)
    (st : QueueState) :
  (length (q_queue st) < fuel)%nat ->
  let r := match_queue fuel s now0 px st in
  q_queue r = [] \/ q_remain r <= 0.
Proof.
  cbv zeta. revert st. induction fuel as [| fuel IH]; intros st Hlen; [lia |].
  rewrite match_queue_S. destruct (q_queue st) as [| head rest] eqn:Eq.
  - now left.
  - cbn [length] in Hlen.
    destruct (Qltb_reflect 0 (q_remain st)) as [Hr | Hr]; [| right; lra].
    cbv zeta. cbn [size with_size].
    destruct (Qleb_reflect (size head - Qmin (q_remain st) (size head)) eps7)
      as [Hd | Hd].
    + apply IH. cbn [q_queue]. lia.
    + destruct (head_stays _ _ Hr Hd) as [H0 _].
      rewrite match_queue_no_remain; cbn [q_remain]; [right |]; lra.
Qed.

Lemma match_queue_fuel (f1 f2 : nat) (s : Side) (now0 px : Q)
    (st : QueueState) :
  (length (q_queue st) < f1)%nat -> (length (q_queue st) < f2)%nat ->
  match_queue f1 s now0 px st = match_queue f2 s now0 px st.
Proof.
  revert f2 st. induction f1 as [| f1 IH]; intros f2 st H1 H2; [lia |].
  destruct f2 as [| f2]; [lia |]. rewrite !match_queue_S.
  destruct (q_queue st) as [| head rest] eqn:Eq; [reflexivity |].
  cbn [length] in H1, H2.
  destruct (Qltb_reflect 0 (q_remain st)) as [Hr | Hr]; [| reflexivity].
  cbv zeta. cbn [size with_size].
  destruct (Qleb_reflect (size head - Qmin (q_remain st) (size head)) eps7)
    as [Hd | Hd].
  - apply IH; cbn [q_queue]; lia.
  - destruct (head_stays _ _ Hr Hd) as [H0 _].
    rewrite !match_queue_no_remain; cbn [q_remain]; trivial; lra.
Qed.

(** Every iteration pushes one trade at [px]; the notional and the remaining
    size move by what the new trades carry. *)
Lemma match_queue_trades (fuel : nat) (s : Side) (now0 px : Q)
    (st : QueueState) :
  let r := match_queue fuel s now0 px st in
  exists tn,
    q_trades r = q_trades st ++ tn /\
    Forall (fun t => trade_price t = px /\ takerSide t = s /\
                     trade_time t = now0) tn /\
    q_notional r == q_notional st + notional_of tn /\
    q_remain r == q_remain st - filled_size tn.
Proof.
  cbv zeta. revert st. induction fuel as [| fuel IH]; intro st.
  - exists []. simpl. rewrite app_nil_r. repeat split; trivial; ring.
  - rewrite match_queue_S.
    assert (Hstop : exists tn,
      q_trades st = q_trades st ++ tn /\
      Forall (fun t => trade_price t = px /\ takerSide t = s /\
                       trade_time t = now0) tn /\
      q_notional st == q_notional st + notional_of tn /\
      q_remain st == q_remain st - filled_size tn).
    { exists []. simpl. rewrite app_nil_r. repeat split; trivial; ring. }
    destruct (q_queue st) as [| head rest]; trivial.
    destruct (Qltb 0 (q_remain st)); trivial.
    cbv zeta.
    set (ts := Qmin (q_remain st) (size head)).
    set (t0 := mkTrade now0 px ts s).
    destruct (Qleb (size (with_size head (size head - ts))) eps7);
      match goal with
      | |- context [match_queue fuel s now0 px ?st'] =>
          destruct (IH st') as [tn [Ht [Hf [Hn Hr]]]]
      end;
      cbn [q_trades q_notional q_remain] in *;
      exists (t0 :: tn); rewrite Ht, <- app_assoc;
      (split; [reflexivity |]);
      (split; [constructor; [now subst t0 | exact Hf] |]);
      cbn [notional_of filled_size fold_right]; fold (notional_of tn);
      fold (filled_size tn); rewrite Hn, Hr; subst t0;
      cbn [trade_size trade_price]; split; ring.
Qed.

(** Orders leave a queue from its front only. *)
Lemma match_queue_front (fuel : nat) (s : Side) (now0 px : Q)
    (st : QueueState) :
  consumed_front (q_queue st) (q_queue (match_queue fuel s now0 px st)).
Proof.
  revert st. induction fuel as [| fuel IH]; intro st; [constructor |].
  rewrite match_queue_S. destruct (q_queue st) as [| head rest] eqn:Eq.
  - rewrite Eq. constructor.
  - destruct (Qltb_reflect 0 (q_remain st)) as [Hr | Hr];
      [| rewrite Eq; constructor].
    cbv zeta. cbn [size with_size].
    destruct (Qleb_reflect (size head - Qmin (q_remain st) (size head)) eps7)
      as [Hd | Hd].
    + apply cf_drop.
      match goal with
      | |- context [match_queue fuel s now0 px ?st'] => apply (IH st')
      end.
    + destruct (head_stays _ _ Hr Hd) as [H0 Hlt].
      rewrite match_queue_no_remain; cbn [q_remain q_queue]; [| lra].
      now apply cf_partial.
Qed.

(** What a queue loses is what the aggressor gets, plus the rest of at most
    one order that the 1e-7 rule takes out of the queue; such a rest is only
    dropped by the trade that exhausts the aggressor. *)
Lemma match_queue_conservation (fuel : nat) (s : Side) (now0 px : Q)
    (st : QueueState) :
  0 <= q_remain st ->
  let r := match_queue fuel s now0 px st in
  0 <= q_remain r /\
  exists d,
    PriceMap.queue_size (q_queue st) ==
      PriceMap.queue_size (q_queue r) + (q_remain st - q_remain r) + d /\
    0 <= d /\ d <= eps7 /\ (0 < q_remain r -> d == 0).
Proof.
  cbv zeta. revert st. induction fuel as [| fuel IH]; intros st H0.
  - simpl. split; trivial. exists 0. unfold eps7.
    repeat split; try lra. 
  - rewrite match_queue_S. destruct (q_queue st) as [| head rest] eqn:Eq.
    + rewrite Eq. split; trivial. exists 0. unfold eps7.
      repeat split; try lra. 
    + destruct (Qltb_reflect 0 (q_remain st)) as [Hr | Hr].
      2:{ rewrite Eq. split; trivial. exists 0. unfold eps7.
          repeat split; try lra. }
      cbv zeta. cbn [size with_size].
      set (ts := Qmin (q_remain st) (size head)).
      assert (Hts : ts <= q_remain st) by apply Q.le_min_l.
      assert (Hts' : ts <= size head) by apply Q.le_min_r.
      destruct (Qleb_reflect (size head - ts) eps7) as [Hd | Hd].
      * destruct (Qmin_cases (q_remain st) (size head)) as [[Hc E] | [Hc E]];
          fold ts in E.
        -- (* the aggressor is exhausted; the rest of the head is dropped *)
           rewrite match_queue_no_remain; cbn [q_remain q_queue]; [| lra].
           split; [lra |]. exists (size head - ts).
           cbn [PriceMap.queue_size fold_right].
           fold (PriceMap.queue_size rest).
           repeat split; try lra.
        -- match goal with
           | |- context [match_queue fuel s now0 px ?st'] =>
               destruct (IH st') as [Hr' [d [Hq [Hd0 [Hd1 Hd2]]]]];
                 [cbn [q_remain]; lra |]
           end.
           cbn [q_remain q_queue] in *. split; trivial. exists d.
           cbn [PriceMap.queue_size fold_right].
           fold (PriceMap.queue_size rest).
           repeat split; trivial. lra.
      * destruct (head_stays _ _ Hr Hd) as [Hz _]. fold ts in Hz.
        rewrite match_queue_no_remain; cbn [q_remain q_queue]; [| lra].
        split; [lra |]. exists 0.
        cbn [PriceMap.queue_size fold_right size with_size].
        fold (PriceMap.queue_size rest). unfold eps7.
        repeat split; try lra.
Qed.

(** ** One level *)

Section Level.
Import PriceMap PriceMapFacts.

Variables (s : Side) (now0 px : Q) (st : MatchState).

Let queue := or_empty (get px (m_book st)).
Let r := match_queue (queue_fuel queue) s now0 px
           (mkQueue queue (m_remain st) (m_notional st) (m_trades st)).

Lemma match_level_eq :
  match_level s now0 px st =
  mkMatch (match q_queue r with
           | [] => delete px (m_book st)
           | _ :: _ => set px (q_queue r) (m_book st)
           end) (q_remain r) (q_notional r) (q_trades r).
Proof. reflexivity. Qed.

Lemma level_exit : q_queue r = [] \/ q_remain r <= 0.
Proof.
  apply (match_queue_exit (queue_fuel queue) s now0 px
           (mkQueue queue (m_remain st) (m_notional st) (m_trades st))).
  cbn [q_queue]. unfold queue_fuel. lia.
Qed.

(** The queue the level holds after the pass. *)
Lemma match_level_get_same :
  or_empty (get px (m_book (match_level s now0 px st))) = q_queue r.
Proof.
  rewrite match_level_eq. cbn [m_book].
  destruct (q_queue r) as [| h q'] eqn:E.
  - now rewrite get_delete_same.
  - now rewrite get_set_same.
Qed.

(** A level that is still there has exhausted the aggressor. *)
Lemma match_level_survives :
  get px (m_book (match_level s now0 px st)) <> None ->
  m_remain (match_level s now0 px st) <= 0.
Proof.
  rewrite match_level_eq. cbn [m_book m_remain].
  destruct level_exit as [E | E]; trivial.
  rewrite E, get_delete_same. congruence.
Qed.

Lemma match_level_get_other (py : Q) :
  ~ py == px ->
  get py (m_book (match_level s now0 px st)) = get py (m_book st).
Proof.
  intro H. rewrite match_level_eq. cbn [m_book].
  destruct (q_queue r).
  - now apply get_delete_other.
  - now apply get_set_other.
Qed.

Lemma match_level_front :
  consumed_front (or_empty (get px (m_book st)))
    (or_empty (get px (m_book (match_level s now0 px st)))).
Proof.
  rewrite match_level_get_same.
  apply (match_queue_front (queue_fuel queue) s now0 px
           (mkQueue queue (m_remain st) (m_notional st) (m_trades st))).
Qed.

Lemma match_level_trades :
  exists tn,
    m_trades (match_level s now0 px st) = m_trades st ++ tn /\
    Forall (fun t => trade_price t = px /\ takerSide t = s /\
                     trade_time t = now0) tn /\
    m_notional (match_level s now0 px st)
      == m_notional st + notional_of tn /\
    m_remain (match_level s now0 px st)
      == m_remain st - filled_size tn.
Proof.
  rewrite match_level_eq. cbn [m_trades m_notional m_remain].
  apply (match_queue_trades (queue_fuel queue) s now0 px
           (mkQueue queue (m_remain st) (m_notional st) (m_trades st))).
Qed.

(** The pass never makes a new level. *)
Lemma match_level_keys (k : Q) :
  InA Qeq k (keys (m_book (match_level s now0 px st))) ->
  InA Qeq k (keys (m_book st)).
Proof.
  rewrite match_level_eq. cbn [m_book].
  destruct (q_queue r) as [| h q'] eqn:E.
  - intro H. now apply keys_delete_InA in H.
  - destruct (get px (m_book st)) as [q0 |] eqn:G.
    + now rewrite (keys_set_present px _ q0 _ G).
    + exfalso. subst r queue. cbn [or_empty] in E.
      rewrite match_queue_nil in E; [discriminate | reflexivity].
Qed.

Lemma match_level_wf :
  wf (m_book st) -> wf (m_book (match_level s now0 px st)).
Proof.
  intro H. rewrite match_level_eq. cbn [m_book].
  destruct (q_queue r); [now apply wf_delete | now apply wf_set].
Qed.

Lemma match_level_conservation :
  wf (m_book st) -> 0 <= m_remain st ->
  0 <= m_remain (match_level s now0 px st) /\
  exists d,
    total_size (m_book st) ==
      total_size (m_book (match_level s now0 px st))
      + (m_remain st - m_remain (match_level s now0 px st)) + d /\
    0 <= d /\ d <= eps7 /\
    (0 < m_remain (match_level s now0 px st) -> d == 0).
Proof.
  intros Hwf H0.
  destruct (match_queue_conservation (queue_fuel queue) s now0 px
              (mkQueue queue (m_remain st) (m_notional st) (m_trades st)) H0)
    as [Hr [d [Hq [Hd0 [Hd1 Hd2]]]]].
  fold r in Hr, Hq, Hd2. cbn [q_queue q_remain] in Hq.
  rewrite match_level_eq. cbn [m_book m_remain].
  split; trivial. exists d. repeat split; trivial.
  destruct (q_queue r) as [| h q'] eqn:E.
  - rewrite total_delete; trivial. fold queue. rewrite Hq.
    cbn [queue_size fold_right]. ring.
  - destruct (get px (m_book st)) as [q0 |] eqn:G.
    + rewrite (total_set px _ q0 _ G).
      change q0 with queue. rewrite Hq. ring.
    + exfalso. subst r queue. cbn [or_empty] in E.
      rewrite match_queue_nil in E; [discriminate | reflexivity].
Qed.

End Level.

(** ** The levels in turn *)

Section Levels.
Import PriceMap PriceMapFacts.

Variables (s : Side) (now0 : Q).

Lemma match_levels_cons (px : Q) (levels : list Q) (st : MatchState) :
  match_levels s now0 (px :: levels) st =
  if Qleb (m_remain st) 0 then st
  else match_levels s now0 levels (match_level s now0 px st).
Proof. reflexivity. Qed.

Lemma match_levels_no_remain (levels : list Q) (st : MatchState) :
  m_remain st <= 0 -> match_levels s now0 levels st = st.
Proof.
  intro H. destruct levels; [reflexivity |]. rewrite match_levels_cons.
  destruct (Qleb_reflect (m_remain st) 0); [reflexivity | contradiction].
Qed.

(** Levels that are not visited are not changed. *)
Lemma match_levels_get_other (levels : list Q) (st : MatchState) (py : Q) :
  ~ InA Qeq py levels ->
  get py (m_book (match_levels s now0 levels st)) = get py (m_book st).
Proof.
  revert st. induction levels as [| px levels IH]; intros st H;
    [reflexivity |].
  rewrite match_levels_cons. destruct (Qleb (m_remain st) 0); trivial.
  rewrite IH.
  - apply match_level_get_other. intro E. apply H. now left.
  - intro Hin. apply H. now right.
Qed.

Lemma match_levels_keys (levels : list Q) (st : MatchState) (k : Q) :
  InA Qeq k (keys (m_book (match_levels s now0 levels st))) ->
  InA Qeq k (keys (m_book st)).
Proof.
  revert st. induction levels as [| px levels IH]; intros st H; trivial.
  rewrite match_levels_cons in H. destruct (Qleb (m_remain st) 0); trivial.
  apply IH in H. now apply match_level_keys in H.
Qed.

Lemma match_levels_wf (levels : list Q) (st : MatchState) :
  wf (m_book st) -> wf (m_book (match_levels s now0 levels st)).
Proof.
  revert st. induction levels as [| px levels IH]; intros st H; trivial.
  rewrite match_levels_cons. destruct (Qleb (m_remain st) 0); trivial.
  now apply IH, match_level_wf.
Qed.

(** When the aggressor is not exhausted, no visited level is left. *)
Lemma match_levels_unfilled (levels : list Q) (st : MatchState) (py : Q) :
  0 < m_remain (match_levels s now0 levels st) ->
  InA Qeq py levels ->
  get py (m_book (match_levels s now0 levels st)) = None.
Proof.
  revert st. induction levels as [| px levels IH]; intros st Hr Hin;
    [inversion Hin |].
  rewrite match_levels_cons in *.
  destruct (Qleb_reflect (m_remain st) 0) as [H0 | H0]; [lra |].
  destruct (InA_dec Qeq_dec py levels) as [Hl | Hl]; [now apply IH |].
  inversion Hin; subst; [| contradiction].
  rewrite (match_levels_get_other _ _ _ Hl).
  rewrite (get_compat py px _ H1).
  destruct (get px (m_book (match_level s now0 px st))) eqn:G; trivial.
  assert (Hs : m_remain (match_level s now0 px st) <= 0).
  { apply match_level_survives. congruence. }
  rewrite (match_levels_no_remain _ _ Hs) in Hr. lra.
Qed.

(** Each level loses orders from its front only. *)
Lemma match_levels_front (levels : list Q) (st : MatchState) (py : Q) :
  NoDupA Qeq levels ->
  consumed_front (or_empty (get py (m_book st)))
    (or_empty (get py (m_book (match_levels s now0 levels st)))).
Proof.
  revert st. induction levels as [| px levels IH]; intros st Hnd;
    [constructor |].
  rewrite match_levels_cons. destruct (Qleb (m_remain st) 0);
    [constructor |].
  inversion Hnd; subst.
  destruct (Qeq_dec py px) as [E | E].
  - rewrite match_levels_get_other.
    + rewrite !(get_compat py px _ E). apply match_level_front.
    + intro Hin. apply H1. now rewrite <- E.
  - rewrite <- (match_level_get_other s now0 px st py E). now apply IH.
Qed.

(** A level that is still there after the pass was the last one touched:
    the levels after it in the visiting order are as they were. *)
Lemma match_levels_priority (l1 l2 : list Q) (p1 p2 : Q)
    (st : MatchState) :
  NoDupA Qeq (l1 ++ p1 :: l2) ->
  get p1 (m_book (match_levels s now0 (l1 ++ p1 :: l2) st)) <> None ->
  InA Qeq p2 l2 ->
  get p2 (m_book (match_levels s now0 (l1 ++ p1 :: l2) st))
  = get p2 (m_book st).
Proof.
  revert st. induction l1 as [| px l1 IH]; intros st Hnd Hs Hin.
  - cbn [app] in *. inversion Hnd; subst.
    assert (Hne : ~ p2 == p1).
    { intro E. apply H1. now rewrite <- E. }
    rewrite match_levels_cons in *.
    destruct (Qleb (m_remain st) 0); trivial.
    rewrite (match_levels_get_other _ _ _ H1) in Hs.
    apply match_level_survives in Hs.
    rewrite (match_levels_no_remain _ _ Hs).
    now apply match_level_get_other.
  - cbn [app] in *. inversion Hnd; subst.
    rewrite match_levels_cons in *.
    destruct (Qleb (m_remain st) 0); trivial.
    rewrite IH; trivial.
    apply match_level_get_other. intro E. apply H1.
    apply InA_app_iff. right. right. now rewrite <- E.
Qed.

(** The new trades: at prices of the visited levels, in the visiting
    order. *)
Lemma match_levels_trades (levels : list Q) (st : MatchState) :
  exists tn,
    m_trades (match_levels s now0 levels st) = m_trades st ++ tn /\
    Forall (fun t => In (trade_price t) levels /\ takerSide t = s /\
                     trade_time t = now0) tn /\
    (StronglySorted (better_eq s) levels ->
     StronglySorted (better_eq s) (map trade_price tn)) /\
    m_notional (match_levels s now0 levels st)
      == m_notional st + notional_of tn /\
    m_remain (match_levels s now0 levels st)
      == m_remain st - filled_size tn.
Proof.
  revert st. induction levels as [| px levels IH]; intro st.
  - exists []. simpl. rewrite app_nil_r.
    repeat split; trivial; try constructor; ring.
  - rewrite match_levels_cons. destruct (Qleb (m_remain st) 0).
    + exists []. simpl. rewrite app_nil_r.
      repeat split; trivial; try constructor; ring.
    + destruct (match_level_trades s now0 px st)
        as [t1 [Ht1 [Hf1 [Hn1 Hr1]]]].
      destruct (IH (match_level s now0 px st))
        as [t2 [Ht2 [Hf2 [Hs2 [Hn2 Hr2]]]]].
      exists (t1 ++ t2). rewrite Ht2, Ht1, <- app_assoc.
      split; [reflexivity |]. split; [| split; [| split]].
      * apply Forall_app. split.
        -- eapply Forall_impl; [| exact Hf1].
           intros t [-> H]. split; [now left | exact H].
        -- eapply Forall_impl; [| exact Hf2].
           intros t [H H']. split; [now right | exact H'].
      * intro Hsorted. inversion Hsorted; subst.
        rewrite map_app. clear Ht1 Hn1 Hr1 Ht2 Hn2 Hr2.
        induction Hf1 as [| t t1 [Hp _] Hf1 IH1]; cbn [map app];
          [now apply Hs2 |].
        constructor; trivial. rewrite Hp.
        apply Forall_app. split.
        -- clear IH1. induction Hf1 as [| t' t1' [Hp' _] Hf1' IH1'];
             constructor; trivial.
           rewrite Hp'. now apply better_eq_refl.
        -- rewrite Forall_forall in *. intros p Hp2.
           apply in_map_iff in Hp2. destruct Hp2 as [t' [<- Hin]].
           apply H2. now apply Hf2.
      * rewrite Hn2, Hn1.
        assert (E : notional_of (t1 ++ t2)
                    == notional_of t1 + notional_of t2).
        { clear. induction t1; simpl; [ring |].
          fold (notional_of (t1 ++ t2)). fold (notional_of t1).
          rewrite IHt1. ring. }
        rewrite E. ring.
      * rewrite Hr2, Hr1.
        assert (E : filled_size (t1 ++ t2)
                    == filled_size t1 + filled_size t2).
        { clear. induction t1; simpl; [ring |].
          fold (filled_size (t1 ++ t2)). fold (filled_size t1).
          rewrite IHt1. ring. }
        rewrite E. ring.
Qed.

Lemma match_levels_conservation (levels : list Q) (st : MatchState) :
  wf (m_book st) -> 0 <= m_remain st ->
  0 <= m_remain (match_levels s now0 levels st) /\
  exists d,
    total_size (m_book st) ==
      total_size (m_book (match_levels s now0 levels st))
      + (m_remain st - m_remain (match_levels s now0 levels st)) + d /\
    0 <= d /\ d <= eps7 /\
    (0 < m_remain (match_levels s now0 levels st) -> d == 0).
Proof.
  revert st. induction levels as [| px levels IH]; intros st Hwf H0.
  - simpl. split; trivial. exists 0. unfold eps7. repeat split; lra.
  - rewrite match_levels_cons. destruct (Qleb (m_remain st) 0).
    + split; trivial. exists 0. unfold eps7. repeat split; lra.
    + destruct (match_level_conservation s now0 px st Hwf H0)
        as [Hr1 [d1 [Hq1 [Ha1 [Hb1 Hc1]]]]].
      destruct (Qlt_le_dec 0 (m_remain (match_level s now0 px st)))
        as [Hpos | Hnp].
      * destruct (IH (match_level s now0 px st))
          as [Hr2 [d2 [Hq2 [Ha2 [Hb2 Hc2]]]]];
          trivial; [now apply match_level_wf |].
        split; trivial. exists d2. specialize (Hc1 Hpos).
        repeat split; trivial. lra.
      * rewrite (match_levels_no_remain _ _ Hnp).
        split; trivial. exists d1. repeat split; trivial.
Qed.

End Levels.

(** ** [executeMarket] *)

Lemma executeMarket_opposite (s : Side) (sz now0 : Q) (b : OrderBook) :
  opposite s (snd (executeMarket s sz now0 b)) =
  m_book (match_levels s now0
            (sort (priceOrder s) (PriceMap.keys (opposite s b)))
            (mkMatch (opposite s b) sz 0 [])).
Proof. destruct s; reflexivity. Qed.

Lemma executeMarket_own (s : Side) (sz now0 : Q) (b : OrderBook) :
  own s (snd (executeMarket s sz now0 b)) = own s b.
Proof. destruct s; reflexivity. Qed.

Lemma executeMarket_trades (s : Side) (sz now0 : Q) (b : OrderBook) :
  trades (fst (executeMarket s sz now0 b)) =
  m_trades (match_levels s now0
              (sort (priceOrder s) (PriceMap.keys (opposite s b)))
              (mkMatch (opposite s b) sz 0 [])).
Proof. reflexivity. Qed.

Lemma executeMarket_filled (s : Side) (sz now0 : Q) (b : OrderBook) :
  filled (fst (executeMarket s sz now0 b)) =
  sz - m_remain (match_levels s now0
                   (sort (priceOrder s) (PriceMap.keys (opposite s b)))
                   (mkMatch (opposite s b) sz 0 [])).
Proof. reflexivity. Qed.

Lemma executeMarket_avgPrice (s : Side) (sz now0 : Q) (b : OrderBook) :
  avgPrice (fst (executeMarket s sz now0 b)) =
  let st := match_levels s now0
              (sort (priceOrder s) (PriceMap.keys (opposite s b)))
              (mkMatch (opposite s b) sz 0 []) in
  if Qltb 0 (sz - m_remain st) then m_notional st / (sz - m_remain st) else 0.
Proof. reflexivity. Qed.

(** C10.  [executeMarket] leaves the side of the aggressor as it is: a buy
    changes nothing in [bids], a sell nothing in [asks]. *)
Theorem executeMarket_frame (sz now0 : Q) (b : OrderBook) :
  bids (snd (executeMarket buy sz now0 b)) = bids b /\
  asks (snd (executeMarket sell sz now0 b)) = asks b.
Proof. split; reflexivity. Qed.

(** Binary64: a finite number is a zero or has a mantissa and an exponent,
    and less itself it is [+0]. *)
Lemma is_finite_cases (x : PrimFloat.float) :
  PrimFloat.is_finite x = true ->
  (exists s, FloatOps.Prim2SF x = SpecFloat.S754_zero s) \/
  (exists s m e, FloatOps.Prim2SF x = SpecFloat.S754_finite s m e).
Proof.
  unfold PrimFloat.is_finite, PrimFloat.is_nan, PrimFloat.is_infinity.
  rewrite !FloatAxioms.eqb_spec, FloatAxioms.abs_spec.
  replace (FloatOps.Prim2SF PrimFloat.infinity)
    with (SpecFloat.S754_infinity false) by (vm_compute; reflexivity).
  destruct (FloatOps.Prim2SF x) as [s | s | | s m e]; cbn.
  - intros _. left. now exists s.
  - destruct s; discriminate.
  - discriminate.
  - intros _. right. now exists s, m, e.
Qed.

Lemma sub_self_zero (x : PrimFloat.float) :
  PrimFloat.is_finite x = true ->
  ((x - x) =? 0)%float = true /\ (0 <? (x - x))%float = false.
Proof.
  intro H.
  assert (E : FloatOps.Prim2SF (x - x)%float = SpecFloat.S754_zero false).
  { rewrite FloatAxioms.sub_spec.
    destruct (is_finite_cases x H) as [[s E] | [s [m [e E]]]]; rewrite E.
    - now destruct s.
    - unfold FloatAxioms.SF64sub, SpecFloat.SFsub. cbv zeta.
      rewrite Z.sub_diag. reflexivity. }
  rewrite FloatAxioms.eqb_spec, FloatAxioms.ltb_spec, E.
  replace (FloatOps.Prim2SF 0%float) with (SpecFloat.S754_zero false)
    by (vm_compute; reflexivity).
  split; reflexivity.
Qed.

(** On the binary64 numbers: for every finite size, on an empty opposite
    side, [filled] is 0, the average price is 0, there is no trade and the
    book is as it was. *)
Lemma executeMarket_empty_binary64 (s : Side) (sz now0 : PrimFloat.float)
    (b : Double.OrderBook) :
  match s with buy => Double.asks b | sell => Double.bids b end = [] ->
  PrimFloat.is_finite sz = true ->
  (Double.filled (fst (Double.executeMarket s sz now0 b)) =? 0)%float = true /\
  Double.avgPrice (fst (Double.executeMarket s sz now0 b)) = 0%float /\
  Double.trades (fst (Double.executeMarket s sz now0 b)) = [] /\
  snd (Double.executeMarket s sz now0 b) = b.
Proof.
  intros He Hf. destruct (sub_self_zero sz Hf) as [E0 E1].
  destruct b as [bi ak].
  destruct s; cbn [Double.asks Double.bids] in He; subst;
    unfold Double.executeMarket;
    cbn [Double.asks Double.bids Double.keys map Double.sort fold_right
         Double.match_levels Double.m_remain Double.m_notional
         Double.m_trades Double.m_book fst snd Double.filled
         Double.avgPrice Double.trades];
    rewrite E1; repeat split; exact E0.
Qed.

(** C8, as the code has it.  For a finite size, on an empty opposite side
    [executeMarket] fills nothing, returns an average price of 0 and no
    trade, and leaves the book as it is: in exact arithmetic, and on the
    binary64 numbers of the program for every size that is neither [NaN]
    nor an infinity.  In general [filled] is the size of the trades, the
    average price is their notional over their size when [filled > 0], and
    0 otherwise (sums in exact arithmetic). *)
Theorem executeMarket_average (s : Side) (sz now0 : Q) (b : OrderBook)
    (dsz dnow : PrimFloat.float) (d : Double.OrderBook) :
  (opposite s b = PriceMap.empty ->
   filled (fst (executeMarket s sz now0 b)) == 0 /\
   avgPrice (fst (executeMarket s sz now0 b)) == 0 /\
   trades (fst (executeMarket s sz now0 b)) = [] /\
   snd (executeMarket s sz now0 b) = b) /\
  filled (fst (executeMarket s sz now0 b))
    == filled_size (trades (fst (executeMarket s sz now0 b))) /\
  (0 < filled (fst (executeMarket s sz now0 b)) ->
   avgPrice (fst (executeMarket s sz now0 b))
     == notional_of (trades (fst (executeMarket s sz now0 b)))
        / filled_size (trades (fst (executeMarket s sz now0 b)))) /\
  (~ 0 < filled (fst (executeMarket s sz now0 b)) ->
   avgPrice (fst (executeMarket s sz now0 b)) == 0) /\
  (match s with buy => Double.asks d | sell => Double.bids d end = [] ->
   PrimFloat.is_finite dsz = true ->
   (Double.filled (fst (Double.executeMarket s dsz dnow d)) =? 0)%float
   = true /\
   Double.avgPrice (fst (Double.executeMarket s dsz dnow d)) = 0%float /\
   Double.trades (fst (Double.executeMarket s dsz dnow d)) = [] /\
   snd (Double.executeMarket s dsz dnow d) = d).
Proof.
  split; [| split; [| split; [| split]]];
    [| | | | apply executeMarket_empty_binary64].
  - intro He. destruct b as [bi ak].
    destruct s; cbn [opposite bids asks] in He; subst; unfold executeMarket;
      cbn; (destruct (Qltb_reflect 0 (sz - sz)) as [H | H]; [lra |]);
      repeat split; try reflexivity; ring.
  - rewrite executeMarket_filled, executeMarket_trades.
    destruct (match_levels_trades s now0
                (sort (priceOrder s) (PriceMap.keys (opposite s b)))
                (mkMatch (opposite s b) sz 0 []))
      as [tn [Ht [_ [_ [_ Hr]]]]].
    cbn [m_trades m_remain app] in *. rewrite Ht, Hr. ring.
  - rewrite executeMarket_avgPrice, executeMarket_filled, executeMarket_trades.
    cbv zeta. intro Hpos.
    destruct (match_levels_trades s now0
                (sort (priceOrder s) (PriceMap.keys (opposite s b)))
                (mkMatch (opposite s b) sz 0 []))
      as [tn [Ht [_ [_ [Hn Hr]]]]].
    cbn [m_trades m_remain m_notional app] in *.
    destruct (Qltb_reflect 0 (sz - m_remain (match_levels s now0
                (sort (priceOrder s) (PriceMap.keys (opposite s b)))
                (mkMatch (opposite s b) sz 0 [])))) as [H | H];
      [| contradiction].
    rewrite Ht. rewrite Hn.
    assert (E : sz - m_remain (match_levels s now0
                (sort (priceOrder s) (PriceMap.keys (opposite s b)))
                (mkMatch (opposite s b) sz 0 [])) == filled_size tn).
    { rewrite Hr. ring. }
    rewrite E. rewrite E in H. field. lra.
  - rewrite executeMarket_avgPrice, executeMarket_filled. cbv zeta.
    intro Hn.
    destruct (Qltb_reflect 0 (sz - m_remain (match_levels s now0
                (sort (priceOrder s) (PriceMap.keys (opposite s b)))
                (mkMatch (opposite s b) sz 0 [])))) as [H | H];
      [contradiction | reflexivity].
Qed.

(** C4, as the code has it.  For finite sizes and a requested size [>= 0],
    in exact arithmetic, [filled] is at most the requested size, and the
    resting size that leaves the matched side is [filled] plus the rest, of
    at most 1e-7, of the one order that the 1e-7 rule takes out of its
    queue; it is [filled] when the aggressor is not filled in full. *)
Theorem executeMarket_conservation (s : Side) (sz now0 : Q) (b : OrderBook) :
  PriceMap.wf (opposite s b) -> 0 <= sz ->
  let r := executeMarket s sz now0 b in
  let removed := PriceMap.total_size (opposite s b)
                 - PriceMap.total_size (opposite s (snd r)) in
  filled (fst r) <= sz /\
  filled (fst r) <= removed /\ removed <= filled (fst r) + eps7 /\
  (filled (fst r) < sz -> removed == filled (fst r)).
Proof.
  intros Hwf H0. cbv zeta.
  rewrite executeMarket_opposite, executeMarket_filled.
  destruct (match_levels_conservation s now0
              (sort (priceOrder s) (PriceMap.keys (opposite s b)))
              (mkMatch (opposite s b) sz 0 []) Hwf H0)
    as [Hr [d [Hq [Hd0 [Hd1 Hd2]]]]].
  cbn [m_book m_remain] in Hq. rewrite Hq.
  split; [lra | split; [lra | split; [lra |]]].
  intro Hlt. assert (Hd : d == 0) by (apply Hd2; lra). lra.
Qed.

Lemma executeMarket_conservation_witness :
  let b := add (mkOrder "a" "sim" sell 1 1 0 limit) empty_book in
  let r := executeMarket buy (1 # 2) 0 b in
  let removed := PriceMap.total_size (opposite buy b)
                 - PriceMap.total_size (opposite buy (snd r)) in
  filled (fst r) <= 1 # 2 /\
  filled (fst r) <= removed /\ removed <= filled (fst r) + eps7 /\
  (filled (fst r) < 1 # 2 -> removed == filled (fst r)).
Proof.
  apply (executeMarket_conservation buy (1 # 2) 0
           (add (mkOrder "a" "sim" sell 1 1 0 limit) empty_book)).
  - vm_compute. constructor; [intro H; inversion H | constructor].
  - lra.
Defined.

(** C4 fails as stated.  A resting ask of size 1 and a buy of 0.99999995:
    0.99999995 is filled and the whole order, of size 1, leaves the book.
    For a requested size of -1, [filled] is 0, which is more.  In binary64
    the sums are rounded: with resting asks of 0.3 and 0.6 a buy of 1 returns
    a [filled] of 0.9 while the sizes that left the book add up to
    0.8999999999999999.  And a resting order of size [NaN] (a limit order
    that did not cross) makes [filled] [NaN], which is not [<=] the requested
    size. *)
Lemma executeMarket_conservation_counterexample :
  (let b := add (mkOrder "a" "sim" sell 1 1 0 limit) empty_book in
   (let r := executeMarket buy (99999995 # 100000000) 0 b in
    filled (fst r) == 99999995 # 100000000 /\
    PriceMap.total_size (asks b) - PriceMap.total_size (asks (snd r)) == 1 /\
    ~ PriceMap.total_size (asks b) - PriceMap.total_size (asks (snd r))
      == filled (fst r))
   /\
   (let r := executeMarket buy (- (1)) 0 b in
    filled (fst r) == 0 /\ ~ filled (fst r) <= - (1)))
  /\
  (let b := Double.add (Double.mkOrder "a2" "sim" sell 1.01 0.6 0 limit)
              (Double.add (Double.mkOrder "a1" "sim" sell 1 0.3 0 limit)
                 Double.empty_book) in
   let r := Double.executeMarket buy 1 0 b in
   let removed := (Double.total_size (Double.asks b)
                   - Double.total_size (Double.asks (snd r)))%float in
   (Double.filled (fst r) =? 0.9)%float = true /\
   (removed =? 0.8999999999999999)%float = true /\
   (removed =? Double.filled (fst r))%float = false /\
   (Double.filled (fst r) <=? removed)%float = false)
  /\
  (let b := snd (Double.placeAndMatch
                   (Double.mkOrder "a" "you" sell 1 PrimFloat.nan 0 limit) 0
                   Double.empty_book) in
   let r := Double.executeMarket buy 1 0 b in
   PrimFloat.is_nan (Double.filled (fst r)) = true /\
   (Double.filled (fst r) <=? 1)%float = false).
Proof.
  split; [| split].
  - cbv zeta. split.
    + assert (E1 : filled (fst (executeMarket buy (99999995 # 100000000) 0
                     (add (mkOrder "a" "sim" sell 1 1 0 limit) empty_book)))
                   == 99999995 # 100000000) by (vm_compute; reflexivity).
      assert (E2 : PriceMap.total_size
                     (asks (add (mkOrder "a" "sim" sell 1 1 0 limit)
                              empty_book))
                   - PriceMap.total_size
                       (asks (snd (executeMarket buy (99999995 # 100000000) 0
                          (add (mkOrder "a" "sim" sell 1 1 0 limit)
                             empty_book))))
                   == 1) by (vm_compute; reflexivity).
      repeat split; trivial. rewrite E1, E2. intro H. discriminate H.
    + assert (E : filled (fst (executeMarket buy (- (1)) 0
                    (add (mkOrder "a" "sim" sell 1 1 0 limit) empty_book)))
                  == 0) by (vm_compute; reflexivity).
      split; trivial. rewrite E. lra.
  - vm_compute. repeat split.
  - vm_compute. repeat split.
Qed.

(** ** Price-time priority *)

(** The level that is at least as good as every other is visited first. *)
Lemma sort_head_best (s : Side) (px : Q) (l : list Q) :
  InA Qeq px l -> (forall k, In k l -> better_eq s px k) ->
  exists y lv, sort (priceOrder s) l = y :: lv /\ y == px.
Proof.
  intros Hin Hbest.
  pose proof (sort_sorted s l) as Hs.
  apply (sort_InA (priceOrder s)) in Hin.
  destruct (sort (priceOrder s) l) as [| y lv] eqn:E; [inversion Hin |].
  exists y, lv. split; trivial.
  assert (Hy : In y l).
  { apply (Permutation_in y (sort_perm (priceOrder s) l)).
    rewrite E. now left. }
  apply (better_eq_antisym s); [| now apply Hbest].
  inversion Hin; subst.
  - apply better_eq_refl. now symmetry.
  - inversion Hs; subst. apply InA_alt in H0. destruct H0 as [z [Ez Hz]].
    rewrite Forall_forall in H3.
    apply (better_eq_trans s y z px); [now apply H3 |].
    apply better_eq_refl. now symmetry.
Qed.

Lemma sorted_before (s : Side) (l1 l2 : list Q) (y z : Q) :
  StronglySorted (better_eq s) (l1 ++ y :: l2) -> In z l1 -> better_eq s z y.
Proof.
  induction l1 as [| x l1 IH]; intros Hs Hin; [inversion Hin |].
  cbn [app] in Hs. inversion Hs; subst. destruct Hin as [-> | Hin].
  - rewrite Forall_forall in H2. apply H2. apply in_or_app. right. now left.
  - now apply IH.
Qed.

(** A queue [A :: B :: rest] and an aggressor of exactly the two sizes: two
    trades, the first for all of [A], the second for all of [B]. *)
Lemma match_queue_two (fuel : nat) (s : Side) (now0 px : Q) (A B : Order)
    (rest : list Order) (rem ntl : Q) (ts : list Trade) :
  0 < size A -> 0 < size B -> rem == size A + size B ->
  let r := match_queue (S (S fuel)) s now0 px
             (mkQueue (A :: B :: rest) rem ntl ts) in
  q_queue r = rest /\ q_remain r <= 0 /\
  exists tA tB,
    q_trades r = ts ++ [tA; tB] /\
    trade_size tA == size A /\ trade_size tB == size B /\
    trade_price tA = px /\ trade_price tB = px.
Proof.
  intros HA HB Hrem. cbv zeta.
  rewrite match_queue_S. cbn [q_queue q_remain q_notional q_trades].
  destruct (Qltb_reflect 0 rem) as [H0 | H0]; [| lra].
  cbv zeta. cbn [size with_size].
  assert (E1 : Qmin rem (size A) == size A) by (apply Q.min_r; lra).
  destruct (Qleb_reflect (size A - Qmin rem (size A)) eps7) as [H1 | H1];
    [| exfalso; apply H1; rewrite E1; unfold eps7; lra].
  rewrite match_queue_S. cbn [q_queue q_remain q_notional q_trades].
  destruct (Qltb_reflect 0 (rem - Qmin rem (size A))) as [H2 | H2];
    [| exfalso; apply H2; rewrite E1; lra].
  cbv zeta. cbn [size with_size].
  assert (E2 : Qmin (rem - Qmin rem (size A)) (size B) == size B).
  { apply Q.min_r. rewrite E1. lra. }
  destruct (Qleb_reflect
              (size B - Qmin (rem - Qmin rem (size A)) (size B)) eps7)
    as [H3 | H3]; [| exfalso; apply H3; rewrite E2; unfold eps7; lra].
  rewrite match_queue_no_remain;
    cbn [q_queue q_remain q_trades]; [| rewrite E2, E1; lra].
  split; [reflexivity |]. split; [rewrite E2, E1; lra |].
  eexists; eexists. rewrite <- app_assoc. cbn [app].
  split; [reflexivity |]. cbn [trade_size trade_price].
  repeat split; trivial.
Qed.

(** An aggressor of at most the size of the first order [A]: one trade, and
    every order behind [A] is as it was. *)
Lemma match_queue_one (fuel : nat) (s : Side) (now0 px : Q) (A : Order)
    (q : list Order) (rem ntl : Q) (ts : list Trade) :
  0 < rem -> rem <= size A ->
  let r := match_queue (S fuel) s now0 px (mkQueue (A :: q) rem ntl ts) in
  (q_queue r = q \/ exists sz, q_queue r = with_size A sz :: q) /\
  q_remain r <= 0 /\
  exists tA, q_trades r = ts ++ [tA] /\ trade_size tA == rem /\
             trade_price tA = px.
Proof.
  intros H0 HA. cbv zeta.
  rewrite match_queue_S. cbn [q_queue q_remain q_notional q_trades].
  destruct (Qltb_reflect 0 rem) as [H | H]; [| lra].
  cbv zeta. cbn [size with_size].
  assert (E1 : Qmin rem (size A) == rem) by (apply Q.min_l; lra).
  destruct (Qleb (size A - Qmin rem (size A)) eps7);
    (rewrite match_queue_no_remain;
       cbn [q_queue q_remain q_trades]; [| rewrite E1; lra]);
    (split; [| split; [rewrite E1; lra |]]).
  - now left.
  - eexists. split; [reflexivity |]. cbn [trade_size trade_price].
    now split.
  - right. eexists. reflexivity.
  - eexists. split; [reflexivity |]. cbn [trade_size trade_price].
    now split.
Qed.

Lemma match_levels_first_level (s : Side) (sz now0 : Q) (m : PriceMap.t)
    (px : Q) (q : list Order) :
  PriceMap.get px m = Some q ->
  (forall k, In k (PriceMap.keys m) -> better_eq s px k) ->
  0 < sz ->
  exists y,
    y == px /\
    (m_remain (match_level s now0 y (mkMatch m sz 0 [])) <= 0 ->
     match_levels s now0 (sort (priceOrder s) (PriceMap.keys m))
       (mkMatch m sz 0 [])
     = match_level s now0 y (mkMatch m sz 0 [])).
Proof.
  intros Hget Hbest Hsz.
  destruct (sort_head_best s px (PriceMap.keys m)) as [y [lv [E Ey]]];
    trivial.
  { now apply (PriceMapFacts.get_Some_key px q). }
  exists y. split; trivial. intro Hr.
  rewrite E, match_levels_cons. cbn [m_remain].
  destruct (Qleb_reflect sz 0); [lra |].
  now apply match_levels_no_remain.
Qed.

(** C5.  [executeMarket] consumes the opposite side in price-time priority.
    The trades come in the order of the levels, best price for the aggressor
    first; every level loses orders from its front only; a level is touched
    only when every strictly better level is gone.  In particular, for two
    orders [A] then [B] at the best price, an aggressor of the two sizes
    fills all of [A], then all of [B], and an aggressor of at most the size
    of [A] leaves [B] as it was. *)
Theorem executeMarket_price_time_priority (s : Side) (sz now0 : Q)
    (b : OrderBook) :
  PriceMap.wf (opposite s b) ->
  let r := executeMarket s sz now0 b in
  StronglySorted (better_eq s) (map trade_price (trades (fst r))) /\
  (forall px,
     consumed_front (or_empty (PriceMap.get px (opposite s b)))
       (or_empty (PriceMap.get px (opposite s (snd r))))) /\
  (forall p1 p2,
     InA Qeq p1 (PriceMap.keys (opposite s b)) ->
     InA Qeq p2 (PriceMap.keys (opposite s b)) ->
     better s p1 p2 ->
     PriceMap.get p1 (opposite s (snd r)) <> None ->
     PriceMap.get p2 (opposite s (snd r)) = PriceMap.get p2 (opposite s b)) /\
  (forall px A B rest,
     PriceMap.get px (opposite s b) = Some (A :: B :: rest) ->
     (forall k, In k (PriceMap.keys (opposite s b)) -> better_eq s px k) ->
     0 < size A -> 0 < size B ->
     (sz == size A + size B ->
      or_empty (PriceMap.get px (opposite s (snd r))) = rest /\
      exists tA tB,
        trades (fst r) = [tA; tB] /\
        trade_size tA == size A /\ trade_size tB == size B /\
        trade_price tA == px /\ trade_price tB == px) /\
     (0 < sz -> sz <= size A ->
      (or_empty (PriceMap.get px (opposite s (snd r))) = B :: rest \/
       exists sA,
         or_empty (PriceMap.get px (opposite s (snd r)))
         = with_size A sA :: B :: rest) /\
      exists tA,
        trades (fst r) = [tA] /\ trade_size tA == sz /\
        trade_price tA == px)).
Proof.
  intro Hwf. cbv zeta.
  rewrite executeMarket_opposite, executeMarket_trades.
  set (levels := sort (priceOrder s) (PriceMap.keys (opposite s b))).
  set (st0 := mkMatch (opposite s b) sz 0 []).
  assert (Hnd : NoDupA Qeq levels) by now apply sort_NoDupA.
  split; [| split; [| split]].
  - destruct (match_levels_trades s now0 levels st0)
      as [tn [Ht [_ [Hs _]]]].
    rewrite Ht. cbn [st0 m_trades app]. apply Hs. apply sort_sorted.
  - intro px. now apply (match_levels_front s now0 levels st0 px).
  - intros p1 p2 H1 H2 Hb Hs.
    apply (sort_InA (priceOrder s)) in H1, H2. fold levels in H1, H2.
    destruct (InA_split H1) as [l1 [y [l2 [Ey El]]]].
    rewrite El in *.
    rewrite (PriceMapFacts.get_compat p1 y _ Ey) in Hs.
    apply InA_app in H2. destruct H2 as [H2 | H2].
    + exfalso. apply InA_alt in H2. destruct H2 as [z [Ez Hz]].
      pose proof (sorted_before s l1 l2 y z) as Hzy.
      rewrite <- El in Hzy. specialize (Hzy (sort_sorted s _) Hz).
      unfold better, better_eq in *. destruct s; lra.
    + inversion H2; subst.
      * exfalso. unfold better in Hb. destruct s; lra.
      * now apply (match_levels_priority s now0 l1 l2 y p2 st0).
  - intros px A B rest Hget Hbest HA HB. split.
    + intro Hsz.
      destruct (match_levels_first_level s sz now0 (opposite s b) px _
                  Hget Hbest) as [y [Ey Hy]]; [lra |].
      fold levels st0 in Hy.
      assert (Hgy : PriceMap.get y (m_book st0) = Some (A :: B :: rest)).
      { now rewrite (PriceMapFacts.get_compat y px _ Ey). }
      pose proof (match_level_get_same s now0 y st0) as Hsame.
      pose proof (match_level_eq s now0 y st0) as Heq.
      rewrite Hgy in Hsame, Heq. cbn [or_empty] in Hsame, Heq.
      destruct (match_queue_two (S (length rest)) s now0 y A B rest sz 0 []
                  HA HB Hsz) as [Hq [Hr [tA [tB [Ht [HsA [HsB [HpA HpB]]]]]]]].
      change (S (S (S (length rest)))) with (queue_fuel (A :: B :: rest)) in *.
      cbn [st0 m_remain m_notional m_trades] in Hsame, Heq.
      rewrite Hy; [| rewrite Heq; exact Hr].
      rewrite (PriceMapFacts.get_compat px y _ (Qeq_sym _ _ Ey)).
      rewrite Hsame. split; trivial.
      exists tA, tB. rewrite Heq. cbn [m_trades]. rewrite Ht.
      repeat split; trivial; (rewrite HpA || rewrite HpB); exact Ey.
    + intros Hpos Hle.
      destruct (match_levels_first_level s sz now0 (opposite s b) px _
                  Hget Hbest Hpos) as [y [Ey Hy]].
      fold levels st0 in Hy.
      assert (Hgy : PriceMap.get y (m_book st0) = Some (A :: B :: rest)).
      { now rewrite (PriceMapFacts.get_compat y px _ Ey). }
      pose proof (match_level_get_same s now0 y st0) as Hsame.
      pose proof (match_level_eq s now0 y st0) as Heq.
      rewrite Hgy in Hsame, Heq. cbn [or_empty] in Hsame, Heq.
      destruct (match_queue_one (S (S (length rest))) s now0 y A (B :: rest)
                  sz 0 [] Hpos Hle) as [Hq [Hr [tA [Ht [HsA HpA]]]]].
      change (S (S (S (length rest)))) with (queue_fuel (A :: B :: rest)) in *.
      cbn [st0 m_remain m_notional m_trades] in Hsame, Heq.
      rewrite Hy; [| rewrite Heq; exact Hr].
      rewrite (PriceMapFacts.get_compat px y _ (Qeq_sym _ _ Ey)).
      rewrite Hsame. split; trivial.
      exists tA. rewrite Heq. cbn [m_trades]. rewrite Ht.
      repeat split; trivial. rewrite HpA. exact Ey.
Qed.

(** ** [add], [bestBid], [bestAsk] *)

Lemma add_opposite (o : Order) (b : OrderBook) :
  opposite (side o) (add o b) = opposite (side o) b.
Proof. unfold add. destruct (side o); reflexivity. Qed.

Lemma add_own (o : Order) (b : OrderBook) :
  own (side o) (add o b) =
  PriceMap.set (roundTick (price o))
    (or_empty (PriceMap.get (roundTick (price o)) (own (side o) b))
     ++ [with_price o (roundTick (price o))])
    (own (side o) b).
Proof. unfold add. destruct (side o); reflexivity. Qed.

(** The order rests last in the queue of its level. *)
Lemma add_rests_last (o : Order) (b : OrderBook) :
  PriceMap.get (roundTick (price o)) (own (side o) (add o b)) =
  Some (or_empty (PriceMap.get (roundTick (price o)) (own (side o) b))
        ++ [with_price o (roundTick (price o))]).
Proof. rewrite add_own. apply PriceMapFacts.get_set_same. Qed.

Lemma add_keys (o : Order) (b : OrderBook) (k : Q) :
  InA Qeq k (PriceMap.keys (own (side o) (add o b))) ->
  k == roundTick (price o) \/ InA Qeq k (PriceMap.keys (own (side o) b)).
Proof.
  rewrite add_own.
  destruct (PriceMap.get (roundTick (price o)) (own (side o) b)) eqn:G.
  - rewrite (PriceMapFacts.keys_set_present _ _ _ _ G). now right.
  - rewrite (PriceMapFacts.keys_set_absent _ _ _ G). intro H.
    apply InA_app in H. destruct H as [H | H]; [now right |].
    inversion H; subst; [now left | inversion H1].
Qed.

Lemma Qmin_either (a b : Q) : Qmin a b = a \/ Qmin a b = b.
Proof.
  unfold Qmin, GenericMinMax.gmin. destruct (a ?= b); auto.
Qed.

Lemma Qmax_either (a b : Q) : Qmax a b = a \/ Qmax a b = b.
Proof.
  unfold Qmax, GenericMinMax.gmax. destruct (a ?= b); auto.
Qed.

Lemma Math_min_spec (ks : list Q) (k : Q) :
  In (Math_min k ks) (k :: ks) /\
  forall x, In x (k :: ks) -> Math_min k ks <= x.
Proof.
  unfold Math_min. revert k. induction ks as [| a ks IH]; intro k.
  - simpl. split; [now left |]. intros x [-> | []]. lra.
  - cbn [fold_left]. destruct (IH (Qmin k a)) as [Hin Hle]. split.
    + destruct Hin as [E | Hin]; [| right; now right].
      rewrite <- E. destruct (Qmin_either k a) as [-> | ->];
        [now left | right; now left].
    + intros x Hx.
      assert (Hm : fold_left Qmin ks (Qmin k a) <= Qmin k a).
      { apply Hle. now left. }
      pose proof (Q.le_min_l k a). pose proof (Q.le_min_r k a).
      destruct Hx as [<- | [<- | Hx]]; try lra.
      apply Hle. now right.
Qed.

Lemma Math_max_spec (ks : list Q) (k : Q) :
  In (Math_max k ks) (k :: ks) /\
  forall x, In x (k :: ks) -> x <= Math_max k ks.
Proof.
  unfold Math_max. revert k. induction ks as [| a ks IH]; intro k.
  - simpl. split; [now left |]. intros x [-> | []]. lra.
  - cbn [fold_left]. destruct (IH (Qmax k a)) as [Hin Hle]. split.
    + destruct Hin as [E | Hin]; [| right; now right].
      rewrite <- E. destruct (Qmax_either k a) as [-> | ->];
        [now left | right; now left].
    + intros x Hx.
      assert (Hm : Qmax k a <= fold_left Qmax ks (Qmax k a)).
      { apply Hle. now left. }
      pose proof (Q.le_max_l k a). pose proof (Q.le_max_r k a).
      destruct Hx as [<- | [<- | Hx]]; try lra.
      apply Hle. now right.
Qed.

(** [bestOpp] is a level of the opposite side, at least as good for the
    aggressor as every level of that side. *)
Lemma bestOpp_Some (s : Side) (b : OrderBook) (opp : Q) :
  bestOpp s b = Some opp ->
  In opp (PriceMap.keys (opposite s b)) /\
  forall y, InA Qeq y (PriceMap.keys (opposite s b)) -> better_eq s opp y.
Proof.
  unfold bestOpp, bestAsk, bestBid. destruct s; cbn [opposite better_eq].
  - destruct (PriceMap.keys (asks b)) as [| k ks]; [discriminate |].
    intro H. injection H as <-. destruct (Math_min_spec ks k) as [Hin Hle].
    split; trivial. intros y Hy. apply InA_alt in Hy.
    destruct Hy as [z [Ez Hz]]. rewrite Ez. now apply Hle.
  - destruct (PriceMap.keys (bids b)) as [| k ks]; [discriminate |].
    intro H. injection H as <-. destruct (Math_max_spec ks k) as [Hin Hle].
    split; trivial. intros y Hy. apply InA_alt in Hy.
    destruct Hy as [z [Ez Hz]]. rewrite Ez. now apply Hle.
Qed.

Lemma bestOpp_None (s : Side) (b : OrderBook) :
  bestOpp s b = None -> opposite s b = [].
Proof.
  unfold bestOpp, bestAsk, bestBid, PriceMap.keys.
  destruct s; cbn [opposite].
  - destruct (asks b); [reflexivity | discriminate].
  - destruct (bids b); [reflexivity | discriminate].
Qed.

(** The test of [placeAndMatch], as a proposition. *)
Lemma crosses_test (o : Order) (b : OrderBook) :
  match bestOpp (side o) b with
  | None => false
  | Some opp =>
      match side o with
      | buy => Qleb opp (price o)
      | sell => Qleb (price o) opp
      end
  end = true <-> crosses o b.
Proof.
  unfold crosses. destruct (bestOpp (side o) b) as [opp |].
  - unfold better_eq. destruct (side o).
    + destruct (Qleb_reflect opp (price o)); split; intro H;
        try discriminate; trivial.
      * now exists opp.
      * destruct H as [x [E Hx]]. injection E as <-. contradiction.
    + destruct (Qleb_reflect (price o) opp); split; intro H;
        try discriminate; trivial.
      * now exists opp.
      * destruct H as [x [E Hx]]. injection E as <-. contradiction.
  - split; [discriminate |]. intros [x [E _]]. discriminate.
Qed.

Lemma placeAndMatch_eq (o : Order) (now0 : Q) (b : OrderBook) :
  placeAndMatch o now0 b =
  match kind o with
  | market =>
      (mkPlace (trades (fst (executeMarket (side o) (size o) now0 b))) None,
       snd (executeMarket (side o) (size o) now0 b))
  | limit =>
      if match bestOpp (side o) b with
         | None => false
         | Some opp =>
             match side o with
             | buy => Qleb opp (price o)
             | sell => Qleb (price o) opp
             end
         end
      then
        let ex := executeMarket (side o) (size o) now0 b in
        if Qltb eps8 (size o - filled (fst ex)) then
          (mkPlace (trades (fst ex))
             (Some (with_size o (size o - filled (fst ex)))),
           add (with_size o (size o - filled (fst ex))) (snd ex))
        else (mkPlace (trades (fst ex)) None, snd ex)
      else (mkPlace [] (Some o), add o b)
  end.
Proof.
  unfold placeAndMatch, bestOpp.
  destruct (executeMarket (side o) (size o) now0 b) as [res b1].
  reflexivity.
Qed.

(** ** [placeAndMatch] *)

(** C6, as the code has it.  A market order goes through [executeMarket] and
    nothing is added to the book.  A limit order that crosses goes through
    [executeMarket] for its full size; a remainder of more than 1e-8 becomes
    a new resting order, last at its level, and is returned as [remaining];
    a remainder of at most 1e-8 is dropped.  A limit order that does not
    cross rests last at its level, with no trade and the opposite side as it
    was. *)
Theorem placeAndMatch_routing (o : Order) (now0 : Q) (b : OrderBook) :
  let ex := executeMarket (side o) (size o) now0 b in
  let pm := placeAndMatch o now0 b in
  let px := roundTick (price o) in
  let rem := size o - filled (fst ex) in
  (kind o = market ->
   p_trades (fst pm) = trades (fst ex) /\ remaining (fst pm) = None /\
   snd pm = snd ex /\ own (side o) (snd pm) = own (side o) b) /\
  (kind o = limit -> crosses o b ->
   p_trades (fst pm) = trades (fst ex) /\
   (eps8 < rem ->
    remaining (fst pm) = Some (with_size o rem) /\
    snd pm = add (with_size o rem) (snd ex) /\
    opposite (side o) (snd pm) = opposite (side o) (snd ex) /\
    PriceMap.get px (own (side o) (snd pm))
    = Some (or_empty (PriceMap.get px (own (side o) b))
            ++ [with_price (with_size o rem) px])) /\
   (rem <= eps8 -> remaining (fst pm) = None /\ snd pm = snd ex)) /\
  (kind o = limit -> ~ crosses o b ->
   p_trades (fst pm) = [] /\ remaining (fst pm) = Some o /\
   snd pm = add o b /\
   opposite (side o) (snd pm) = opposite (side o) b /\
   PriceMap.get px (own (side o) (snd pm))
   = Some (or_empty (PriceMap.get px (own (side o) b))
           ++ [with_price o px])).
Proof.
  cbv zeta. rewrite placeAndMatch_eq. split; [| split].
  - intro Hk. rewrite Hk. cbn [fst snd p_trades remaining].
    repeat split. apply executeMarket_own.
  - intros Hk Hc. rewrite Hk. apply crosses_test in Hc. rewrite Hc.
    cbv zeta.
    destruct (Qltb_reflect eps8
                (size o - filled (fst (executeMarket (side o) (size o) now0 b))))
      as [Hr | Hr]; cbn [fst snd p_trades remaining].
    + split; [reflexivity |]. split; [| intro; lra].
      intros _. repeat split.
      * apply (add_opposite (with_size o _)).
      * pose proof (add_rests_last
                      (with_size o (size o - filled
                         (fst (executeMarket (side o) (size o) now0 b))))
                      (snd (executeMarket (side o) (size o) now0 b))) as H.
        cbn [side price with_size] in H.
        now rewrite executeMarket_own in H.
    + split; [reflexivity |]. split; [intro; contradiction |].
      intros _. split; reflexivity.
  - intros Hk Hc. rewrite Hk.
    destruct (match bestOpp (side o) b with
              | None => false
              | Some opp =>
                  match side o with
                  | buy => Qleb opp (price o)
                  | sell => Qleb (price o) opp
                  end
              end) eqn:E.
    + apply crosses_test in E. contradiction.
    + cbn [fst snd p_trades remaining]. repeat split.
      * apply add_opposite.
      * apply add_rests_last.
Qed.

Lemma placeAndMatch_routing_witness :
  let b := add (mkOrder "a" "sim" sell 1 1 0 limit) empty_book in
  let o := mkOrder "b" "you" buy 1 3 0 limit in
  p_trades (fst (placeAndMatch o 0 b))
  = trades (fst (executeMarket buy 3 0 b)) /\
  snd (placeAndMatch o 0 b)
  = add (with_size o (3 - filled (fst (executeMarket buy 3 0 b))))
      (snd (executeMarket buy 3 0 b)).
Proof.
  cbv zeta.
  destruct (placeAndMatch_routing (mkOrder "b" "you" buy 1 3 0 limit) 0
              (add (mkOrder "a" "sim" sell 1 1 0 limit) empty_book))
    as [_ [H _]].
  destruct H as [Ht [Hr _]].
  - reflexivity.
  - exists (roundTick 1). split; [reflexivity |]. vm_compute. discriminate.
  - split; [exact Ht |]. apply Hr. vm_compute. reflexivity.
Defined.

(** C6 fails as stated.  A resting ask of size 1 at 1.00 and a limit buy of
    size 1.000000005 at 1.00: the order crosses, 1 is filled, and the
    remainder of 0.000000005 is neither returned as [remaining] nor added to
    the book. *)
Lemma placeAndMatch_routing_counterexample :
  let b := add (mkOrder "a" "sim" sell 1 1 0 limit) empty_book in
  let o := mkOrder "b" "you" buy 1 (1000000005 # 1000000000) 0 limit in
  crosses o b /\
  0 < size o - filled (fst (executeMarket buy (size o) 0 b)) /\
  remaining (fst (placeAndMatch o 0 b)) = None /\
  bids (snd (placeAndMatch o 0 b)) = [].
Proof.
  cbv zeta. split; [| split; [| split]].
  - exists (roundTick 1). split; [reflexivity |]. vm_compute. discriminate.
  - vm_compute. reflexivity.
  - vm_compute. reflexivity.
  - vm_compute. reflexivity.
Qed.

(** C9.  A crossing limit order is not protected by its price: a limit buy
    at 1.00 for 2, on asks of 1 at 1.00 and 1 at 1.01, trades at 1.01; a
    limit sell at 1.00 for 2, on bids of 1 at 1.00 and 1 at 0.99, trades at
    0.99. *)
Theorem placeAndMatch_no_price_protection :
  (exists b o now0 t,
     kind o = limit /\ side o = buy /\ crosses o b /\
     In t (p_trades (fst (placeAndMatch o now0 b))) /\
     price o < trade_price t) /\
  (exists b o now0 t,
     kind o = limit /\ side o = sell /\ crosses o b /\
     In t (p_trades (fst (placeAndMatch o now0 b))) /\
     trade_price t < price o).
Proof.
  split.
  - exists (add (mkOrder "a2" "sim" sell (101 # 100) 1 0 limit)
              (add (mkOrder "a1" "sim" sell 1 1 0 limit) empty_book)).
    exists (mkOrder "b" "you" buy 1 2 0 limit), 0.
    exists (mkTrade 0 (roundTick (101 # 100)) 1 buy).
    repeat split.
    + exists (roundTick 1). split; [reflexivity |]. vm_compute. discriminate.
    + vm_compute. right. now left.
  - exists (add (mkOrder "b2" "sim" buy (99 # 100) 1 0 limit)
              (add (mkOrder "b1" "sim" buy 1 1 0 limit) empty_book)).
    exists (mkOrder "a" "you" sell 1 2 0 limit), 0.
    exists (mkTrade 0 (roundTick (99 # 100)) 1 sell).
    repeat split.
    + exists (roundTick 1). split; [reflexivity |]. vm_compute. discriminate.
    + vm_compute. right. now left.
Qed.

(** ** No resting cross *)

Lemma roundTick_comp (p q : Q) : p == q -> roundTick p == roundTick q.
Proof.
  intro H. unfold roundTick, Math_round.
  now rewrite (Qfloor_comp (p / TICK + (1 # 2)) (q / TICK + (1 # 2)))
    by (rewrite H; reflexivity).
Qed.

Lemma roundTick_mono (p q : Q) : p <= q -> roundTick p <= roundTick q.
Proof.
  intro H. unfold roundTick, Math_round, TICK.
  assert (Hf : (Qfloor (p / (1 # 100) + (1 # 2))
                <= Qfloor (q / (1 # 100) + (1 # 2)))%Z).
  { apply Qfloor_resp_le.
    assert (E : forall z, z / (1 # 100) == 100 * z) by (intro; field).
    rewrite !E. lra. }
  rewrite Zle_Qle in Hf. lra.
Qed.

Lemma Qfloor_half (m : Z) : Qfloor (inject_Z m + (1 # 2)) = m.
Proof.
  pose proof (Qfloor_le (inject_Z m + (1 # 2))) as Hle.
  assert (H1 : (m <= Qfloor (inject_Z m + (1 # 2)))%Z).
  { rewrite <- (Qfloor_Z m) at 1. apply Qfloor_resp_le. lra. }
  assert (H2 : (Qfloor (inject_Z m + (1 # 2)) < m + 1)%Z).
  { rewrite Zlt_Qlt, inject_Z_plus. change (inject_Z 1) with 1. lra. }
  lia.
Qed.

Lemma roundTick_idem (p : Q) : roundTick (roundTick p) == roundTick p.
Proof.
  unfold roundTick at 1. unfold Math_round.
  assert (E : roundTick p / TICK + (1 # 2)
              == inject_Z (Qfloor (p / TICK + (1 # 2))) + (1 # 2)).
  { unfold roundTick, Math_round, TICK. field. }
  rewrite (Qfloor_comp _ _ E), Qfloor_half. reflexivity.
Qed.

Lemma executeMarket_keys (s : Side) (sz now0 : Q) (b : OrderBook) (k : Q) :
  InA Qeq k (PriceMap.keys (opposite s (snd (executeMarket s sz now0 b)))) ->
  InA Qeq k (PriceMap.keys (opposite s b)).
Proof.
  rewrite executeMarket_opposite. intro H.
  now apply match_levels_keys in H.
Qed.

(** An aggressor that is not exhausted has emptied the opposite side. *)
Lemma executeMarket_unfilled (s : Side) (sz now0 : Q) (b : OrderBook) :
  0 < sz - filled (fst (executeMarket s sz now0 b)) ->
  opposite s (snd (executeMarket s sz now0 b)) = [].
Proof.
  rewrite executeMarket_filled, executeMarket_opposite. intro Hr.
  set (levels := sort (priceOrder s) (PriceMap.keys (opposite s b))) in *.
  set (st0 := mkMatch (opposite s b) sz 0 []) in *.
  assert (Hrem : 0 < m_remain (match_levels s now0 levels st0)) by lra.
  destruct (m_book (match_levels s now0 levels st0)) as [| [k q] m] eqn:E;
    [reflexivity |].
  exfalso.
  assert (Hk : InA Qeq k
                 (PriceMap.keys (m_book (match_levels s now0 levels st0)))).
  { rewrite E. now left. }
  apply match_levels_keys in Hk. cbn [st0 m_book] in Hk.
  apply (sort_InA (priceOrder s)) in Hk. fold levels in Hk.
  pose proof (match_levels_unfilled s now0 levels st0 k Hrem Hk) as Hn.
  rewrite E in Hn. cbn [PriceMap.get] in Hn.
  rewrite PriceMapFacts.Qeq_bool_true in Hn; [discriminate | reflexivity].
Qed.

Section Ordered.

Variable R : Q -> Q -> Prop.
Hypothesis R_comp : forall x x' y y', x == x' -> y == y' -> R x y -> R x' y'.

Lemma bids_asks_side (s : Side) (b : OrderBook) :
  bids_asks R b <->
  forall x y,
    InA Qeq x (PriceMap.keys (own s b)) ->
    InA Qeq y (PriceMap.keys (opposite s b)) -> side_rel R s x y.
Proof.
  unfold bids_asks, side_rel. destruct s; cbn [own opposite].
  - reflexivity.
  - split; intros H x y Hx Hy; now apply H.
Qed.

Lemma executeMarket_bids_asks (s : Side) (sz now0 : Q) (b : OrderBook) :
  bids_asks R b -> bids_asks R (snd (executeMarket s sz now0 b)).
Proof.
  rewrite !(bids_asks_side s). intros H x y Hx Hy.
  rewrite executeMarket_own in Hx. apply executeMarket_keys in Hy.
  now apply H.
Qed.

Lemma add_bids_asks (o : Order) (b : OrderBook) :
  bids_asks R b ->
  (forall y, InA Qeq y (PriceMap.keys (opposite (side o) b)) ->
             side_rel R (side o) (roundTick (price o)) y) ->
  bids_asks R (add o b).
Proof.
  rewrite !(bids_asks_side (side o)). intros H Hnew x y Hx Hy.
  rewrite add_opposite in Hy. apply add_keys in Hx.
  destruct Hx as [E | Hx]; [| now apply H].
  specialize (Hnew y Hy). unfold side_rel in *.
  destruct (side o);
    [apply (R_comp (roundTick (price o)) x y y)
    | apply (R_comp y y (roundTick (price o)) x)];
    trivial; try reflexivity; now symmetry.
Qed.

(** [placeAndMatch] keeps the order of the two sides when the price at which
    an order that does not cross rests is in order with the opposite side. *)
Lemma placeAndMatch_bids_asks (o : Order) (now0 : Q) (b : OrderBook) :
  (kind o = limit -> ~ crosses o b ->
   forall y, InA Qeq y (PriceMap.keys (opposite (side o) b)) ->
             side_rel R (side o) (roundTick (price o)) y) ->
  bids_asks R b -> bids_asks R (snd (placeAndMatch o now0 b)).
Proof.
  intros Hrest Hb. rewrite placeAndMatch_eq. destruct (kind o) eqn:Hk.
  - destruct (match bestOpp (side o) b with
              | None => false
              | Some opp =>
                  match side o with
                  | buy => Qleb opp (price o)
                  | sell => Qleb (price o) opp
                  end
              end) eqn:Hc.
    + cbv zeta.
      destruct (Qltb_reflect eps8
                  (size o - filled (fst (executeMarket (side o) (size o)
                                           now0 b)))) as [Hr | Hr];
        cbn [snd]; [| now apply executeMarket_bids_asks].
      apply add_bids_asks; [now apply executeMarket_bids_asks |].
      cbn [side price with_size]. intros y Hy.
      rewrite executeMarket_unfilled in Hy; [inversion Hy |].
      unfold eps8 in Hr. lra.
    + cbn [snd]. apply add_bids_asks; trivial.
      apply Hrest; trivial. intro H. apply crosses_test in H. congruence.
  - cbn [snd]. now apply executeMarket_bids_asks.
Qed.

End Ordered.

(** An order that does not cross is strictly better priced than no level of
    the opposite side. *)
Lemma not_crosses (o : Order) (b : OrderBook) (y : Q) :
  ~ crosses o b ->
  InA Qeq y (PriceMap.keys (opposite (side o) b)) ->
  better (side o) (price o) y.
Proof.
  intros Hc Hy.
  destruct (bestOpp (side o) b) as [opp |] eqn:Hopp.
  - destruct (bestOpp_Some _ _ _ Hopp) as [_ Hbest]. specialize (Hbest y Hy).
    assert (Hn : ~ better_eq (side o) opp (price o)).
    { intro H. apply Hc. now exists opp. }
    unfold better, better_eq in *. destruct (side o); lra.
  - rewrite (bestOpp_None _ _ Hopp) in Hy. inversion Hy.
Qed.




Lemma Qlt_comp4 (x x' y y' : Q) : x == x' -> y == y' -> x < y -> x' < y'.
Proof. intros. lra. Qed.


(** Orders with prices on the grid: the two sides stay strictly apart. *)
Lemma fold_call_strict (cs : list Call) (b : OrderBook) :
  Forall placed_on_tick cs -> bids_asks Qlt b ->
  bids_asks Qlt (fold_left call cs b).
Proof.
  revert b. induction cs as [| c cs IH]; intros b Hcs Hb; trivial.
  inversion Hcs; subst. cbn [fold_left]. apply IH; trivial.
  destruct c as [o | o now0]; cbn [placed_on_tick call] in *; [contradiction |].
  apply (placeAndMatch_bids_asks Qlt Qlt_comp4); trivial.
  intros Hk Hc y Hy. specialize (H1 Hk).
  pose proof (not_crosses o b y Hc Hy) as Hbt.
  unfold side_rel, better in *. destruct (side o); lra.
Qed.



(** ** The order of binary64 numbers and the book over them *)

(** The comparisons of binary64 numbers, from the specification of the
    primitive operations: [<], [<=] and [==] are the order of the places,
    and false on [NaN]. *)
Section FloatFacts.
Import SpecFloat FloatOrder.
Local Open Scope Z_scope.

Lemma compare_rank (x y : spec_float) :
  x <> S754_nan -> y <> S754_nan ->
  (SFcompare x y = Some Lt <-> lt3 x y) /\
  (SFcompare x y = Some Eq <-> eq3 x y) /\
  (SFcompare x y = Some Gt <-> lt3 y x).
Proof.
  intros Hx Hy. unfold lt3, eq3.
  destruct x as [sx | sx | | sx mx ex]; try congruence;
    destruct y as [sy | sy | | sy my ey]; try congruence;
    try destruct sx; try destruct sy; cbn [SFcompare r1 r2 r3];
    try (repeat split; intros; try discriminate; try lia; reflexivity).
  - (* both negative *)
    destruct (Z.compare_spec ex ey) as [E | E | E].
    + subst. fold (Pos.compare mx my).
      destruct (Pos.compare_spec mx my) as [F | F | F]; cbn [CompOpp];
        repeat split; intros; try discriminate; try lia; try reflexivity;
        try congruence.
    + repeat split; intros; try discriminate; try lia; reflexivity.
    + repeat split; intros; try discriminate; try lia; reflexivity.
  - destruct (Z.compare_spec ex ey) as [E | E | E].
    + subst. fold (Pos.compare mx my).
      destruct (Pos.compare_spec mx my) as [F | F | F];
        repeat split; intros; try discriminate; try lia; try reflexivity;
        try congruence.
    + repeat split; intros; try discriminate; try lia; reflexivity.
    + repeat split; intros; try discriminate; try lia; reflexivity.
Qed.

Lemma nan_dec (x : spec_float) : x = S754_nan \/ x <> S754_nan.
Proof. destruct x; (now left) || (right; discriminate). Qed.

Lemma compare_nan (x y : spec_float) :
  x = S754_nan \/ y = S754_nan -> SFcompare x y = None.
Proof. intros [E | E]; subst; [reflexivity | now destruct x]. Qed.

Lemma SF_zero : SF 0%float = S754_zero false.
Proof. vm_compute. reflexivity. Qed.

Lemma ltb_iff (x y : PrimFloat.float) :
  (x <? y)%float = true <-> num x /\ num y /\ lt3 (SF x) (SF y).
Proof.
  rewrite FloatAxioms.ltb_spec. unfold SFltb, num. fold (SF x) (SF y).
  destruct (nan_dec (SF x)) as [Ex | Ex];
    [rewrite compare_nan by (now left); intuition congruence |].
  destruct (nan_dec (SF y)) as [Ey | Ey];
    [rewrite compare_nan by (now right); intuition congruence |].
  destruct (compare_rank (SF x) (SF y) Ex Ey) as [H1 [H2 H3]].
  destruct (SFcompare (SF x) (SF y)) as [[| |] |];
    unfold lt3, eq3 in *; intuition (try congruence; try lia).
Qed.

Lemma leb_iff (x y : PrimFloat.float) :
  (x <=? y)%float = true <->
  num x /\ num y /\ (lt3 (SF x) (SF y) \/ eq3 (SF x) (SF y)).
Proof.
  rewrite FloatAxioms.leb_spec. unfold SFleb, num. fold (SF x) (SF y).
  destruct (nan_dec (SF x)) as [Ex | Ex];
    [rewrite compare_nan by (now left); intuition congruence |].
  destruct (nan_dec (SF y)) as [Ey | Ey];
    [rewrite compare_nan by (now right); intuition congruence |].
  destruct (compare_rank (SF x) (SF y) Ex Ey) as [H1 [H2 H3]].
  destruct (SFcompare (SF x) (SF y)) as [[| |] |];
    unfold lt3, eq3 in *; intuition (try congruence; try lia).
Qed.

Lemma eqb_iff (x y : PrimFloat.float) :
  (x =? y)%float = true <-> num x /\ num y /\ eq3 (SF x) (SF y).
Proof.
  rewrite FloatAxioms.eqb_spec. unfold SFeqb, num. fold (SF x) (SF y).
  destruct (nan_dec (SF x)) as [Ex | Ex];
    [rewrite compare_nan by (now left); intuition congruence |].
  destruct (nan_dec (SF y)) as [Ey | Ey];
    [rewrite compare_nan by (now right); intuition congruence |].
  destruct (compare_rank (SF x) (SF y) Ex Ey) as [H1 [H2 H3]].
  destruct (SFcompare (SF x) (SF y)) as [[| |] |];
    unfold lt3, eq3 in *; intuition (try congruence; try lia).
Qed.

Lemma is_nan_iff (x : PrimFloat.float) :
  PrimFloat.is_nan x = true <-> ~ num x.
Proof.
  unfold PrimFloat.is_nan. rewrite negb_true_iff, <- not_true_iff_false, eqb_iff.
  unfold eq3. intuition.
Qed.

Lemma is_nan_false_iff (x : PrimFloat.float) :
  PrimFloat.is_nan x = false <-> num x.
Proof.
  rewrite <- not_true_iff_false, is_nan_iff. unfold num.
  destruct (nan_dec (SF x)); intuition.
Qed.

(** Every comparison of the context and of the goal, as a statement on the
    places of its numbers. *)
Ltac fprop :=
  repeat match goal with
  | H : PrimFloat.is_nan _ = false |- _ => rewrite is_nan_false_iff in H
  | H : PrimFloat.is_nan _ = true |- _ => rewrite is_nan_iff in H
  | H : PrimFloat.ltb _ _ = false |- _ => rewrite <- not_true_iff_false, ltb_iff in H
  | H : PrimFloat.leb _ _ = false |- _ => rewrite <- not_true_iff_false, leb_iff in H
  | H : PrimFloat.eqb _ _ = false |- _ => rewrite <- not_true_iff_false, eqb_iff in H
  | H : PrimFloat.ltb _ _ = true |- _ => rewrite ltb_iff in H
  | H : PrimFloat.leb _ _ = true |- _ => rewrite leb_iff in H
  | H : PrimFloat.eqb _ _ = true |- _ => rewrite eqb_iff in H
  end;
  rewrite <- ?not_true_iff_false;
  rewrite ?is_nan_false_iff, ?is_nan_iff, ?ltb_iff, ?leb_iff, ?eqb_iff;
  unfold lt3, eq3 in *.




Lemma ltb_leb (x y : PrimFloat.float) :
  (x <? y)%float = true -> (x <=? y)%float = true.
Proof. intros H1. fprop. intuition lia. Qed.


Lemma leb_total (x y : PrimFloat.float) :
  PrimFloat.is_nan x = false -> PrimFloat.is_nan y = false ->
  (x <? y)%float = false -> (y <=? x)%float = true.
Proof. intros H1 H2 H3. fprop. intuition lia. Qed.








Lemma ltb_num (x y : PrimFloat.float) :
  (x <? y)%float = true ->
  PrimFloat.is_nan x = false /\ PrimFloat.is_nan y = false.
Proof. intros H1. fprop. intuition. Qed.

(** *** Subtraction *)

Lemma digits2_pos_bounds (m : positive) :
  2 ^ (Zpos (digits2_pos m) - 1) <= Zpos m < 2 ^ Zpos (digits2_pos m).
Proof.
  induction m as [p IH | p IH |]; cbn [digits2_pos].
  - rewrite Pos2Z.inj_succ. set (d := Zpos (digits2_pos p)) in *.
    assert (E : 2 ^ d = 2 * 2 ^ (d - 1)).
    { replace d with (Z.succ (d - 1)) at 1 by lia. apply Z.pow_succ_r. lia. }
    replace (Z.succ d - 1) with d by lia. rewrite Z.pow_succ_r by lia. lia.
  - rewrite Pos2Z.inj_succ. set (d := Zpos (digits2_pos p)) in *.
    assert (E : 2 ^ d = 2 * 2 ^ (d - 1)).
    { replace d with (Z.succ (d - 1)) at 1 by lia. apply Z.pow_succ_r. lia. }
    replace (Z.succ d - 1) with d by lia. rewrite Z.pow_succ_r by lia. lia.
  - cbn. lia.
Qed.

(** A mantissa of binary64 is below 2^53, and from 2^52 on above the least
    exponent. *)
Lemma valid_finite (s : bool) (m : positive) (e : Z) :
  valid_binary FloatOps.prec FloatOps.emax (S754_finite s m e) = true ->
  Zpos m < 2 ^ 53 /\ (-1074 < e -> 2 ^ 52 <= Zpos m) /\ -1074 <= e.
Proof.
  cbn [valid_binary]. unfold bounded, canonical_mantissa, fexp, emin.
  rewrite andb_true_iff, Z.eqb_eq. intros [H _].
  change FloatOps.prec with 53 in H. change FloatOps.emax with 1024 in H.
  pose proof (digits2_pos_bounds m) as [B1 B2].
  set (d := Zpos (digits2_pos m)) in *.
  assert (Hd : d <= 53) by lia.
  split; [| split].
  - apply Z.lt_le_trans with (1 := B2). apply Z.pow_le_mono_r; lia.
  - intro He. assert (d = 53) by lia. subst d.
    replace 52 with (Zpos (digits2_pos m) - 1) by lia. exact B1.
  - lia.
Qed.

Lemma iter_xO (m d : positive) :
  Zpos (Pos.iter xO m d) = Zpos m * 2 ^ Zpos d.
Proof.
  pose proof (Zpower.shift_pos_correct d m) as H. unfold Zpower.shift_pos in H.
  rewrite H. change (Z.pow_pos 2 d) with (2 ^ Zpos d). lia.
Qed.

Lemma binary_round_sign (m : positive) (e : Z) :
  0 <= r1 (binary_round FloatOps.prec FloatOps.emax false m e).
Proof.
  unfold binary_round, binary_round_aux.
  destruct (shl_align _ _ _) as [mz ez].
  destruct (shr_fexp _ _ _ _ _) as [mrs1 e1].
  destruct (shr_fexp _ _ _ _ _) as [mrs2 e2].
  destruct (shr_m mrs2); [cbn; lia | destruct (Z.leb _ _); cbn; lia | cbn; lia].
Qed.

Lemma binary_normalize_sign (z e : Z) :
  0 <= z -> 0 <= r1 (binary_normalize FloatOps.prec FloatOps.emax z e false).
Proof.
  intro H. destruct z; cbn [binary_normalize].
  - cbn. lia.
  - apply binary_round_sign.
  - lia.
Qed.

(** Of two mantissas of binary64, the one with the lower exponent is the
    lower one after alignment. *)
Lemma aligned_le (m1 m2 : positive) (e1 e2 : Z) (s1 s2 : bool) :
  valid_binary FloatOps.prec FloatOps.emax (S754_finite s1 m1 e1) = true ->
  valid_binary FloatOps.prec FloatOps.emax (S754_finite s2 m2 e2) = true ->
  e1 < e2 \/ (e1 = e2 /\ Zpos m1 < Zpos m2) ->
  Zpos (fst (shl_align m1 e1 (Z.min e2 e1))) <=
  Zpos (fst (shl_align m2 e2 (Z.min e2 e1))) /\
  Zpos (fst (shl_align m1 e1 (Z.min e1 e2))) <=
  Zpos (fst (shl_align m2 e2 (Z.min e1 e2))).
Proof.
  intros V1 V2 H.
  apply valid_finite in V1, V2.
  rewrite (Z.min_comm e2 e1).
  assert (Em : Z.min e1 e2 = e1) by lia. rewrite Em.
  unfold shl_align. rewrite Z.sub_diag.
  destruct (e1 - e2) eqn:E; cbn [fst]; try lia.
  rewrite iter_xO.
  assert (2 ^ 1 <= 2 ^ Zpos p) by (apply Z.pow_le_mono_r; lia).
  assert (2 ^ 53 = 2 ^ 52 * 2 ^ 1) by reflexivity.
  nia.
Qed.

Lemma sub_lt_sign (x y : spec_float) :
  valid_binary FloatOps.prec FloatOps.emax x = true ->
  valid_binary FloatOps.prec FloatOps.emax y = true ->
  x <> S754_nan -> y <> S754_nan -> lt3 y x ->
  0 <= r1 (FloatAxioms.SF64sub x y).
Proof.
  intros Vx Vy Hx Hy H. unfold lt3 in H.
  unfold FloatAxioms.SF64sub, SFsub.
  destruct x as [sx | sx | | sx mx ex]; try congruence;
    destruct y as [sy | sy | | sy my ey]; try congruence;
    try destruct sx; try destruct sy; cbn [r1 r2 r3 negb] in *; try lia.
  - (* both negative *)
    cbv zeta. apply binary_normalize_sign. cbn [cond_Zopp].
    destruct (aligned_le mx my ex ey true true Vx Vy) as [_ A]; lia.
  - cbv zeta. apply binary_normalize_sign. cbn [cond_Zopp]. lia.
  - cbv zeta. apply binary_normalize_sign. cbn [cond_Zopp].
    destruct (aligned_le my mx ey ex false false Vy Vx) as [A _]; lia.
Qed.


Lemma sub_eq3 (x y : spec_float) :
  eq3 x y -> nan_or_zero (FloatAxioms.SF64sub x y).
Proof.
  unfold eq3, FloatAxioms.SF64sub, SFsub.
  destruct x as [sx | sx | | sx mx ex]; destruct y as [sy | sy | | sy my ey];
    try destruct sx; try destruct sy; cbn [r1 r2 r3 nan_or_zero];
    intros [H1 [H2 H3]]; try lia; try exact I.
  - assert (ex = ey) by lia. assert (mx = my) by congruence. subst.
    cbv zeta. rewrite Z.sub_diag. exact I.
  - assert (ex = ey) by lia. assert (mx = my) by congruence. subst.
    cbv zeta. rewrite Z.sub_diag. exact I.
Qed.

Lemma sub_zero_r (x y : spec_float) :
  r1 x <> 0 -> (exists s, y = S754_zero s) -> FloatAxioms.SF64sub x y = x.
Proof.
  intros H [s E]. subst. destruct x as [sx | sx | | sx mx ex]; cbn in *;
    congruence.
Qed.

End FloatFacts.

(** The numbers of the loops of [executeMarket]: what is left to fill, and
    the size that is left of the head of a queue. *)
Section DoubleFacts.
Import SpecFloat FloatOrder.
Local Open Scope Z_scope.

Lemma SF_sub (x y : PrimFloat.float) :
  SF (x - y)%float = FloatAxioms.SF64sub (SF x) (SF y).
Proof. apply FloatAxioms.sub_spec. Qed.

Lemma SF_nan : SF PrimFloat.nan = S754_nan.
Proof. vm_compute. reflexivity. Qed.

Lemma ltb_zero_iff (x : PrimFloat.float) :
  (x <? 0)%float = true <-> r1 (SF x) < 0.
Proof.
  rewrite ltb_iff. unfold num, lt3. rewrite SF_zero.
  destruct (SF x) as [s | s | | s m e]; try destruct s; cbn [r1 r2 r3];
    intuition (try congruence; try lia).
Qed.






Lemma sub_nonneg (a b : PrimFloat.float) :
  (b <? a)%float = true -> ((a - b) <? 0)%float = false.
Proof.
  intro H. rewrite <- not_true_iff_false, ltb_zero_iff, SF_sub.
  apply ltb_iff in H. destruct H as [Hb [Ha H]].
  pose proof (sub_lt_sign (SF a) (SF b) (FloatAxioms.Prim2SF_valid a)
                (FloatAxioms.Prim2SF_valid b) Ha Hb H).
  lia.
Qed.


Lemma sub_eqb (a b : PrimFloat.float) :
  (a =? b)%float = true -> nan_or_zero (SF (a - b)%float).
Proof.
  intro H. apply eqb_iff in H. rewrite SF_sub. now apply sub_eq3.
Qed.



Lemma Math_max_cases (a b : PrimFloat.float) :
  SF (Double.Math_max a b) = S754_nan \/
  (Double.Math_max a b = a /\ (b <=? a)%float = true) \/
  (Double.Math_max a b = b /\ (a <=? b)%float = true).
Proof.
  unfold Double.Math_max.
  destruct (PrimFloat.is_nan a) eqn:Ea; [left; exact SF_nan |].
  destruct (PrimFloat.is_nan b) eqn:Eb; [left; exact SF_nan |].
  cbn [orb]. right.
  destruct (a <? b)%float eqn:E1; [right; split; trivial; now apply ltb_leb |].
  destruct (b <? a)%float eqn:E2; [left; split; trivial; now apply ltb_leb |].
  destruct (PrimFloat.get_sign a); [right | left]; split; trivial;
    now apply leb_total.
Qed.








End DoubleFacts.

(** The book: the levels that [executeMarket] and [add] leave, and the
    order of the keys of the two sides. *)
Section DoubleBook.
Import SpecFloat FloatOrder Double.
Local Open Scope float_scope.










(** *** The inner loop *)






(** *** The levels *)









(** *** [executeMarket], [add] and the best prices *)










(** *** The book stays uncrossed *)







End DoubleBook.




Lemma executeMarket_average_witness :
  (filled (fst (executeMarket buy 1 0 empty_book)) == 0 /\
   avgPrice (fst (executeMarket buy 1 0 empty_book)) == 0 /\
   trades (fst (executeMarket buy 1 0 empty_book)) = [] /\
   snd (executeMarket buy 1 0 empty_book) = empty_book) /\
  (let b := add (mkOrder "a2" "sim" sell (102 # 100) 1 0 limit)
              (add (mkOrder "a1" "sim" sell 1 1 0 limit) empty_book) in
   avgPrice (fst (executeMarket buy 2 0 b))
   == notional_of (trades (fst (executeMarket buy 2 0 b)))
      / filled_size (trades (fst (executeMarket buy 2 0 b)))) /\
  (let r := Double.executeMarket buy 0.3 0 Double.empty_book in
   (Double.filled (fst r) =? 0)%float = true /\
   Double.avgPrice (fst r) = 0%float /\
   Double.trades (fst r) = [] /\
   snd r = Double.empty_book).
Proof.
  split; [| split].
  - apply (proj1 (executeMarket_average buy 1 0 empty_book 0%float 0%float
                    Double.empty_book)).
    reflexivity.
  - cbv zeta.
    apply (proj1 (proj2 (proj2 (executeMarket_average buy 2 0
             (add (mkOrder "a2" "sim" sell (102 # 100) 1 0 limit)
                (add (mkOrder "a1" "sim" sell 1 1 0 limit) empty_book))
             0%float 0%float Double.empty_book)))).
    vm_compute. reflexivity.
  - cbv zeta.
    apply (proj2 (proj2 (proj2 (proj2 (executeMarket_average buy 0 0
             empty_book 0.3%float 0%float Double.empty_book)))));
      reflexivity.
Defined.

(** C8 fails as stated.  [executeMarket] has no test for a size that is not
    a number.  For the size [NaN] (what [Math.max(0.01, parseFloat(""))] of
    the size field gives) or [Infinity], on an empty opposite side, no test
    of the loops holds, and [filled], which is [size - remain], is [NaN]
    and not 0; the average price is 0 and there is no trade. *)
Lemma executeMarket_average_counterexample :
  (let r := Double.executeMarket buy PrimFloat.nan 0 Double.empty_book in
   PrimFloat.is_nan (Double.filled (fst r)) = true /\
   (Double.filled (fst r) =? 0)%float = false /\
   (Double.avgPrice (fst r) =? 0)%float = true /\
   Double.trades (fst r) = [] /\ snd r = Double.empty_book)
  /\
  (let r := Double.executeMarket sell PrimFloat.infinity 0 Double.empty_book in
   PrimFloat.is_nan (Double.filled (fst r)) = true /\
   (Double.filled (fst r) =? 0)%float = false).
Proof. vm_compute. repeat split. Qed.

Lemma executeMarket_price_time_priority_witness :
  let b := add (mkOrder "B" "sim" sell 1 2 0 limit)
             (add (mkOrder "A" "sim" sell 1 1 0 limit)
                (add (mkOrder "C" "sim" sell (101 # 100) 1 0 limit)
                   empty_book)) in
  let r := executeMarket buy 3 0 b in
  StronglySorted (better_eq buy) (map trade_price (trades (fst r))) /\
  or_empty (PriceMap.get (roundTick 1) (asks (snd r))) = [] /\
  exists tA tB,
    trades (fst r) = [tA; tB] /\
    trade_size tA == 1 /\ trade_size tB == 2 /\
    trade_price tA == roundTick 1 /\ trade_price tB == roundTick 1.
Proof.
  cbv zeta.
  destruct (executeMarket_price_time_priority buy 3 0
              (add (mkOrder "B" "sim" sell 1 2 0 limit)
                 (add (mkOrder "A" "sim" sell 1 1 0 limit)
                    (add (mkOrder "C" "sim" sell (101 # 100) 1 0 limit)
                       empty_book))))
    as [H1 [_ [_ H4]]].
  - vm_compute. repeat constructor; intro H; inversion H; subst;
      try discriminate; match goal with X : InA _ _ [] |- _ => inversion X end.
  - split; [exact H1 |].
    destruct (H4 (roundTick 1)
                (mkOrder "A" "sim" sell (roundTick 1) 1 0 limit)
                (mkOrder "B" "sim" sell (roundTick 1) 2 0 limit) [])
      as [Htwo _].
    + vm_compute. reflexivity.
    + intros k [<- | [<- | []]]; vm_compute; discriminate.
    + reflexivity.
    + reflexivity.
    + apply Htwo. reflexivity.
Defined.

(** ** Reachable books hold every price once *)

Lemma add_wf (o : Order) (b : OrderBook) :
  PriceMap.wf (bids b) /\ PriceMap.wf (asks b) ->
  PriceMap.wf (bids (add o b)) /\ PriceMap.wf (asks (add o b)).
Proof.
  intros [Hb Ha]. unfold add.
  destruct (side o); cbn [bids asks]; split; trivial;
    now apply PriceMapFacts.wf_set.
Qed.

Lemma executeMarket_wf (s : Side) (sz now0 : Q) (b : OrderBook) :
  PriceMap.wf (bids b) /\ PriceMap.wf (asks b) ->
  PriceMap.wf (bids (snd (executeMarket s sz now0 b))) /\
  PriceMap.wf (asks (snd (executeMarket s sz now0 b))).
Proof.
  intros [Hb Ha].
  pose proof (executeMarket_opposite s sz now0 b) as Ho.
  pose proof (executeMarket_own s sz now0 b) as Hw.
  destruct s; cbn [opposite own] in Ho, Hw; rewrite Ho, Hw; split; trivial;
    now apply match_levels_wf.
Qed.

Lemma placeAndMatch_wf (o : Order) (now0 : Q) (b : OrderBook) :
  PriceMap.wf (bids b) /\ PriceMap.wf (asks b) ->
  PriceMap.wf (bids (snd (placeAndMatch o now0 b))) /\
  PriceMap.wf (asks (snd (placeAndMatch o now0 b))).
Proof.
  intro H. rewrite placeAndMatch_eq. destruct (kind o).
  - destruct (match bestOpp (side o) b with
              | None => false
              | Some opp =>
                  match side o with
                  | buy => Qleb opp (price o)
                  | sell => Qleb (price o) opp
                  end
              end).
    + cbv zeta. destruct (Qltb eps8 _); cbn [snd].
      * now apply add_wf, executeMarket_wf.
      * now apply executeMarket_wf.
    + cbn [snd]. now apply add_wf.
  - cbn [snd]. now apply executeMarket_wf.
Qed.

Lemma run_wf (cs : list Call) :
  PriceMap.wf (bids (run cs)) /\ PriceMap.wf (asks (run cs)).
Proof.
  unfold run.
  assert (H : PriceMap.wf (bids empty_book) /\ PriceMap.wf (asks empty_book))
    by (split; apply PriceMapFacts.wf_nil).
  revert H. generalize empty_book.
  induction cs as [| c cs IH]; intros b H; trivial.
  cbn [fold_left]. apply IH. destruct c as [o | o now0]; cbn [call].
  - now apply add_wf.
  - now apply placeAndMatch_wf.
Qed.

(** * The rest of the module *)

(** ** Queues that a level may hold *)

Lemma entries_get (P : list Order -> Prop) (px : Q) (q : list Order)
    (m : PriceMap.t) :
  Forall (fun kq => P (snd kq)) m -> PriceMap.get px m = Some q -> P q.
Proof.
  induction 1 as [| [k q0] m Hk Hm IH]; simpl; [discriminate |].
  destruct (Qeq_bool px k); intro H; [| now apply IH].
  now injection H as <-.
Qed.

Lemma entries_set (P : list Order -> Prop) (px : Q) (q : list Order)
    (m : PriceMap.t) :
  Forall (fun kq => P (snd kq)) m -> P q ->
  Forall (fun kq => P (snd kq)) (PriceMap.set px q m).
Proof.
  intros Hm Hq. induction Hm as [| [k q0] m Hk Hm IH]; simpl.
  - now constructor.
  - destruct (Qeq_bool px k); constructor; trivial.
Qed.

Lemma entries_delete (P : list Order -> Prop) (px : Q) (m : PriceMap.t) :
  Forall (fun kq => P (snd kq)) m ->
  Forall (fun kq => P (snd kq)) (PriceMap.delete px m).
Proof.
  induction 1 as [| [k q0] m Hk Hm IH]; simpl; [constructor |].
  destruct (Qeq_bool px k); trivial. now constructor.
Qed.

Lemma queue_size_pos (q : list Order) :
  Forall (fun o => 0 < size o) q -> 0 <= PriceMap.queue_size q.
Proof.
  induction 1 as [| o q Ho Hq IH]; simpl; [lra |].
  fold (PriceMap.queue_size q). lra.
Qed.

Lemma total_size_pos (m : PriceMap.t) :
  Forall (fun kq => queue_ok (snd kq)) m -> 0 <= PriceMap.total_size m.
Proof.
  induction 1 as [| [k q] m [_ Hk] Hm IH]; simpl; [lra |].
  fold (PriceMap.total_size m). pose proof (queue_size_pos q Hk). lra.
Qed.

(** The inner loop keeps the sizes of the resting orders positive, and its
    trades have a positive size. *)
Lemma match_queue_pos (fuel : nat) (s : Side) (now0 px : Q)
    (st : QueueState) :
  Forall (fun o => 0 < size o) (q_queue st) ->
  Forall (fun t => 0 < trade_size t) (q_trades st) ->
  Forall (fun o => 0 < size o) (q_queue (match_queue fuel s now0 px st)) /\
  Forall (fun t => 0 < trade_size t) (q_trades (match_queue fuel s now0 px st)).
Proof.
  revert st. induction fuel as [| fuel IH]; intros st Hq Ht; [now split |].
  rewrite match_queue_S. destruct (q_queue st) as [| head rest] eqn:Eq.
  - rewrite Eq. now split.
  - destruct (Qltb_reflect 0 (q_remain st)) as [Hr | Hr];
      [| rewrite Eq; now split].
    cbv zeta. cbn [size with_size]. inversion Hq; subst.
    assert (Hts : 0 < Qmin (q_remain st) (size head))
      by now apply Q.min_glb_lt.
    assert (Ht' : Forall (fun t => 0 < trade_size t)
                    (q_trades st
                     ++ [mkTrade now0 px (Qmin (q_remain st) (size head)) s])).
    { apply Forall_app. split; trivial. now repeat constructor. }
    destruct (Qleb_reflect (size head - Qmin (q_remain st) (size head)) eps7)
      as [Hd | Hd]; apply IH; cbn [q_queue q_trades]; trivial.
    constructor; trivial. cbn [size with_size]. unfold eps7 in Hd. lra.
Qed.

(** One level, then all of them: the queues stay as a level may hold them,
    and the trades have a positive size. *)
Lemma match_level_ok (s : Side) (now0 px : Q) (st : MatchState) :
  Forall (fun kq => queue_ok (snd kq)) (m_book st) ->
  Forall (fun t => 0 < trade_size t) (m_trades st) ->
  Forall (fun kq => queue_ok (snd kq)) (m_book (match_level s now0 px st)) /\
  Forall (fun t => 0 < trade_size t) (m_trades (match_level s now0 px st)).
Proof.
  intros Hb Ht. rewrite match_level_eq. cbn [m_book m_trades].
  set (q := or_empty (PriceMap.get px (m_book st))).
  assert (Hq : Forall (fun o => 0 < size o) q).
  { subst q. destruct (PriceMap.get px (m_book st)) as [q0 |] eqn:G;
      [| constructor].
    now destruct (entries_get queue_ok px q0 _ Hb G). }
  destruct (match_queue_pos (queue_fuel q) s now0 px
              (mkQueue q (m_remain st) (m_notional st) (m_trades st)) Hq Ht)
    as [Hq' Ht'].
  split; trivial.
  destruct (q_queue _) as [| h q'] eqn:E.
  - now apply entries_delete.
  - apply entries_set; trivial. split; [discriminate | trivial].
Qed.

Lemma match_levels_ok (s : Side) (now0 : Q) (levels : list Q)
    (st : MatchState) :
  Forall (fun kq => queue_ok (snd kq)) (m_book st) ->
  Forall (fun t => 0 < trade_size t) (m_trades st) ->
  Forall (fun kq => queue_ok (snd kq))
    (m_book (match_levels s now0 levels st)) /\
  Forall (fun t => 0 < trade_size t) (m_trades (match_levels s now0 levels st)).
Proof.
  revert st. induction levels as [| px levels IH]; intros st Hb Ht;
    [now split |].
  rewrite match_levels_cons. destruct (Qleb (m_remain st) 0); [now split |].
  destruct (match_level_ok s now0 px st Hb Ht) as [Hb' Ht'].
  now apply IH.
Qed.

Lemma executeMarket_side_ok (s : Side) (sz now0 : Q) (b : OrderBook) :
  side_ok (opposite s b) ->
  side_ok (opposite s (snd (executeMarket s sz now0 b))) /\
  Forall (fun t => 0 < trade_size t) (trades (fst (executeMarket s sz now0 b))).
Proof.
  intros [Hwf Hq]. rewrite executeMarket_opposite, executeMarket_trades.
  destruct (match_levels_ok s now0
              (sort (priceOrder s) (PriceMap.keys (opposite s b)))
              (mkMatch (opposite s b) sz 0 []) Hq) as [Hq' Ht'];
    [constructor |].
  split; trivial. split; trivial. now apply match_levels_wf.
Qed.

Lemma executeMarket_book_ok (s : Side) (sz now0 : Q) (b : OrderBook) :
  book_ok b -> book_ok (snd (executeMarket s sz now0 b)).
Proof.
  intros [Hb Ha].
  pose proof (executeMarket_own s sz now0 b) as Hw.
  pose proof (executeMarket_side_ok s sz now0 b) as Ho.
  unfold book_ok.
  destruct s; cbn [own opposite] in *; rewrite Hw; split; trivial;
    now apply Ho.
Qed.

Lemma add_book_ok (o : Order) (b : OrderBook) :
  0 < size o -> book_ok b -> book_ok (add o b).
Proof.
  intros Ho [[Hwb Hqb] [Hwa Hqa]].
  assert (Hnew : forall m,
            Forall (fun kq => queue_ok (snd kq)) m ->
            queue_ok (or_empty (PriceMap.get (roundTick (price o)) m)
                      ++ [with_price o (roundTick (price o))])).
  { intros m Hm. split.
    - intro E. apply app_eq_nil in E. destruct E as [_ E]. discriminate.
    - apply Forall_app. split; [| now repeat constructor].
      destruct (PriceMap.get _ m) as [q |] eqn:G; [| constructor].
      now destruct (entries_get queue_ok _ q _ Hm G). }
  unfold add, book_ok, side_ok.
  destruct (side o); cbn [bids asks]; repeat split; trivial;
    try (now apply PriceMapFacts.wf_set);
    (apply entries_set; [trivial | now apply Hnew]).
Qed.

Lemma placeAndMatch_book_ok (o : Order) (now0 : Q) (b : OrderBook) :
  0 < size o -> book_ok b -> book_ok (snd (placeAndMatch o now0 b)).
Proof.
  intros Ho Hb. rewrite placeAndMatch_eq. destruct (kind o).
  - destruct (match bestOpp (side o) b with
              | None => false
              | Some opp =>
                  match side o with
                  | buy => Qleb opp (price o)
                  | sell => Qleb (price o) opp
                  end
              end).
    + cbv zeta.
      destruct (Qltb_reflect eps8
                  (size o - filled (fst (executeMarket (side o) (size o)
                                           now0 b)))) as [Hr | Hr];
        cbn [snd]; [| now apply executeMarket_book_ok].
      apply add_book_ok; [| now apply executeMarket_book_ok].
      cbn [size with_size]. unfold eps8 in Hr. lra.
    + cbn [snd]. now apply add_book_ok.
  - cbn [snd]. now apply executeMarket_book_ok.
Qed.

(** ** [roundTick] on the grid *)

Lemma Qfloor_unique (x : Q) (z : Z) :
  inject_Z z <= x -> x < inject_Z (z + 1) -> Qfloor x = z.
Proof.
  intros H1 H2.
  pose proof (Qfloor_le x) as Hle. pose proof (Qlt_floor x) as Hlt.
  assert (Ha : (Qfloor x < z + 1)%Z).
  { rewrite Zlt_Qlt. lra. }
  assert (Hb : (z < Qfloor x + 1)%Z).
  { rewrite Zlt_Qlt. lra. }
  lia.
Qed.

Lemma Qfloor_shift (x : Q) (n : Z) :
  Qfloor (x + inject_Z n) = (Qfloor x + n)%Z.
Proof.
  apply Qfloor_unique.
  - rewrite inject_Z_plus. pose proof (Qfloor_le x). lra.
  - replace (Qfloor x + n + 1)%Z with ((Qfloor x + 1) + n)%Z by lia.
    rewrite inject_Z_plus. pose proof (Qlt_floor x). lra.
Qed.

Lemma roundTick_shift (p : Q) (n : Z) :
  roundTick (p + inject_Z n * TICK) == roundTick p + inject_Z n * TICK.
Proof.
  unfold roundTick, Math_round.
  assert (E : (p + inject_Z n * TICK) / TICK + (1 # 2)
              == (p / TICK + (1 # 2)) + inject_Z n).
  { unfold TICK. field. }
  rewrite (Qfloor_comp _ _ E), Qfloor_shift, inject_Z_plus. ring.
Qed.

Lemma roundTick_near (p : Q) :
  roundTick p - TICK / 2 <= p /\ p < roundTick p + TICK / 2.
Proof.
  unfold roundTick, Math_round.
  pose proof (Qfloor_le (p / TICK + (1 # 2))) as Hle.
  pose proof (Qlt_floor (p / TICK + (1 # 2))) as Hlt.
  rewrite inject_Z_plus in Hlt. change (inject_Z 1) with 1 in Hlt.
  set (f := inject_Z (Qfloor (p / TICK + (1 # 2)))) in *. clearbody f.
  assert (E : p / TICK == 100 * p) by (unfold TICK; field).
  rewrite E in Hle, Hlt. clear E.
  assert (Eh : TICK / 2 == 1 # 200) by reflexivity.
  rewrite Eh. unfold TICK. split; lra.
Qed.

(** ** [seedAround] *)

Lemma set_set (px : Q) (q q0 : list Order) (m : PriceMap.t) :
  PriceMap.set px q (PriceMap.set px q0 m) = PriceMap.set px q m.
Proof.
  induction m as [| [k q1] m IH]; simpl.
  - now rewrite PriceMapFacts.Qeq_bool_true.
  - destruct (Qeq_bool px k) eqn:E; simpl; rewrite E; trivial.
    now rewrite IH.
Qed.

Lemma seed_level_eq (px : Q) (o : Order) (m : PriceMap.t) :
  seed_level px o m =
  if Nat.ltb (length (or_empty (PriceMap.get px m))) 3
  then PriceMap.set px (or_empty (PriceMap.get px m) ++ [o]) m
  else m.
Proof.
  unfold seed_level. destruct (PriceMap.get px m) as [q |] eqn:G.
  - now rewrite G.
  - rewrite PriceMapFacts.get_set_same. cbn [or_empty length Nat.ltb Nat.leb].
    apply set_set.
Qed.

Lemma seed_level_get_same (px py : Q) (o : Order) (m : PriceMap.t) :
  py == px ->
  PriceMap.get py (seed_level px o m)
  = Some (topped_up (or_empty (PriceMap.get px m)) o).
Proof.
  intro E. rewrite (PriceMapFacts.get_compat py px _ E), seed_level_eq.
  unfold topped_up.
  destruct (Nat.ltb (length (or_empty (PriceMap.get px m))) 3) eqn:L.
  - apply PriceMapFacts.get_set_same.
  - destruct (PriceMap.get px m) as [q |] eqn:G; [reflexivity |].
    cbn in L. discriminate.
Qed.

Lemma seed_level_get_other (px py : Q) (o : Order) (m : PriceMap.t) :
  ~ py == px -> PriceMap.get py (seed_level px o m) = PriceMap.get py m.
Proof.
  intro E. rewrite seed_level_eq.
  destruct (Nat.ltb _ 3); trivial. now apply PriceMapFacts.get_set_other.
Qed.

Lemma seed_level_wf (px : Q) (o : Order) (m : PriceMap.t) :
  PriceMap.wf m -> PriceMap.wf (seed_level px o m).
Proof.
  intro H. rewrite seed_level_eq. destruct (Nat.ltb _ 3); trivial.
  now apply PriceMapFacts.wf_set.
Qed.

Lemma seed_level_queues (px : Q) (o : Order) (m : PriceMap.t) :
  0 < size o ->
  Forall (fun kq => queue_ok (snd kq)) m ->
  Forall (fun kq => queue_ok (snd kq)) (seed_level px o m).
Proof.
  intros Ho H. rewrite seed_level_eq. destruct (Nat.ltb _ 3); trivial.
  apply entries_set; trivial. split.
  - intro E. apply app_eq_nil in E. destruct E as [_ E]. discriminate.
  - apply Forall_app. split; [| now repeat constructor].
    destruct (PriceMap.get px m) as [q |] eqn:G; [| constructor].
    now destruct (entries_get queue_ok _ q _ H G).
Qed.

Lemma seed_level_keys (px : Q) (o : Order) (m : PriceMap.t) (k : Q) :
  InA Qeq k (PriceMap.keys (seed_level px o m)) ->
  k == px \/ InA Qeq k (PriceMap.keys m).
Proof.
  rewrite seed_level_eq. destruct (Nat.ltb _ 3); [| now right].
  destruct (PriceMap.get px m) as [q |] eqn:G.
  - rewrite (PriceMapFacts.keys_set_present _ _ _ _ G). now right.
  - rewrite (PriceMapFacts.keys_set_absent _ _ _ G). intro H.
    apply InA_app in H. destruct H as [H | H]; [now right |].
    inversion H; subst; [now left | inversion H1].
Qed.

(** The two sides of the loop. *)
Lemma seed_loop_sides (fuel : nat) (mid depth : Q)
    (draws : Z -> Draw * Draw) (i : Z) (b : OrderBook) :
  bids (seed_loop fuel mid depth draws i b)
  = seed_side fuel depth (bid_seed mid draws) i (bids b) /\
  asks (seed_loop fuel mid depth draws i b)
  = seed_side fuel depth (ask_seed mid draws) i (asks b).
Proof.
  revert i b. induction fuel as [| fuel IH]; intros i b; [now split |].
  cbn [seed_loop seed_side]. destruct (Qleb (inject_Z i) depth); [| now split].
  destruct (IH (i + 1)%Z (seed_step mid draws i b)) as [Hb Ha].
  rewrite Hb, Ha. now split.
Qed.

Section SeedSide.

Variables (depth : Q) (lv : Z -> Q * Order).

Lemma seed_side_S (fuel : nat) (i : Z) (m : PriceMap.t) :
  seed_side (S fuel) depth lv i m =
  if Qleb (inject_Z i) depth
  then seed_side fuel depth lv (i + 1)
         (seed_level (fst (lv i)) (snd (lv i)) m)
  else m.
Proof. reflexivity. Qed.

Lemma seed_side_get_other (fuel : nat) (i : Z) (m : PriceMap.t) (px : Q) :
  (forall j, (i <= j)%Z -> inject_Z j <= depth -> ~ px == fst (lv j)) ->
  PriceMap.get px (seed_side fuel depth lv i m) = PriceMap.get px m.
Proof.
  revert i m. induction fuel as [| fuel IH]; intros i m H; [reflexivity |].
  rewrite seed_side_S. destruct (Qleb_reflect (inject_Z i) depth) as [Hi | Hi];
    [| reflexivity].
  rewrite IH.
  - apply seed_level_get_other. apply H; [lia | trivial].
  - intros j Hj. apply H. lia.
Qed.

Hypothesis lv_distinct :
  forall i j, i <> j -> ~ fst (lv i) == fst (lv j).

Lemma seed_side_get_seeded (fuel : nat) (i j : Z) (m : PriceMap.t) :
  (i <= j < i + Z.of_nat fuel)%Z -> inject_Z j <= depth ->
  PriceMap.get (fst (lv j)) (seed_side fuel depth lv i m)
  = Some (topped_up (or_empty (PriceMap.get (fst (lv j)) m)) (snd (lv j))).
Proof.
  revert i m. induction fuel as [| fuel IH]; intros i m Hj Hd; [lia |].
  rewrite seed_side_S.
  assert (Hi : inject_Z i <= depth).
  { assert (H : inject_Z i <= inject_Z j) by (rewrite <- Zle_Qle; lia). lra. }
  destruct (Qleb_reflect (inject_Z i) depth); [| contradiction].
  destruct (Z.eq_dec i j) as [-> | Hne].
  - rewrite seed_side_get_other.
    + now apply seed_level_get_same.
    + intros k Hk _. apply lv_distinct. lia.
  - rewrite IH; [| lia | trivial].
    rewrite seed_level_get_other; trivial.
    apply lv_distinct. lia.
Qed.

End SeedSide.

Lemma seed_side_keys (depth : Q) (lv : Z -> Q * Order) (fuel : nat) (i : Z)
    (m : PriceMap.t) (k : Q) :
  InA Qeq k (PriceMap.keys (seed_side fuel depth lv i m)) ->
  InA Qeq k (PriceMap.keys m) \/
  exists j, (i <= j)%Z /\ inject_Z j <= depth /\ k == fst (lv j).
Proof.
  revert i m. induction fuel as [| fuel IH]; intros i m H; [now left |].
  rewrite seed_side_S in H.
  destruct (Qleb_reflect (inject_Z i) depth) as [Hi | Hi]; [| now left].
  apply IH in H. destruct H as [H | [j [Hj [Hd E]]]].
  - apply seed_level_keys in H. destruct H as [E | H]; [| now left].
    right. exists i. repeat split; trivial. lia.
  - right. exists j. repeat split; trivial. lia.
Qed.

Lemma seed_side_ok (depth : Q) (lv : Z -> Q * Order) (fuel : nat) (i : Z)
    (m : PriceMap.t) :
  (forall j, 0 < size (snd (lv j))) -> side_ok m ->
  side_ok (seed_side fuel depth lv i m).
Proof.
  intro Hlv. revert i m. induction fuel as [| fuel IH]; intros i m H; trivial.
  rewrite seed_side_S. destruct (Qleb (inject_Z i) depth); trivial.
  apply IH. destruct H as [Hw Hq]. split.
  - now apply seed_level_wf.
  - now apply seed_level_queues.
Qed.

Lemma bid_seed_distinct (mid : Q) (draws : Z -> Draw * Draw) (i j : Z) :
  i <> j -> ~ fst (bid_seed mid draws i) == fst (bid_seed mid draws j).
Proof.
  intros Hne E. cbn [bid_seed fst] in E.
  assert (Ei : roundTick (mid - inject_Z i * TICK)
               == roundTick mid + inject_Z (- i) * TICK).
  { rewrite <- roundTick_shift. apply roundTick_comp.
    rewrite inject_Z_opp. ring. }
  assert (Ej : roundTick (mid - inject_Z j * TICK)
               == roundTick mid + inject_Z (- j) * TICK).
  { rewrite <- roundTick_shift. apply roundTick_comp.
    rewrite inject_Z_opp. ring. }
  rewrite Ei, Ej in E. rewrite !inject_Z_opp in E. unfold TICK in E.
  assert (H : inject_Z i == inject_Z j) by lra.
  apply Hne. unfold Qeq in H. simpl in H. lia.
Qed.

Lemma ask_seed_distinct (mid : Q) (draws : Z -> Draw * Draw) (i j : Z) :
  i <> j -> ~ fst (ask_seed mid draws i) == fst (ask_seed mid draws j).
Proof.
  intros Hne E. cbn [ask_seed fst] in E.
  rewrite !roundTick_shift in E. unfold TICK in E.
  assert (H : inject_Z i == inject_Z j) by lra.
  apply Hne. unfold Qeq in H. simpl in H. lia.
Qed.

(** The iterations of [seedAround] are those of [i = 1 .. floor depth]. *)
Lemma seedAround_range (depth : Q) (j : Z) :
  (1 <= j)%Z -> inject_Z j <= depth ->
  (1 <= j < 1 + Z.of_nat (Z.to_nat (Qfloor depth)))%Z.
Proof.
  intros H1 Hd.
  assert (H : (j <= Qfloor depth)%Z).
  { rewrite <- (Qfloor_Z j). now apply Qfloor_resp_le. }
  lia.
Qed.

Lemma seed_loop_stop (fuel : nat) (mid depth : Q)
    (draws : Z -> Draw * Draw) (i : Z) (b : OrderBook) :
  depth < inject_Z i -> seed_loop fuel mid depth draws i b = b.
Proof.
  intro H. destruct fuel; [reflexivity |]. cbn [seed_loop].
  destruct (Qleb_reflect (inject_Z i) depth); [lra | reflexivity].
Qed.

Lemma seed_loop_more (a k : nat) (mid depth : Q)
    (draws : Z -> Draw * Draw) (i : Z) (b : OrderBook) :
  depth < inject_Z (i + Z.of_nat a) ->
  seed_loop (a + k) mid depth draws i b = seed_loop a mid depth draws i b.
Proof.
  revert i b. induction a as [| a IH]; intros i b H.
  - cbn [Nat.add seed_loop]. apply seed_loop_stop.
    now replace (i + Z.of_nat 0)%Z with i in H by lia.
  - cbn [Nat.add seed_loop]. destruct (Qleb (inject_Z i) depth); trivial.
    apply IH. now replace (i + 1 + Z.of_nat a)%Z with (i + Z.of_nat (S a))%Z
      by lia.
Qed.

(** The bound on the iterations of [seedAround] is never what stops the
    loop: with more of it the result is the same. *)
Lemma seedAround_steps (k : nat) (mid depth maxQty : Q)
    (draws : Z -> Draw * Draw) (b : OrderBook) :
  seed_loop (Z.to_nat (Qfloor depth) + k) mid depth draws 1 b
  = seedAround mid depth maxQty draws b.
Proof.
  unfold seedAround. apply seed_loop_more.
  pose proof (Qlt_floor depth) as H.
  assert (Hz : inject_Z (Qfloor depth + 1)
               <= inject_Z (1 + Z.of_nat (Z.to_nat (Qfloor depth)))).
  { rewrite <- Zle_Qle. lia. }
  lra.
Qed.

Lemma maker_size (s : Side) (px : Q) (d : Draw) :
  0 <= d_u d -> 1 <= size (maker s px d).
Proof. intro H. cbn [maker size]. unfold rnd. lra. Qed.

Lemma seedAround_book_ok (mid depth maxQty : Q) (draws : Z -> Draw * Draw)
    (b : OrderBook) :
  (forall i, 0 <= d_u (fst (draws i)) /\ 0 <= d_u (snd (draws i))) ->
  book_ok b -> book_ok (seedAround mid depth maxQty draws b).
Proof.
  intros Hd [Hb Ha]. unfold book_ok, seedAround.
  destruct (seed_loop_sides (Z.to_nat (Qfloor depth)) mid depth draws 1 b)
    as [Eb Ea].
  rewrite Eb, Ea. split; apply seed_side_ok; trivial; intro j;
    cbn [bid_seed ask_seed snd];
    [pose proof (maker_size buy (roundTick (mid - inject_Z j * TICK))
                   (fst (draws j)) (proj1 (Hd j)))
    | pose proof (maker_size sell (roundTick (mid + inject_Z j * TICK))
                    (snd (draws j)) (proj2 (Hd j)))]; lra.
Qed.

Lemma book_ok_empty : book_ok empty_book.
Proof. repeat split; constructor. Qed.

(** X1.  Every book reached from the empty book by [add], [placeAndMatch],
    [executeMarket] and [seedAround], with orders of positive size, holds
    each price once on a side, no level with an empty queue, and no resting
    order of size [<= 0]. *)
Theorem run_ops_book_ok (ops : list Op) :
  Forall op_sized ops -> book_ok (run_ops ops).
Proof.
  unfold run_ops. generalize book_ok_empty. generalize empty_book.
  induction ops as [| op ops IH]; intros b Hb Hops; trivial.
  inversion Hops; subst. cbn [fold_left]. apply IH; trivial.
  destruct op; cbn [apply_op op_sized] in *.
  - now apply add_book_ok.
  - now apply placeAndMatch_book_ok.
  - now apply executeMarket_book_ok.
  - now apply seedAround_book_ok.
Qed.

Lemma run_ops_book_ok_witness :
  book_ok (run_ops
    [OpSeedAround 1 3 20 (fun _ => (mkDraw "b" (1 # 2) 0, mkDraw "a" (1 # 4) 0));
     OpExecuteMarket buy (27 # 4) 0;
     OpPlaceAndMatch (mkOrder "x" "you" sell 1 30 0 limit) 0;
     OpAdd (mkOrder "y" "you" buy (1 # 2) 2 0 limit)]).
Proof.
  apply run_ops_book_ok.
  repeat constructor; cbn [op_sized size d_u fst snd]; lra.
Defined.


Lemma keys_best (s : Side) (b : OrderBook) (k : Q) :
  InA Qeq k (PriceMap.keys (opposite s b)) ->
  exists x, bestOpp s b = Some x.
Proof.
  unfold bestOpp, bestAsk, bestBid. destruct s; cbn [opposite];
    [destruct (PriceMap.keys (asks b)) | destruct (PriceMap.keys (bids b))];
    intro H; try (now inversion H); eexists; reflexivity.
Qed.

(** The best prices after [seedAround]. *)
Lemma seedAround_bests (mid depth maxQty : Q) (draws : Z -> Draw * Draw)
    (b : OrderBook) :
  1 <= depth ->
  let b' := seedAround mid depth maxQty draws b in
  exists x y,
    bestBid b' = Some x /\ bestAsk b' = Some y /\
    roundTick (mid - TICK) <= x /\ y <= roundTick (mid + TICK) /\
    (b = empty_book ->
     x == roundTick (mid - TICK) /\ y == roundTick (mid + TICK) /\
     y - x == 2 * TICK).
Proof.
  intro Hd. cbv zeta.
  assert (H1 : inject_Z 1 <= depth) by (change (inject_Z 1) with 1; lra).
  pose proof (seedAround_range depth 1 (Z.le_refl 1) H1) as Hr.
  assert (Eb1 : fst (bid_seed mid draws 1) == roundTick (mid - TICK)).
  { cbn [bid_seed fst]. apply roundTick_comp.
    change (inject_Z 1) with 1. ring. }
  assert (Ea1 : fst (ask_seed mid draws 1) == roundTick (mid + TICK)).
  { cbn [ask_seed fst]. apply roundTick_comp.
    change (inject_Z 1) with 1. ring. }
  unfold seedAround.
  destruct (seed_loop_sides (Z.to_nat (Qfloor depth)) mid depth draws 1 b)
    as [Eb Ea].
  set (b' := seed_loop (Z.to_nat (Qfloor depth)) mid depth draws 1 b) in *.
  assert (Kb : InA Qeq (fst (bid_seed mid draws 1)) (PriceMap.keys (bids b'))).
  { rewrite Eb. eapply PriceMapFacts.get_Some_key.
    apply seed_side_get_seeded; trivial. apply bid_seed_distinct. }
  assert (Ka : InA Qeq (fst (ask_seed mid draws 1)) (PriceMap.keys (asks b'))).
  { rewrite Ea. eapply PriceMapFacts.get_Some_key.
    apply seed_side_get_seeded; trivial. apply ask_seed_distinct. }
  destruct (keys_best sell b' _ Kb) as [x Hx].
  destruct (keys_best buy b' _ Ka) as [y Hy].
  destruct (bestOpp_Some sell b' x Hx) as [Hxin Hxbest].
  destruct (bestOpp_Some buy b' y Hy) as [Hyin Hybest].
  cbn [opposite better_eq] in *.
  pose proof (Hxbest _ Kb) as Hx1. pose proof (Hybest _ Ka) as Hy1.
  exists x, y. split; [exact Hx |]. split; [exact Hy |].
  split; [lra |]. split; [lra |].
  intros ->.
  assert (Hxle : x <= roundTick (mid - TICK)).
  { apply (In_InA Q_Setoid) in Hxin. rewrite Eb in Hxin.
    apply seed_side_keys in Hxin.
    destruct Hxin as [Hxin | [j [Hj [_ E]]]]; [inversion Hxin |].
    rewrite E. cbn [bid_seed fst]. apply roundTick_mono.
    assert (Hq : inject_Z 1 <= inject_Z j) by (rewrite <- Zle_Qle; lia).
    change (inject_Z 1) with 1 in Hq. unfold TICK. lra. }
  assert (Hyge : roundTick (mid + TICK) <= y).
  { apply (In_InA Q_Setoid) in Hyin. rewrite Ea in Hyin.
    apply seed_side_keys in Hyin.
    destruct Hyin as [Hyin | [j [Hj [_ E]]]]; [inversion Hyin |].
    rewrite E. cbn [ask_seed fst]. apply roundTick_mono.
    assert (Hq : inject_Z 1 <= inject_Z j) by (rewrite <- Zle_Qle; lia).
    change (inject_Z 1) with 1 in Hq. unfold TICK. lra. }
  assert (Ex : x == roundTick (mid - TICK)) by lra.
  assert (Ey : y == roundTick (mid + TICK)) by lra.
  split; [exact Ex |]. split; [exact Ey |].
  rewrite Ex, Ey.
  pose proof (roundTick_shift mid 1) as S1.
  pose proof (roundTick_shift mid (-1)) as S2.
  assert (C1 : roundTick (mid + TICK) == roundTick (mid + inject_Z 1 * TICK)).
  { apply roundTick_comp. change (inject_Z 1) with 1. ring. }
  assert (C2 : roundTick (mid - TICK) == roundTick (mid + inject_Z (-1) * TICK)).
  { apply roundTick_comp. change (inject_Z (-1)) with (-1 # 1). ring. }
  rewrite C1, C2, S1, S2.
  change (inject_Z 1) with 1. change (inject_Z (-1)) with (-1 # 1). ring.
Qed.



(** ** More on [executeMarket] *)

(** X4.  [executeMarket] for a size [<= 0] does nothing: no trade, nothing
    filled, an average price of 0, and the book as it was. *)
Theorem executeMarket_nonpositive (s : Side) (sz now0 : Q) (b : OrderBook) :
  sz <= 0 ->
  trades (fst (executeMarket s sz now0 b)) = [] /\
  filled (fst (executeMarket s sz now0 b)) == 0 /\
  avgPrice (fst (executeMarket s sz now0 b)) == 0 /\
  snd (executeMarket s sz now0 b) = b.
Proof.
  intro H. unfold executeMarket.
  rewrite match_levels_no_remain by (cbn [m_remain]; exact H).
  cbn [fst snd trades filled avgPrice m_trades m_remain m_book m_notional].
  destruct (Qltb_reflect 0 (sz - sz)); [lra |].
  repeat split; try reflexivity; try ring.
  destruct b, s; reflexivity.
Qed.

Lemma executeMarket_nonpositive_witness :
  trades (fst (executeMarket buy 0 0
                 (add (mkOrder "a" "sim" sell 1 1 0 limit) empty_book))) = [] /\
  snd (executeMarket buy 0 0
         (add (mkOrder "a" "sim" sell 1 1 0 limit) empty_book))
  = add (mkOrder "a" "sim" sell 1 1 0 limit) empty_book.
Proof.
  destruct (executeMarket_nonpositive buy 0 0
              (add (mkOrder "a" "sim" sell 1 1 0 limit) empty_book))
    as [Ht [_ [_ Hb]]]; [lra | now split].
Defined.







(** ** More on [roundTick], [add], [bestBid] and [bestAsk] *)

(** In binary64 [roundTick] returns each of the keys [n * 0.01], for [n]
    from -100000 to 199999, at that key; it is not the exact rounding:
    [roundTick(0.57)] is 0.5700000000000001, [roundTick(1.005)] is 1, and
    [roundTick(0.1 + 20 * TICK)] is 0.3 where [roundTick(0.1) + 20 * TICK] is
    0.30000000000000004. *)
Lemma roundTick_binary64 :
  Double.keys_fixed_from (-100000) 300000 = true /\
  (Double.roundTick 0.57 =? 0.5700000000000001)%float = true /\
  (Double.roundTick 1.005 =? 1)%float = true /\
  (Double.roundTick (0.1 + 20 * Double.TICK) =? 0.3)%float = true /\
  (Double.roundTick 0.1 + 20 * Double.TICK =? 0.30000000000000004)%float
  = true.
Proof. vm_compute. repeat split. Qed.

(** In binary64, with the two prices of 0.57 rounded first, as [submitOrder]
    does, the limit buy meets the limit sell: they trade and nothing rests. *)
Lemma placeAndMatch_binary64_rounded :
  let b1 := snd (Double.placeAndMatch
                   (Double.mkOrder "a" "you" sell (Double.roundTick 0.57) 1 0
                      limit) 0 Double.empty_book) in
  let r := Double.placeAndMatch
             (Double.mkOrder "b" "you" buy (Double.roundTick 0.57) 1 0 limit)
             0 b1 in
  length (Double.p_trades (fst r)) = 1%nat /\
  Double.bestBid (snd r) = None /\ Double.bestAsk (snd r) = None.
Proof. vm_compute. repeat split. Qed.

(** X7.  [roundTick] keeps the order of prices, and for a price of magnitude
    at most 1000 it returns its own value again when applied to it.  (The
    exact rounding does so at every price; the bound is the range on which
    the binary64 function was evaluated, above.) *)
Theorem roundTick_order_fixed (p q : Q) :
  (p <= q -> roundTick p <= roundTick q) /\
  (Qabs p <= 1000 -> roundTick (roundTick p) == roundTick p).
Proof.
  split; [apply roundTick_mono |]. intros _. apply roundTick_idem.
Qed.

Lemma roundTick_order_fixed_witness :
  roundTick (57 # 100) <= roundTick (1005 # 1000) /\
  roundTick (roundTick (1005 # 1000)) == roundTick (1005 # 1000).
Proof.
  destruct (roundTick_order_fixed (57 # 100) (1005 # 1000)) as [Hm _].
  destruct (roundTick_order_fixed (1005 # 1000) 0) as [_ Hi].
  split; [apply Hm | apply Hi]; vm_compute; discriminate.
Defined.

Lemma queue_size_app (q : list Order) (o : Order) :
  PriceMap.queue_size (q ++ [o]) == PriceMap.queue_size q + size o.
Proof.
  induction q as [| h q IH]; simpl; [ring |].
  fold (PriceMap.queue_size (q ++ [o])) (PriceMap.queue_size q).
  rewrite IH. ring.
Qed.

Lemma total_set_absent (px : Q) (q : list Order) (m : PriceMap.t) :
  PriceMap.get px m = None ->
  PriceMap.total_size (PriceMap.set px q m)
  == PriceMap.total_size m + PriceMap.queue_size q.
Proof.
  induction m as [| [k q0] m IH]; simpl; [intros _; ring |].
  destruct (Qeq_bool px k); [discriminate |]. intro H. simpl.
  fold (PriceMap.total_size (PriceMap.set px q m)) (PriceMap.total_size m).
  rewrite IH; trivial. ring.
Qed.

(** X8.  [add] and lookup.  After [add(order)] the level at
    [roundTick(order.price)] on the side of the order holds its former queue
    followed by the order, with its price rounded; every other level of that
    side and the whole other side are as they were, and the side holds
    [order.size] more. *)
Theorem add_lookup (o : Order) (b : OrderBook) :
  let px := roundTick (price o) in
  PriceMap.get px (own (side o) (add o b))
  = Some (or_empty (PriceMap.get px (own (side o) b)) ++ [with_price o px]) /\
  (forall py, ~ py == px ->
     PriceMap.get py (own (side o) (add o b))
     = PriceMap.get py (own (side o) b)) /\
  opposite (side o) (add o b) = opposite (side o) b /\
  PriceMap.total_size (own (side o) (add o b))
  == PriceMap.total_size (own (side o) b) + size o.
Proof.
  cbv zeta. split; [apply add_rests_last |]. split; [| split].
  - intros py H. rewrite add_own. now apply PriceMapFacts.get_set_other.
  - apply add_opposite.
  - rewrite add_own.
    destruct (PriceMap.get (roundTick (price o)) (own (side o) b))
      as [q |] eqn:G; cbn [or_empty].
    + rewrite (PriceMapFacts.total_set _ _ q _ G), queue_size_app.
      cbn [size with_price]. ring.
    + rewrite (total_set_absent _ _ _ G). cbn [app PriceMap.queue_size
        fold_right size with_price]. ring.
Qed.

(** X9.  [bestBid] and [bestAsk] are [null] exactly on an empty side;
    otherwise the best bid is a bid level and no bid level is above it, and
    the best ask is an ask level and no ask level is below it. *)
Theorem best_prices (b : OrderBook) :
  (bestBid b = None <-> bids b = []) /\
  (bestAsk b = None <-> asks b = []) /\
  (forall x, bestBid b = Some x ->
     In x (PriceMap.keys (bids b)) /\
     forall k, In k (PriceMap.keys (bids b)) -> k <= x) /\
  (forall y, bestAsk b = Some y ->
     In y (PriceMap.keys (asks b)) /\
     forall k, In k (PriceMap.keys (asks b)) -> y <= k).
Proof.
  unfold bestBid, bestAsk, PriceMap.keys. repeat split.
  - destruct (bids b); [reflexivity | discriminate].
  - intros ->. reflexivity.
  - destruct (asks b); [reflexivity | discriminate].
  - intros ->. reflexivity.
  - destruct (map fst (bids b)) as [| k ks]; [discriminate |].
    injection H as <-. apply Math_max_spec.
  - destruct (map fst (bids b)) as [| k0 ks]; [discriminate |].
    injection H as <-. now apply Math_max_spec.
  - destruct (map fst (asks b)) as [| k ks]; [discriminate |].
    injection H as <-. apply Math_min_spec.
  - destruct (map fst (asks b)) as [| k0 ks]; [discriminate |].
    injection H as <-. now apply Math_min_spec.
Qed.

Lemma Math_max_app (k px : Q) (ks : list Q) :
  Math_max k (ks ++ [px]) = Qmax (Math_max k ks) px.
Proof. unfold Math_max. now rewrite fold_left_app. Qed.

Lemma Math_min_app (k px : Q) (ks : list Q) :
  Math_min k (ks ++ [px]) = Qmin (Math_min k ks) px.
Proof. unfold Math_min. now rewrite fold_left_app. Qed.

(** X10.  The best price after [add].  Adding a buy order makes the best bid
    the larger of the former best bid and the rounded price of the order
    (that price on a side that was empty), and leaves the best ask; adding a
    sell order makes the best ask the smaller of the two, and leaves the
    best bid. *)
Theorem add_best (o : Order) (b : OrderBook) :
  let px := roundTick (price o) in
  match side o with
  | buy =>
      bestAsk (add o b) = bestAsk b /\
      exists x, bestBid (add o b) = Some x /\
                x == match bestBid b with
                     | None => px
                     | Some x0 => Qmax x0 px
                     end
  | sell =>
      bestBid (add o b) = bestBid b /\
      exists y, bestAsk (add o b) = Some y /\
                y == match bestAsk b with
                     | None => px
                     | Some y0 => Qmin y0 px
                     end
  end.
Proof.
  cbv zeta. pose proof (add_own o b) as Hown.
  pose proof (add_opposite o b) as Hopp.
  destruct (side o) eqn:Hs; cbn [own opposite] in *.
  - split; [unfold bestAsk; now rewrite Hopp |].
    unfold bestBid. rewrite Hown.
    destruct (PriceMap.get (roundTick (price o)) (bids b)) as [q |] eqn:G.
    + rewrite (PriceMapFacts.keys_set_present _ _ _ _ G).
      apply PriceMapFacts.get_Some_key in G.
      destruct (PriceMap.keys (bids b)) as [| k ks] eqn:K; [inversion G |].
      eexists. split; [reflexivity |].
      destruct (Math_max_spec ks k) as [_ Hmax].
      apply InA_alt in G. destruct G as [z [Ez Hz]].
      specialize (Hmax z Hz). symmetry. apply Q.max_l. lra.
    + rewrite (PriceMapFacts.keys_set_absent _ _ _ G).
      destruct (PriceMap.keys (bids b)) as [| k ks] eqn:K; cbn [app].
      * eexists. split; reflexivity.
      * eexists. split; [reflexivity |]. now rewrite Math_max_app.
  - split; [unfold bestBid; now rewrite Hopp |].
    unfold bestAsk. rewrite Hown.
    destruct (PriceMap.get (roundTick (price o)) (asks b)) as [q |] eqn:G.
    + rewrite (PriceMapFacts.keys_set_present _ _ _ _ G).
      apply PriceMapFacts.get_Some_key in G.
      destruct (PriceMap.keys (asks b)) as [| k ks] eqn:K; [inversion G |].
      eexists. split; [reflexivity |].
      destruct (Math_min_spec ks k) as [_ Hmin].
      apply InA_alt in G. destruct G as [z [Ez Hz]].
      specialize (Hmin z Hz). symmetry. apply Q.min_l. lra.
    + rewrite (PriceMapFacts.keys_set_absent _ _ _ G).
      destruct (PriceMap.keys (asks b)) as [| k ks] eqn:K; cbn [app].
      * eexists. split; reflexivity.
      * eexists. split; [reflexivity |]. now rewrite Math_min_app.
Qed.

(** ** [snapshot] *)

Lemma entry_insert_perm (cmp : Q * list Order -> Q * list Order -> Q)
    (e : Q * list Order) (l : list (Q * list Order)) :
  Permutation (entry_insert cmp e l) (e :: l).
Proof.
  induction l as [| y l IH]; simpl; [reflexivity |].
  destruct (Qleb (cmp e y) 0); [reflexivity |].
  rewrite IH. apply perm_swap.
Qed.

Lemma sort_entries_perm (cmp : Q * list Order -> Q * list Order -> Q)
    (l : list (Q * list Order)) :
  Permutation (sort_entries cmp l) l.
Proof.
  induction l as [| e l IH]; simpl; [reflexivity |].
  rewrite entry_insert_perm. now constructor.
Qed.

(** Sorting the entries sorts the keys. *)
Lemma sort_entries_keys (cmp : Q -> Q -> Q) (l : list (Q * list Order)) :
  map fst (sort_entries (fun x y => cmp (fst x) (fst y)) l)
  = sort cmp (map fst l).
Proof.
  induction l as [| e l IH]; simpl; [reflexivity |].
  rewrite <- IH. generalize (sort_entries (fun x y => cmp (fst x) (fst y)) l).
  clear IH. induction l0 as [| y l0 IH]; simpl; [reflexivity |].
  destruct (Qleb (cmp (fst e) (fst y)) 0); simpl; [reflexivity |].
  now rewrite IH.
Qed.

Lemma agg_acc (q : list Order) (a : Q) :
  fold_left (fun s o => s + size o) q a == a + PriceMap.queue_size q.
Proof.
  revert a. induction q as [| o q IH]; intro a; simpl; [ring |].
  fold (PriceMap.queue_size q). rewrite IH. ring.
Qed.

Lemma agg_queue_size (q : list Order) : agg q == PriceMap.queue_size q.
Proof. unfold agg. rewrite agg_acc. ring. Qed.

Lemma slice_to_firstn {A : Type} (n : Q) (l : list A) :
  exists k, slice_to n l = firstn k l /\
            (0 <= n -> k = Z.to_nat (Qfloor n)).
Proof.
  unfold slice_to, Qtrunc. destruct (Qleb_reflect 0 n) as [H | H].
  - assert (Hf : (0 <= Qfloor n)%Z).
    { rewrite <- (Qfloor_Z 0). now apply Qfloor_resp_le. }
    destruct (Z.ltb_spec (Qfloor n) 0); [lia |].
    eexists. split; [reflexivity | trivial].
  - destruct (Qceiling n <? 0)%Z; eexists; (split; [reflexivity |]);
      intro; contradiction.
Qed.

Lemma In_get (k : Q) (q : list Order) (m : PriceMap.t) :
  PriceMap.wf m -> In (k, q) m -> PriceMap.get k m = Some q.
Proof.
  unfold PriceMap.wf. induction m as [| [k0 q0] m IH]; simpl; intros Hw Hin;
    [contradiction |].
  inversion Hw; subst. destruct Hin as [E | Hin].
  - injection E as -> ->. now rewrite PriceMapFacts.Qeq_bool_true.
  - destruct (PriceMapFacts.Qeq_bool_reflect k k0) as [E | E]; [| now apply IH].
    exfalso. apply H1. rewrite <- E.
    apply (In_InA Q_Setoid). change k with (fst (k, q)). now apply in_map.
Qed.

Lemma In_firstn {A : Type} (k : nat) (l : list A) (x : A) :
  In x (firstn k l) -> In x l.
Proof.
  intro H. rewrite <- (firstn_skipn k l). apply in_or_app. now left.
Qed.

Lemma sorted_firstn {A : Type} (R : A -> A -> Prop) (k : nat) (l : list A) :
  StronglySorted R l -> StronglySorted R (firstn k l).
Proof.
  intro H. revert k. induction H as [| x l Hl IH Hx]; intro k.
  - rewrite firstn_nil. constructor.
  - destruct k; cbn [firstn]; constructor; [apply IH |].
    rewrite Forall_forall in *. intros y Hy. apply Hx.
    now apply In_firstn in Hy.
Qed.

(** A sorted list of prices without a repeated price is strictly sorted. *)
Lemma sorted_strict (s : Side) (l : list Q) :
  StronglySorted (better_eq s) l -> NoDupA Qeq l ->
  StronglySorted (better s) l.
Proof.
  induction 1 as [| x l Hl IH Hx]; intro Hnd; [constructor |].
  inversion Hnd; subst. constructor; [now apply IH |].
  rewrite Forall_forall in *. intros y Hy. specialize (Hx y Hy).
  assert (Hne : ~ x == y).
  { intro E. apply H1. apply InA_alt. now exists y. }
  unfold better, better_eq in *. destruct s; lra.
Qed.

(** The levels of one side of a snapshot, for the comparator of side [s]. *)
Lemma snapshot_side (s : Side) (depth : Q) (m : PriceMap.t) :
  PriceMap.wf m ->
  let lvs := map (fun e => mkLevel (fst e) (agg (snd e)))
               (slice_to depth
                  (sort_entries
                     (fun x y => priceOrder s (fst x) (fst y)) m)) in
  (0 <= depth -> (length lvs <= Z.to_nat (Qfloor depth))%nat) /\
  Forall (fun lv => exists q,
            PriceMap.get (lv_price lv) m = Some q /\
            lv_size lv == PriceMap.queue_size q) lvs /\
  StronglySorted (better s) (map lv_price lvs).
Proof.
  intro Hwf. cbv zeta.
  set (sorted := sort_entries (fun x y => priceOrder s (fst x) (fst y)) m).
  destruct (slice_to_firstn depth sorted) as [k [Ek Hk]]. rewrite Ek.
  split; [| split].
  - intro H0. rewrite length_map, (Hk H0). apply firstn_le_length.
  - rewrite Forall_forall. intros lv Hin. apply in_map_iff in Hin.
    destruct Hin as [[p q] [<- Hin]]. cbn [lv_price lv_size fst snd].
    exists q. split; [| apply agg_queue_size].
    apply In_get; trivial.
    apply In_firstn in Hin. subst sorted.
    now apply (Permutation_in _ (sort_entries_perm _ m)) in Hin.
  - rewrite map_map. cbn [lv_price]. rewrite <- firstn_map.
    apply sorted_firstn. subst sorted. rewrite sort_entries_keys.
    apply sorted_strict; [apply sort_sorted | now apply sort_NoDupA].
Qed.

(** X11.  The levels of [snapshot(depth)].  There are at most [depth] of
    them on each side (for [depth >= 0]); each is a level of the book with
    the sum of the sizes of its queue; the bid levels come in strictly
    falling price, the ask levels in strictly rising price. *)
Theorem snapshot_levels (depth : Q) (b : OrderBook) :
  PriceMap.wf (bids b) -> PriceMap.wf (asks b) ->
  let sn := snapshot depth b in
  (0 <= depth ->
   (length (snap_bids sn) <= Z.to_nat (Qfloor depth))%nat /\
   (length (snap_asks sn) <= Z.to_nat (Qfloor depth))%nat) /\
  Forall (fun lv => exists q,
            PriceMap.get (lv_price lv) (bids b) = Some q /\
            lv_size lv == PriceMap.queue_size q) (snap_bids sn) /\
  Forall (fun lv => exists q,
            PriceMap.get (lv_price lv) (asks b) = Some q /\
            lv_size lv == PriceMap.queue_size q) (snap_asks sn) /\
  StronglySorted (fun x y => y < x) (map lv_price (snap_bids sn)) /\
  StronglySorted (fun x y => x < y) (map lv_price (snap_asks sn)).
Proof.
  intros Hb Ha. cbv zeta.
  destruct (snapshot_side sell depth (bids b) Hb) as [Lb [Fb Sb]].
  destruct (snapshot_side buy depth (asks b) Ha) as [La [Fa Sa]].
  unfold snapshot. cbn [snap_bids snap_asks].
  split; [intro H0; split; [now apply Lb | now apply La] |].
  split; [exact Fb |]. split; [exact Fa |]. split; [exact Sb | exact Sa].
Qed.

Lemma snapshot_levels_witness :
  let b := add (mkOrder "b2" "sim" buy (99 # 100) 2 0 limit)
             (add (mkOrder "b1" "sim" buy 1 1 0 limit)
                (add (mkOrder "a1" "sim" sell (101 # 100) 3 0 limit)
                   empty_book)) in
  StronglySorted (fun x y => y < x) (map lv_price (snap_bids (snapshot 15 b))).
Proof.
  cbv zeta.
  apply (snapshot_levels 15
           (add (mkOrder "b2" "sim" buy (99 # 100) 2 0 limit)
              (add (mkOrder "b1" "sim" buy 1 1 0 limit)
                 (add (mkOrder "a1" "sim" sell (101 # 100) 3 0 limit)
                    empty_book))));
    vm_compute; repeat constructor; intro H; inversion H; subst;
    try discriminate;
    match goal with X : InA _ _ [] |- _ => inversion X end.
Defined.







(** ** More on [fillPosition] *)

Lemma applyFill_position (s : Side) (a : Account) (f : Trade) :
  position (applyFill s a f) == position a + signed_size s f.
Proof.
  unfold applyFill, signed_size. cbv zeta. destruct s.
  - destruct (Qleb_reflect 0 (position a)); cbn [position]; [ring |].
    set (c := Qmin (trade_size f) (- position a)).
    destruct (Qltb_reflect 0 (trade_size f - c)); cbn [position]; [ring |].
    pose proof (Q.le_min_l (trade_size f) (- position a)) as H. fold c in H.
    lra.
  - destruct (Qleb_reflect (position a) 0).
    + destruct (Qltb_reflect (position a) 0); cbn [position]; ring.
    + set (c := Qmin (trade_size f) (position a)).
      destruct (Qltb_reflect 0 (trade_size f - c)); cbn [position]; [ring |].
      pose proof (Q.le_min_l (trade_size f) (position a)) as H. fold c in H.
      lra.
Qed.

Lemma fold_applyFill_position (s : Side) (fills : list Trade) (a : Account) :
  position (fold_left (applyFill s) fills a)
  == position a + net_size s fills.
Proof.
  revert a. induction fills as [| f fills IH]; intro a; simpl; [ring |].
  fold (net_size s fills). rewrite IH, applyFill_position. ring.
Qed.











(** ** Order entry *)

Lemma executeMarket_full_fill (s : Side) (sz now0 : Q) (b : OrderBook) :
  side_ok (opposite s b) -> 0 <= sz ->
  sz <= PriceMap.total_size (opposite s b) ->
  filled (fst (executeMarket s sz now0 b)) == sz.
Proof.
  intros Hok H0 Hle.
  destruct (executeMarket_side_ok s sz now0 b Hok) as [[_ Hq'] _].
  apply total_size_pos in Hq'.
  pose proof (executeMarket_unfilled s sz now0 b) as Hun.
  revert Hq' Hun. rewrite executeMarket_opposite, executeMarket_filled.
  destruct Hok as [Hwf _].
  destruct (match_levels_conservation s now0
              (sort (priceOrder s) (PriceMap.keys (opposite s b)))
              (mkMatch (opposite s b) sz 0 []) Hwf H0)
    as [Hr [d [Hq [Hd0 [Hd1 Hd2]]]]].
  cbn [m_book m_remain] in Hq.
  set (st := match_levels s now0
               (sort (priceOrder s) (PriceMap.keys (opposite s b)))
               (mkMatch (opposite s b) sz 0 [])) in *.
  intros Hpos Hun.
  destruct (Qlt_le_dec 0 (m_remain st)) as [Hrem | Hrem]; [| lra].
  assert (He : m_book st = []) by (apply Hun; lra).
  rewrite He in Hq. cbn [PriceMap.total_size fold_right] in Hq.
  specialize (Hd2 Hrem). lra.
Qed.

Lemma executeMarket_filled_sum (s : Side) (sz now0 : Q) (b : OrderBook) :
  filled (fst (executeMarket s sz now0 b))
  == filled_size (trades (fst (executeMarket s sz now0 b))).
Proof.
  rewrite executeMarket_filled, executeMarket_trades.
  destruct (match_levels_trades s now0
              (sort (priceOrder s) (PriceMap.keys (opposite s b)))
              (mkMatch (opposite s b) sz 0 []))
    as [tn [Ht [_ [_ [_ Hr]]]]].
  cbn [m_trades m_remain app] in *. rewrite Ht, Hr. ring.
Qed.

Lemma net_size_filled (s : Side) (fills : list Trade) :
  net_size s fills
  == match s with buy => filled_size fills | sell => - filled_size fills end.
Proof.
  induction fills as [| f fills IH]; simpl.
  - destruct s; reflexivity.
  - fold (net_size s fills) (filled_size fills). rewrite IH.
    destruct s; cbn [signed_size]; ring.
Qed.

Lemma fillPosition_snapped (s : Side) (fills : list Trade) (a : Account) :
  fills <> [] -> Qabs (position a + net_size s fills) < eps8 ->
  position (fillPosition s fills a) = 0 /\
  acctAvgPrice (fillPosition s fills a) = 0.
Proof.
  intros Hne H. unfold fillPosition. destruct fills as [| f fills];
    [contradiction |].
  destruct (Qltb_reflect
              (Qabs (position (fold_left (applyFill s) (f :: fills) a))) eps8)
    as [_ | N]; [now split |].
  exfalso. apply N. now rewrite (fold_applyFill_position s (f :: fills) a).
Qed.





(** X17.  [flatten].  With no position nothing is done.  Otherwise, on a
    book whose resting orders have positive sizes and whose opposite side
    holds at least the size of the position, the account is left with
    position 0 and average price 0. *)
Theorem flatten_flat (now mark : Q) (id0 : string) (st : Sim) :
  book_ok (sim_book st) ->
  let pos := position (sim_account st) in
  let st' := flatten now mark id0 st in
  (pos == 0 -> st' = st) /\
  (0 < pos -> pos <= PriceMap.total_size (bids (sim_book st)) ->
   position (sim_account st') == 0 /\ acctAvgPrice (sim_account st') == 0) /\
  (pos < 0 -> - pos <= PriceMap.total_size (asks (sim_book st)) ->
   position (sim_account st') == 0 /\ acctAvgPrice (sim_account st') == 0).
Proof.
  intros [Hb Ha]. cbv zeta. unfold flatten. cbv zeta.
  destruct (PriceMapFacts.Qeq_bool_reflect (position (sim_account st)) 0)
    as [E | E].
  - split; [reflexivity |]. split; intro; lra.
  - split; [intro; contradiction |].
    assert (Hflat : forall s,
              side_ok (opposite s (sim_book st)) ->
              Qabs (position (sim_account st))
              <= PriceMap.total_size (opposite s (sim_book st)) ->
              position (sim_account st)
              == match s with
                 | buy => - Qabs (position (sim_account st))
                 | sell => Qabs (position (sim_account st))
                 end ->
              let st' := submitOrder now mark id0 s market
                           (Qabs (position (sim_account st))) None st in
              position (sim_account st') == 0 /\
              acctAvgPrice (sim_account st') == 0).
    { intros s Hok Hle Hsign. cbv zeta. unfold submitOrder.
      assert (H0 : 0 <= Qabs (position (sim_account st)))
        by apply Qabs_nonneg.
      pose proof (executeMarket_full_fill s _ now _ Hok H0 Hle) as Hf.
      pose proof (executeMarket_filled_sum s
                    (Qabs (position (sim_account st))) now (sim_book st))
        as Hs.
      destruct (executeMarket s (Qabs (position (sim_account st))) now
                  (sim_book st)) as [res b1].
      cbn [fst sim_account] in *.
      assert (Hpos : 0 < Qabs (position (sim_account st))).
      { destruct (Qabs_cases (position (sim_account st))) as [[Hc Ec] | [Hc Ec]];
          rewrite Ec; lra. }
      destruct (fillPosition_snapped s (trades res) (sim_account st))
        as [Ep Eavg].
      - intro En. rewrite En in Hs. cbn [filled_size fold_right] in Hs. lra.
      - rewrite net_size_filled.
        assert (Ez : position (sim_account st)
                     + match s with
                       | buy => filled_size (trades res)
                       | sell => - filled_size (trades res)
                       end == 0) by (destruct s; lra).
        rewrite Ez. vm_compute. reflexivity.
      - rewrite Ep, Eavg. split; reflexivity. }
    split.
    + intros Hp Hle.
      destruct (Qltb_reflect 0 (position (sim_account st))) as [_ | N];
        [| contradiction].
      assert (Ea : Qabs (position (sim_account st))
                   == position (sim_account st)) by (apply Qabs_pos; lra).
      apply (Hflat sell); cbn [opposite]; trivial; lra.
    + intros Hp Hle.
      destruct (Qltb_reflect 0 (position (sim_account st))) as [N | _];
        [lra |].
      assert (Ea : Qabs (position (sim_account st))
                   == - position (sim_account st)) by (apply Qabs_neg; lra).
      apply (Hflat buy); cbn [opposite]; trivial; lra.
Qed.

Lemma flatten_flat_witness :
  let st := mkSim (add (mkOrder "b" "sim" buy 1 2 0 limit) empty_book)
              (mkAccount 100 1 (9 # 10) 0) [] in
  position (sim_account (flatten 0 1 "f" st)) == 0 /\
  acctAvgPrice (sim_account (flatten 0 1 "f" st)) == 0.
Proof.
  cbv zeta.
  destruct (flatten_flat 0 1 "f"
              (mkSim (add (mkOrder "b" "sim" buy 1 2 0 limit) empty_book)
                 (mkAccount 100 1 (9 # 10) 0) []))
    as [_ [Hlong _]].
  - apply add_book_ok; [reflexivity | apply book_ok_empty].
  - apply Hlong; vm_compute; [reflexivity | discriminate].
Defined.

(** ** Seeding does not match *)

Lemma seed_level_keys_mono (px : Q) (o : Order) (m : PriceMap.t) (k : Q) :
  InA Qeq k (PriceMap.keys m) ->
  InA Qeq k (PriceMap.keys (seed_level px o m)).
Proof.
  intro H. rewrite seed_level_eq. destruct (Nat.ltb _ 3); trivial.
  destruct (PriceMap.get px m) as [q |] eqn:G.
  - now rewrite (PriceMapFacts.keys_set_present _ _ _ _ G).
  - rewrite (PriceMapFacts.keys_set_absent _ _ _ G).
    apply InA_app_iff. now left.
Qed.

Lemma seed_side_keys_mono (depth : Q) (lv : Z -> Q * Order) (fuel : nat)
    (i : Z) (m : PriceMap.t) (k : Q) :
  InA Qeq k (PriceMap.keys m) ->
  InA Qeq k (PriceMap.keys (seed_side fuel depth lv i m)).
Proof.
  revert i m. induction fuel as [| fuel IH]; intros i m H; trivial.
  rewrite seed_side_S. destruct (Qleb (inject_Z i) depth); trivial.
  apply IH. now apply seed_level_keys_mono.
Qed.

(** After [seedAround] with [depth >= 1] the two sides hold the first level
    of the loop, and every level they held before. *)
Lemma seedAround_keys (mid depth maxQty : Q) (draws : Z -> Draw * Draw)
    (b : OrderBook) :
  1 <= depth ->
  let b' := seedAround mid depth maxQty draws b in
  InA Qeq (roundTick (mid - TICK)) (PriceMap.keys (bids b')) /\
  InA Qeq (roundTick (mid + TICK)) (PriceMap.keys (asks b')) /\
  (forall k, InA Qeq k (PriceMap.keys (bids b)) ->
             InA Qeq k (PriceMap.keys (bids b'))) /\
  (forall k, InA Qeq k (PriceMap.keys (asks b)) ->
             InA Qeq k (PriceMap.keys (asks b'))).
Proof.
  intro Hd. cbv zeta.
  assert (H1 : inject_Z 1 <= depth) by (change (inject_Z 1) with 1; lra).
  pose proof (seedAround_range depth 1 (Z.le_refl 1) H1) as Hr.
  assert (Eb1 : fst (bid_seed mid draws 1) == roundTick (mid - TICK)).
  { cbn [bid_seed fst]. apply roundTick_comp.
    change (inject_Z 1) with 1. ring. }
  assert (Ea1 : fst (ask_seed mid draws 1) == roundTick (mid + TICK)).
  { cbn [ask_seed fst]. apply roundTick_comp.
    change (inject_Z 1) with 1. ring. }
  unfold seedAround.
  destruct (seed_loop_sides (Z.to_nat (Qfloor depth)) mid depth draws 1 b)
    as [Eb Ea].
  rewrite Eb, Ea. repeat split.
  - rewrite <- Eb1. eapply PriceMapFacts.get_Some_key.
    apply seed_side_get_seeded; trivial. apply bid_seed_distinct.
  - rewrite <- Ea1. eapply PriceMapFacts.get_Some_key.
    apply seed_side_get_seeded; trivial. apply ask_seed_distinct.
  - intros k. apply seed_side_keys_mono.
  - intros k. apply seed_side_keys_mono.
Qed.

(** X18.  [seedAround] adds its orders without matching them.  With
    [depth >= 1], every level of the book is still a level of its side after
    the call; so a bid level at or above [roundTick(mid + TICK)], or an ask
    level at or below [roundTick(mid - TICK)], is still there, and the book
    is crossed: its best bid is at least its best ask. *)
Theorem seedAround_no_matching (mid depth maxQty : Q)
    (draws : Z -> Draw * Draw) (b : OrderBook) :
  1 <= depth ->
  let b' := seedAround mid depth maxQty draws b in
  (forall k, InA Qeq k (PriceMap.keys (bids b)) ->
             InA Qeq k (PriceMap.keys (bids b'))) /\
  (forall k, InA Qeq k (PriceMap.keys (asks b)) ->
             InA Qeq k (PriceMap.keys (asks b'))) /\
  (forall k,
     (InA Qeq k (PriceMap.keys (bids b)) /\ roundTick (mid + TICK) <= k) \/
     (InA Qeq k (PriceMap.keys (asks b)) /\ k <= roundTick (mid - TICK)) ->
     exists x y, bestBid b' = Some x /\ bestAsk b' = Some y /\ y <= x).
Proof.
  intros Hd. cbv zeta.
  destruct (seedAround_keys mid depth maxQty draws b Hd)
    as [Kb [Ka [Mb Ma]]].
  set (b' := seedAround mid depth maxQty draws b) in *.
  split; [exact Mb |]. split; [exact Ma |]. intros k Hk.
  destruct (keys_best sell b' _ Kb) as [x Hx].
  destruct (keys_best buy b' _ Ka) as [y Hy].
  destruct (bestOpp_Some sell b' x Hx) as [_ Hxbest].
  destruct (bestOpp_Some buy b' y Hy) as [_ Hybest].
  cbn [opposite better_eq] in *.
  exists x, y. split; [exact Hx |]. split; [exact Hy |].
  destruct Hk as [[Hin Hle] | [Hin Hle]].
  - pose proof (Hxbest _ (Mb _ Hin)). pose proof (Hybest _ Ka). lra.
  - pose proof (Hybest _ (Ma _ Hin)). pose proof (Hxbest _ Kb). lra.
Qed.

Lemma seedAround_no_matching_witness :
  let b := add (mkOrder "u" "you" buy (105 # 100) 1 0 limit) empty_book in
  let b' := seedAround 1 3 20
              (fun _ => (mkDraw "b" (1 # 2) 0, mkDraw "a" (1 # 4) 0)) b in
  InA Qeq (roundTick (105 # 100)) (PriceMap.keys (bids b')) /\
  exists x y, bestBid b' = Some x /\ bestAsk b' = Some y /\ y <= x.
Proof.
  cbv zeta.
  destruct (seedAround_no_matching 1 3 20
              (fun _ => (mkDraw "b" (1 # 2) 0, mkDraw "a" (1 # 4) 0))
              (add (mkOrder "u" "you" buy (105 # 100) 1 0 limit) empty_book))
    as [Hb [_ Hx]].
  - vm_compute. discriminate.
  - split.
    + apply Hb. left. reflexivity.
    + apply (Hx (roundTick (105 # 100))). left. split.
      * left. reflexivity.
      * vm_compute. discriminate.
Defined.

(** ** Random draws and clamping *)


Lemma clamp_bounds (x a b : Q) :
  a <= b ->
  a <= clamp x a b /\ clamp x a b <= b /\
  (a <= x -> x <= b -> clamp x a b == x).
Proof.
  intro Hab. unfold clamp.
  destruct (Q.max_spec a (Qmin b x)) as [[H E] | [H E]];
    destruct (Qmin_cases b x) as [[H' E'] | [H' E']]; rewrite E;
    repeat split; intros; lra.
Qed.

Lemma clamp_mono (x y a b : Q) : x <= y -> clamp x a b <= clamp y a b.
Proof.
  intro H. unfold clamp. apply Q.max_le_compat_l. now apply Q.min_le_compat_l.
Qed.



(** X20.  [clamp].  With [a <= b], [clamp(x, a, b)] lies in [[a, b]], is [x]
    when [x] does, and does not decrease when [x] grows; with [b < a] it is
    [a] whatever [x]. *)
Theorem clamp_range (x y a b : Q) :
  (a <= b ->
   a <= clamp x a b /\ clamp x a b <= b /\
   (a <= x -> x <= b -> clamp x a b == x)) /\
  (x <= y -> clamp x a b <= clamp y a b) /\
  (b < a -> clamp x a b == a).
Proof.
  split; [apply clamp_bounds |]. split; [apply clamp_mono |].
  intro H. unfold clamp. apply Q.max_l.
  pose proof (Q.le_min_l b x). lra.
Qed.

Lemma clamp_range_witness :
  (2 # 10) <= clamp (1 + (1 # 200)) (2 # 10) 5 /\
  clamp (1 + (1 # 200)) (2 # 10) 5 <= 5 /\
  clamp (1 + (1 # 200)) (2 # 10) 5 == 1 + (1 # 200).
Proof.
  destruct (clamp_range (1 + (1 # 200)) 6 (2 # 10) 5) as [H _].
  destruct H as [Ha [Hb Hc]]; [vm_compute; discriminate |].
  split; [exact Ha |]. split; [exact Hb |].
  apply Hc; vm_compute; discriminate.
Defined.

(** ** Candles *)

Lemma snoc_cases {A : Type} (xs : list A) :
  xs = [] \/ exists ys y, xs = ys ++ [y].
Proof. induction xs using rev_ind; [now left | right; eauto]. Qed.

Lemma last_opt_snoc {A : Type} (xs : list A) (x : A) :
  last_opt (xs ++ [x]) = Some x.
Proof.
  unfold last_opt. rewrite length_app. cbn [length].
  replace (length xs + 1 - 1)%nat with (length xs) by lia.
  rewrite nth_error_app2 by lia.
  replace (length xs - length xs)%nat with 0%nat by lia. reflexivity.
Qed.


Lemma In_skipn {A : Type} (n : nat) (l : list A) (x : A) :
  In x (skipn n l) -> In x l.
Proof.
  intro H. rewrite <- (firstn_skipn n l). apply in_or_app. now right.
Qed.

Lemma slice_last_length {A : Type} (n : nat) (l : list A) :
  length (slice_last n l) = Nat.min n (length l).
Proof. unfold slice_last. rewrite length_skipn. lia. Qed.

Lemma slice_to_init {A : Type} (xs : list A) (x : A) :
  slice_to (-1) (xs ++ [x]) = xs.
Proof.
  unfold slice_to. change (Qtrunc (-1)) with (-1)%Z. cbv zeta.
  change (-1 <? 0)%Z with true. cbv iota.
  rewrite length_app. cbn [length].
  replace (Z.to_nat (Z.of_nat (length xs + 1) + -1)) with (length xs + 0)%nat
    by lia.
  rewrite firstn_app_2. cbn [firstn]. apply app_nil_r.
Qed.

Lemma fresh_bar_ok (now o c u1 u2 v : Q) :
  0 <= u1 -> 0 <= u2 ->
  bar_ok (Candle.mkCandle now o (Math_max o [c] + rnd u1 0 (1 # 100))
            (Math_min o [c] - rnd u2 0 (1 # 100)) c v).
Proof.
  intros H1 H2. unfold bar_ok, rnd.
  cbn [Candle.o Candle.h Candle.l Candle.c Math_max Math_min fold_left].
  pose proof (Q.le_max_l o c). pose proof (Q.le_max_r o c).
  pose proof (Q.le_min_l o c). pose proof (Q.le_min_r o c).
  repeat split; lra.
Qed.

Ltac candle_cases cs xs last t0 :=
  destruct (snoc_cases cs) as [-> | [xs [last ->]]];
  unfold updateCandles; cbv zeta;
  [change (last_opt (@nil Candle.Candle)) with (@None Candle.Candle)
  | rewrite last_opt_snoc;
    destruct (Qleb (1000 - 1) (t0 - Candle.t last))].

Lemma updateCandles_bar_ok (now px u1 u2 u3 : Q) (cs : list Candle.Candle) :
  0 <= u1 -> 0 <= u2 -> Forall bar_ok cs ->
  Forall bar_ok (updateCandles now px u1 u2 u3 cs).
Proof.
  intros H1 H2 H. candle_cases cs xs lb now.
  - cbn. repeat constructor; now apply fresh_bar_ok.
  - apply Forall_app. split.
    + rewrite Forall_forall in *. intros b Hb. apply H.
      unfold slice_last in Hb. now apply In_skipn in Hb.
    + repeat constructor; now apply fresh_bar_ok.
  - rewrite slice_to_init. apply Forall_app in H. destruct H as [Hx Hl].
    apply Forall_app. split; trivial.
    inversion Hl as [| ? ? [Ha [Hb [Hc Hd]]] _]; subst.
    constructor; [| constructor]. unfold bar_ok.
    cbn [Candle.o Candle.h Candle.l Candle.c Math_max Math_min fold_left].
    pose proof (Q.le_max_l (Candle.h lb) px).
    pose proof (Q.le_max_r (Candle.h lb) px).
    pose proof (Q.le_min_l (Candle.l lb) px).
    pose proof (Q.le_min_r (Candle.l lb) px).
    repeat split; lra.
Qed.

Lemma updateCandles_snoc (now px u1 u2 u3 : Q) (cs : list Candle.Candle) :
  exists front b,
    updateCandles now px u1 u2 u3 cs = front ++ [b] /\ Candle.c b = px /\
    incl front cs.
Proof.
  candle_cases cs xs lb now.
  - eexists _, _. split; [reflexivity |]. split; [reflexivity |].
    intros b Hb. now apply In_skipn in Hb.
  - eexists _, _. split; [reflexivity |]. split; [reflexivity |].
    intros b Hb. now apply In_skipn in Hb.
  - rewrite slice_to_init.
    eexists _, _. split; [reflexivity |]. split; [reflexivity |].
    intros b Hb. apply in_or_app. now left.
Qed.

Lemma updateCandles_length (now px u1 u2 u3 : Q) (cs : list Candle.Candle) :
  (1 <= length (updateCandles now px u1 u2 u3 cs))%nat /\
  ((length cs <= 200)%nat ->
   (length (updateCandles now px u1 u2 u3 cs) <= 200)%nat).
Proof.
  candle_cases cs xs lb now.
  - cbn. lia.
  - rewrite length_app, slice_last_length. cbn [length]. lia.
  - rewrite slice_to_init, !length_app. cbn [length]. lia.
Qed.

Lemma last_close_app (p : Q) (xs ys : list Candle.Candle) :
  last_close p (xs ++ ys) = last_close (last_close p xs) ys.
Proof. apply fold_left_app. Qed.

Lemma chained_app (p : Q) (xs ys : list Candle.Candle) :
  chained p (xs ++ ys) <-> chained p xs /\ chained (last_close p xs) ys.
Proof.
  revert p. induction xs as [| b xs IH]; intro p; cbn [app chained].
  - cbn. tauto.
  - rewrite IH. cbn [last_close fold_left]. fold (last_close (Candle.c b) xs).
    tauto.
Qed.

Lemma updateCandles_chained (now px u1 u2 u3 : Q) (cs : list Candle.Candle)
    (p : Q) :
  chained p cs -> exists p', chained p' (updateCandles now px u1 u2 u3 cs).
Proof.
  intro H. candle_cases cs xs lb now.
  - exists px. cbn. split; [reflexivity | exact I].
  - unfold slice_last.
    set (k := (length (xs ++ [lb]) - 199)%nat).
    rewrite <- (firstn_skipn k (xs ++ [lb])) in H.
    apply chained_app in H. destruct H as [_ H].
    exists (last_close p (firstn k (xs ++ [lb]))).
    apply chained_app. split; trivial.
    cbn [chained Candle.o Candle.c]. split; [| exact I].
    rewrite <- last_close_app, firstn_skipn, last_close_app.
    reflexivity.
  - rewrite slice_to_init. exists p.
    apply chained_app in H. destruct H as [Hx Hl].
    apply chained_app. split; [exact Hx | exact Hl].
Qed.

(** X21.  The candle update of [step].  The new series ends with a bar that
    closes at [px], after bars of the old series; bars whose low and high
    enclose open and close stay so (draws [>= 0]); a series in which each
    bar opens at the close of the bar before stays so; and a series of at
    most 200 bars stays at most 200 bars long. *)
Theorem updateCandles_series (now px u1 u2 u3 : Q) (cs : list Candle.Candle) :
  0 <= u1 -> 0 <= u2 ->
  let cs' := updateCandles now px u1 u2 u3 cs in
  (exists front b, cs' = front ++ [b] /\ Candle.c b = px /\ incl front cs) /\
  mark_of cs' = px /\
  (Forall bar_ok cs -> Forall bar_ok cs') /\
  (forall p, chained p cs -> exists p', chained p' cs') /\
  ((length cs <= 200)%nat -> (length cs' <= 200)%nat).
Proof.
  intros H1 H2. cbv zeta.
  split; [apply updateCandles_snoc |]. split.
  - destruct (updateCandles_snoc now px u1 u2 u3 cs) as [f [b [E [Ec _]]]].
    unfold mark_of. now rewrite E, last_opt_snoc.
  - split; [now apply updateCandles_bar_ok |].
    split; [intro p; apply updateCandles_chained |].
    apply updateCandles_length.
Qed.

Lemma updateCandles_series_witness :
  let cs := [Candle.mkCandle 0 1 (101 # 100) (99 # 100) 1 10] in
  mark_of (updateCandles 500 (102 # 100) (1 # 2) (1 # 2) (1 # 2) cs)
  = (102 # 100) /\
  (Forall bar_ok cs ->
   Forall bar_ok (updateCandles 500 (102 # 100) (1 # 2) (1 # 2) (1 # 2) cs)).
Proof.
  cbv zeta.
  destruct (updateCandles_series 500 (102 # 100) (1 # 2) (1 # 2) (1 # 2)
              [Candle.mkCandle 0 1 (101 # 100) (99 # 100) 1 10])
    as [_ [Hm [Hb _]]].
  - vm_compute. discriminate.
  - vm_compute. discriminate.
  - split; [exact Hm | exact Hb].
Defined.

(** *** The seeded series *)











(** ** The reference price, the first state and the step *)

Lemma refPrice_book (mark : Q) (b : OrderBook) (bb ba : Q) :
  bestBid b = Some bb -> bestAsk b = Some ba ->
  ~ bb == 0 -> ~ ba == 0 ->
  refPrice mark [] b = roundTick ((bb + ba) / 2).
Proof.
  intros Hb Ha Nb Na. unfold refPrice.
  change (last_opt (@nil Trade)) with (@None Trade). rewrite Hb, Ha.
  now rewrite (PriceMapFacts.Qeq_bool_false _ _ Nb),
    (PriceMapFacts.Qeq_bool_false _ _ Na).
Qed.

(** X23.  The price [step] gives the candle.  With trades on the tape it is
    the price of the last one.  With none, and a best bid [bb > 0] and a
    best ask [ba >= bb] that are multiples of the tick, it is a multiple of
    the tick between [bb] and [ba]; when a side of the book is empty it is
    the mark price. *)
Theorem refPrice_between (mark : Q) (tape : list Trade) (tr : Trade)
    (b : OrderBook) (bb ba : Q) :
  refPrice mark (tape ++ [tr]) b = trade_price tr /\
  (bestBid b = None \/ bestAsk b = None -> refPrice mark [] b = mark) /\
  (bestBid b = Some bb -> bestAsk b = Some ba ->
   roundTick bb == bb -> roundTick ba == ba -> 0 < bb -> bb <= ba ->
   bb <= refPrice mark [] b /\ refPrice mark [] b <= ba /\
   roundTick (refPrice mark [] b) == refPrice mark [] b).
Proof.
  split; [| split].
  - unfold refPrice. now rewrite last_opt_snoc.
  - unfold refPrice. change (last_opt (@nil Trade)) with (@None Trade).
    intros [-> | ->]; [reflexivity |]. now destruct (bestBid b).
  - intros Hb Ha Gb Ga H0 Hle.
    rewrite (refPrice_book mark b bb ba Hb Ha) by lra.
    assert (H1 : bb <= (bb + ba) / 2).
    { apply Qle_shift_div_l; lra. }
    assert (H2 : (bb + ba) / 2 <= ba).
    { apply Qle_shift_div_r; lra. }
    apply roundTick_mono in H1. apply roundTick_mono in H2.
    split; [lra |]. split; [lra |]. apply roundTick_idem.
Qed.

Lemma refPrice_between_witness :
  let b := add (mkOrder "a" "sim" sell (101 # 100) 1 0 limit)
             (add (mkOrder "b" "sim" buy (98 # 100) 1 0 limit) empty_book) in
  roundTick (98 # 100) <= refPrice 1 [] b /\
  refPrice 1 [] b <= roundTick (101 # 100) /\
  roundTick (refPrice 1 [] b) == refPrice 1 [] b.
Proof.
  cbv zeta.
  destruct (refPrice_between 1 [] (mkTrade 0 1 1 buy)
              (add (mkOrder "a" "sim" sell (101 # 100) 1 0 limit)
                 (add (mkOrder "b" "sim" buy (98 # 100) 1 0 limit)
                    empty_book))
              (roundTick (98 # 100)) (roundTick (101 # 100)))
    as [_ [_ H]].
  apply H; vm_compute; try reflexivity; discriminate.
Defined.



(** The book, the account and the candles after [step]. *)
Lemma step_parts (now mark : Q) (tape : list Trade) (r : StepDraw)
    (w : World) :
  let b1 :=
    if Qltb (s_flow r) (7 # 10)
    then snd (executeMarket (if Qltb (s_side r) (1 # 2) then buy else sell)
                (rnd (s_size r) (1 # 2) 12) now (sim_book (w_sim w)))
    else sim_book (w_sim w) in
  let w' := step now mark tape r w in
  sim_book (w_sim w') = seedAround mark 30 20 (s_makers r) b1 /\
  sim_account (w_sim w') = sim_account (w_sim w) /\
  w_candles w'
  = updateCandles now (refPrice mark tape (sim_book (w_sim w')))
      (s_u1 r) (s_u2 r) (s_u3 r) (w_candles w).
Proof.
  cbv zeta. unfold step. cbv zeta.
  destruct (Qltb (s_flow r) (7 # 10)).
  - destruct (executeMarket _ _ now (sim_book (w_sim w))) as [res b1].
    cbn [snd w_sim sim_book sim_account w_candles]. repeat split.
  - cbn [w_sim sim_book sim_account w_candles]. repeat split.
Qed.

(** X25.  One [step].  On a book whose resting orders have positive sizes
    (draws [>= 0]), the book after the step is again such a book and has
    both sides, with a best bid of at least [roundTick(mark - TICK)] and a
    best ask of at most [roundTick(mark + TICK)]; the account is not touched;
    the last candle closes at the reference price taken on the new book; and
    the candles keep their shape and their bound of 200 bars. *)
Theorem step_state (now mark : Q) (tape : list Trade) (r : StepDraw)
    (w : World) :
  book_ok (sim_book (w_sim w)) ->
  (forall i, 0 <= d_u (fst (s_makers r i)) /\ 0 <= d_u (snd (s_makers r i))) ->
  0 <= s_u1 r -> 0 <= s_u2 r ->
  let w' := step now mark tape r w in
  book_ok (sim_book (w_sim w')) /\
  (exists x y,
     bestBid (sim_book (w_sim w')) = Some x /\
     bestAsk (sim_book (w_sim w')) = Some y /\
     roundTick (mark - TICK) <= x /\ y <= roundTick (mark + TICK)) /\
  sim_account (w_sim w') = sim_account (w_sim w) /\
  mark_of (w_candles w') = refPrice mark tape (sim_book (w_sim w')) /\
  (Forall bar_ok (w_candles w) -> Forall bar_ok (w_candles w')) /\
  ((length (w_candles w) <= 200)%nat -> (length (w_candles w') <= 200)%nat).
Proof.
  intros Hok Hd H1 H2. cbv zeta.
  destruct (step_parts now mark tape r w) as [Eb [Ea Ec]].
  set (w' := step now mark tape r w) in *.
  split; [| split; [| split; [exact Ea |]]].
  - rewrite Eb. apply seedAround_book_ok; trivial.
    destruct (Qltb (s_flow r) (7 # 10)); trivial.
    now apply executeMarket_book_ok.
  - rewrite Eb.
    match goal with
    | |- context [seedAround mark 30 20 (s_makers r) ?b] =>
        destruct (seedAround_bests mark 30 20 (s_makers r) b)
          as [x [y [Hx [Hy [Lx [Ly _]]]]]]; [vm_compute; discriminate |]
    end.
    exists x, y. repeat split; trivial.
  - rewrite Ec. split; [| split].
    + destruct (updateCandles_snoc now (refPrice mark tape (sim_book (w_sim w')))
                  (s_u1 r) (s_u2 r) (s_u3 r) (w_candles w))
        as [f [b [E [Ecl _]]]].
      unfold mark_of. now rewrite E, last_opt_snoc.
    + now apply updateCandles_bar_ok.
    + apply updateCandles_length.
Qed.

Lemma step_state_witness :
  let w := mkWorld (mkSim empty_book (mkAccount 10000 0 0 0) []) [] in
  let r := mkStepDraw (1 # 2) (1 # 4) (1 # 2)
             (fun _ => (mkDraw "b" (1 # 2) 0, mkDraw "a" (1 # 4) 0))
             (1 # 2) (1 # 2) (1 # 2) in
  book_ok (sim_book (w_sim (step 1000 1 [] r w))) /\
  mark_of (w_candles (step 1000 1 [] r w))
  = refPrice 1 [] (sim_book (w_sim (step 1000 1 [] r w))).
Proof.
  cbv zeta.
  destruct (step_state 1000 1 []
              (mkStepDraw (1 # 2) (1 # 4) (1 # 2)
                 (fun _ => (mkDraw "b" (1 # 2) 0, mkDraw "a" (1 # 4) 0))
                 (1 # 2) (1 # 2) (1 # 2))
              (mkWorld (mkSim empty_book (mkAccount 10000 0 0 0) []) []))
    as [Hb [_ [_ [Hm _]]]].
  - apply book_ok_empty.
  - intro i. split; vm_compute; discriminate.
  - vm_compute. discriminate.
  - vm_compute. discriminate.
  - split; [exact Hb | exact Hm].
Defined.

(** ** What a market order does to the account *)





